(** * classical: admin catalogue tool -- shallow embedding and verified properties

    The development follows the repository's sources:
    - the composer endpoint and the server actions (slug derivation, album
      year, work/movement identifiers, the access gate, the store writes);
    - the track-metadata endpoint (reference extraction, provider errors,
      read-only reconciliation);
    - [AlbumTracksTable.tsx] (movement-number inference).

    JavaScript strings are sequences of UTF-16 code units; they are modelled
    as [list N].  Tables of the relational store are finite maps keyed by
    their primary key. *)

From Stdlib Require Import NArith ZArith List Bool Lia Sorting.Sorted Sorting.Permutation.
From Stdlib Require Import Strings.String Strings.Ascii.
From stdpp Require Import base option list gmap.

Local Open Scope N_scope.

(* ===================================================================== *)
(** ** JavaScript strings *)
(* ===================================================================== *)

Module Js.

(** A string is the list of its UTF-16 code units. *)
Abbreviation jsstring := (list N).

(** ASCII literals: [lit "abc"] is the JavaScript string "abc". *)
Definition lit (s : string) : jsstring :=
  List.map N_of_ascii (list_ascii_of_string s).
Arguments lit : simpl never.

Definition isDigit (c : N) : bool := (48 <=? c) && (c <=? 57).
Definition isLower (c : N) : bool := (97 <=? c) && (c <=? 122).
Definition isUpper (c : N) : bool := (65 <=? c) && (c <=? 90).
Definition isAlnum (c : N) : bool := isLower c || isUpper c || isDigit c.
Definition isHyphen (c : N) : bool := c =? 45.

(** The class [\s] of a regular expression, which is also the set that
    [String.prototype.trim] and [parseInt] strip: WhiteSpace and
    LineTerminator of ECMAScript. *)
Definition isSpace (c : N) : bool :=
  ((9 <=? c) && (c <=? 13)) || (c =? 32) || (c =? 160) || (c =? 5760)
  || ((8192 <=? c) && (c <=? 8202)) || (c =? 8232) || (c =? 8233)
  || (c =? 8239) || (c =? 8287) || (c =? 12288) || (c =? 65279).

(** [String.prototype.toLowerCase] applies Unicode's locale-insensitive
    lower-case mapping.  On ASCII it maps [A-Z] to [a-z].  Outside ASCII
    exactly two code points have a mapping that contains an ASCII letter:
    U+0130 (to "i" followed by U+0307) and U+212A, the Kelvin sign (to "k").
    White space has no case.  Every other code unit is left to
    [lowerOther], which sees the units before (nearest first) and after it
    (the mapping of capital sigma and of surrogate pairs depends on them)
    and never produces an ASCII unit. *)
Class UnicodeLower := {
  lowerOther : list N -> N -> list N -> list N;
  lowerOther_nonascii :
    forall pre c post,
      128 <= c -> Forall (fun u => 128 <= u) (lowerOther pre c post)
}.

Section Lowering.
Context {U : UnicodeLower}.

Definition lowerUnit (pre : list N) (c : N) (post : list N) : list N :=
  if isUpper c then [c + 32]
  else if c <? 128 then [c]
  else if isSpace c then [c]
  else if c =? 304 then [105; 775]
  else if c =? 8490 then [107]
  else lowerOther pre c post.

Fixpoint lowerFrom (pre : list N) (s : jsstring) : jsstring :=
  match s with
  | [] => []
  | c :: rest => lowerUnit pre c rest ++ lowerFrom (c :: pre) rest
  end.

Definition toLowerCase (s : jsstring) : jsstring := lowerFrom [] s.

End Lowering.

(** [s.replace(/X+/g, rep)] for a character class [X]: every maximal run of
    units of the class is replaced by [rep].  [inRun] tells that the unit
    before the current one belonged to a run already replaced. *)
Fixpoint replaceRuns (p : N -> bool) (rep : jsstring) (inRun : bool)
  (s : jsstring) : jsstring :=
  match s with
  | [] => []
  | c :: rest =>
      if p c then
        (if inRun then replaceRuns p rep true rest
         else rep ++ replaceRuns p rep true rest)
      else c :: replaceRuns p rep false rest
  end.

(** [s.replace(/[^X]/g, "")]: only the units of the class stay. *)
Definition removeOutside (p : N -> bool) (s : jsstring) : jsstring :=
  List.filter p s.

Fixpoint trimStart (s : jsstring) : jsstring :=
  match s with
  | [] => []
  | c :: rest => if isSpace c then trimStart rest else s
  end.

Definition trimEnd (s : jsstring) : jsstring := rev (trimStart (rev s)).

Definition trim (s : jsstring) : jsstring := trimEnd (trimStart s).

(** [s.split("-")[0]]: the units before the first hyphen. *)
Fixpoint firstSegment (s : jsstring) : jsstring :=
  match s with
  | [] => []
  | c :: rest => if isHyphen c then [] else c :: firstSegment rest
  end.

(** A JavaScript number as far as this program computes with numbers:
    NaN, an integer that a double holds exactly ([Int z], for [z] up to
    2^53 in absolute value), or the double that stands for a larger integer
    ([Rounded z]: [z] rounded to a double, and past 20 significant decimal
    digits the approximation of [z] that the implementation chooses; its
    value is not [z] in general).  The zero with a negative sign is not
    told apart from 0. *)
Inductive number := NaN | Int (z : Z) | Rounded (z : Z).

(** The number for the mathematical integer [z]. *)
Definition toNumber (z : Z) : number :=
  if (Z.abs z <=? 2 ^ 53)%Z then Int z else Rounded z.

Definition digitValue (c : N) : Z := (Z.of_N c - 48)%Z.

Definition hexValue (c : N) : option Z :=
  if isDigit c then Some (Z.of_N c - 48)%Z
  else if (97 <=? c) && (c <=? 102) then Some (Z.of_N c - 87)%Z
  else if (65 <=? c) && (c <=? 70) then Some (Z.of_N c - 55)%Z
  else None.

(** The longest prefix of digits of the radix, read from the left with an
    accumulator; [None] when the prefix is empty. *)
Fixpoint readDigits (radix : Z) (value : N -> option Z) (acc : option Z)
  (s : jsstring) : option Z :=
  match s with
  | [] => acc
  | c :: rest =>
      match value c with
      | Some d =>
          readDigits radix value
            (Some (match acc with Some a => a * radix + d | None => d end)%Z) rest
      | None => acc
      end
  end.

Definition decValue (c : N) : option Z :=
  if isDigit c then Some (digitValue c) else None.

(** [parseInt(s)] without a radix: leading white space is skipped, a sign
    is read, a prefix 0x or 0X selects radix 16, then the longest prefix of
    digits is read; the result is NaN when there is no digit, and else the
    number for the integer read: the integer itself up to 2^53, a double
    near it beyond. *)
Definition parseInt (s : jsstring) : number :=
  let s1 := trimStart s in
  let sign :=
    match s1 with
    | c :: _ => if c =? 45 then (-1)%Z else 1%Z
    | [] => 1%Z
    end in
  let s2 :=
    match s1 with
    | c :: r => if (c =? 45) || (c =? 43) then r else s1
    | [] => s1
    end in
  let digits :=
    match s2 with
    | a :: b :: r =>
        if (a =? 48) && ((b =? 120) || (b =? 88))
        then readDigits 16 hexValue None r
        else readDigits 10 decValue None s2
    | _ => readDigits 10 decValue None s2
    end in
  match digits with
  | Some v => toNumber (sign * v)
  | None => NaN
  end.

(** Decimal digits of a natural number, for [String(n)]. *)
Fixpoint digitsOf (fuel : nat) (n : N) (acc : jsstring) : jsstring :=
  match fuel with
  | O => acc
  | S fuel' =>
      let acc' := (48 + n mod 10) :: acc in
      if n <? 10 then acc' else digitsOf fuel' (n / 10) acc'
  end.

(** [String(z)] for an integer (below 10^21 in absolute value, where
    JavaScript switches to the exponent form). *)
Definition numberToString (z : Z) : jsstring :=
  let n := Z.to_N (Z.abs z) in
  let ds := digitsOf (S (N.to_nat (N.log2 n))) n [] in
  if (z <? 0)%Z then 45 :: ds else ds.

End Js.

Import Js.


(* ===================================================================== *)
(** ** Composer slug, album year, work and movement identifiers *)
(* ===================================================================== *)

Module Ident.

Section WithUnicode.
Context {U : UnicodeLower}.

(** The class kept by [/[^a-z0-9\s-]/g]. *)
Definition keptBySlug (c : N) : bool :=
  isLower c || isDigit c || isSpace c || isHyphen c.

(** The composer identifier, as the composer endpoint and [addComposer]
    both derive it:
    [name.toLowerCase().replace(/[^a-z0-9\s-]/g, "").replace(/\s+/g, "-")
         .replace(/-+/g, "-").trim()]. *)
Definition composerSlug (name : jsstring) : jsstring :=
  trim
    (replaceRuns isHyphen [45] false
       (replaceRuns isSpace [45] false
          (removeOutside keptBySlug (toLowerCase name)))).

(** [`${composerId}/${catalogSystem.toLowerCase()}-${catalogNumber}`] *)
Definition workIdOf (composerId catalogSystem catalogNumber : jsstring)
  : jsstring :=
  composerId ++ [47] ++ toLowerCase catalogSystem ++ [45] ++ catalogNumber.

(** [`${workId}/${movementNumber}`] *)
Definition movementIdOf (workId : jsstring) (movementNumber : Z) : jsstring :=
  workId ++ [47] ++ numberToString movementNumber.

End WithUnicode.

(** The year handed to the store by [addAlbumToDatabase]:
    [release_date ? parseInt(release_date.split("-")[0]) : null].
    The empty string is the only falsy string; [None] is [null]. *)
Definition albumYear (release_date : jsstring) : option number :=
  match release_date with
  | [] => None
  | _ => Some (parseInt (firstSegment release_date))
  end.

End Ident.

Import Ident.

(* ===================================================================== *)
(** ** The catalogue store *)
(* ===================================================================== *)

Module Store.

Record Image := { url : jsstring; width : Z; height : Z }.

Record ComposerRow := {
  composer_id : jsstring;
  composer_name : jsstring;
  composer_spotifyArtistId : jsstring
}.

Record SpotifyArtistRow := {
  artist_spotifyId : jsstring;
  artist_name : jsstring;
  artist_popularity : option Z;
  artist_images : option (list Image)
}.

(** [album_year] is the value handed to the driver for the column: null, a
    number or NaN. *)
Record SpotifyAlbumRow := {
  album_spotifyId : jsstring;
  album_title : jsstring;
  album_year : option number;
  album_images : list Image;
  album_popularity : option Z
}.

Record SpotifyTrackRow := {
  track_spotifyId : jsstring;
  track_title : jsstring;
  track_trackNumber : Z;
  track_durationMs : Z;
  track_popularity : Z;
  track_spotifyAlbumId : jsstring
}.

Record WorkRow := {
  work_id : jsstring;
  work_composerId : jsstring;
  work_title : jsstring;
  work_nickname : option jsstring;
  work_catalogSystem : jsstring;
  work_catalogNumber : jsstring;
  work_yearComposed : option Z;
  work_form : option jsstring
}.

Record MovementRow := {
  movement_id : jsstring;
  movement_workId : jsstring;
  movement_number : Z;
  movement_title : option jsstring
}.

Record TrackMovementRow := {
  tm_spotifyTrackId : jsstring;
  tm_movementId : jsstring;
  tm_startMs : option Z;
  tm_endMs : option Z
}.

(** Modelled from the spec: the schema module ([@/lib/db/schema]) is not
    among the sources.  Every table is keyed by its identifier (the spec's
    data model: a composer by its slug, provider rows by the provider's
    identifier, a work and a movement by the derived identifier, a link by
    the track and the movement it joins). *)
Record t := {
  composer : gmap jsstring ComposerRow;
  spotifyArtist : gmap jsstring SpotifyArtistRow;
  spotifyAlbum : gmap jsstring SpotifyAlbumRow;
  spotifyTrack : gmap jsstring SpotifyTrackRow;
  trackArtists : gset (jsstring * jsstring);
  work : gmap jsstring WorkRow;
  movement : gmap jsstring MovementRow;
  trackMovement : gmap (jsstring * jsstring) TrackMovementRow
}.

Definition empty : t :=
  {| composer := ∅; spotifyArtist := ∅; spotifyAlbum := ∅; spotifyTrack := ∅;
     trackArtists := ∅; work := ∅; movement := ∅; trackMovement := ∅ |}.

Definition withComposer (s : t) (m : gmap jsstring ComposerRow) : t :=
  {| composer := m; spotifyArtist := spotifyArtist s;
     spotifyAlbum := spotifyAlbum s; spotifyTrack := spotifyTrack s;
     trackArtists := trackArtists s; work := work s; movement := movement s;
     trackMovement := trackMovement s |}.

Definition withSpotifyArtist (s : t) (m : gmap jsstring SpotifyArtistRow) : t :=
  {| composer := composer s; spotifyArtist := m;
     spotifyAlbum := spotifyAlbum s; spotifyTrack := spotifyTrack s;
     trackArtists := trackArtists s; work := work s; movement := movement s;
     trackMovement := trackMovement s |}.

Definition withSpotifyAlbum (s : t) (m : gmap jsstring SpotifyAlbumRow) : t :=
  {| composer := composer s; spotifyArtist := spotifyArtist s;
     spotifyAlbum := m; spotifyTrack := spotifyTrack s;
     trackArtists := trackArtists s; work := work s; movement := movement s;
     trackMovement := trackMovement s |}.

Definition withSpotifyTrack (s : t) (m : gmap jsstring SpotifyTrackRow) : t :=
  {| composer := composer s; spotifyArtist := spotifyArtist s;
     spotifyAlbum := spotifyAlbum s; spotifyTrack := m;
     trackArtists := trackArtists s; work := work s; movement := movement s;
     trackMovement := trackMovement s |}.

Definition withTrackArtists (s : t) (m : gset (jsstring * jsstring)) : t :=
  {| composer := composer s; spotifyArtist := spotifyArtist s;
     spotifyAlbum := spotifyAlbum s; spotifyTrack := spotifyTrack s;
     trackArtists := m; work := work s; movement := movement s;
     trackMovement := trackMovement s |}.

Definition withWork (s : t) (m : gmap jsstring WorkRow) : t :=
  {| composer := composer s; spotifyArtist := spotifyArtist s;
     spotifyAlbum := spotifyAlbum s; spotifyTrack := spotifyTrack s;
     trackArtists := trackArtists s; work := m; movement := movement s;
     trackMovement := trackMovement s |}.

Definition withMovement (s : t) (m : gmap jsstring MovementRow) : t :=
  {| composer := composer s; spotifyArtist := spotifyArtist s;
     spotifyAlbum := spotifyAlbum s; spotifyTrack := spotifyTrack s;
     trackArtists := trackArtists s; work := work s; movement := m;
     trackMovement := trackMovement s |}.

Definition withTrackMovement (s : t)
  (m : gmap (jsstring * jsstring) TrackMovementRow) : t :=
  {| composer := composer s; spotifyArtist := spotifyArtist s;
     spotifyAlbum := spotifyAlbum s; spotifyTrack := spotifyTrack s;
     trackArtists := trackArtists s; work := work s; movement := movement s;
     trackMovement := m |}.

(** The constraints of the schema other than the primary keys (foreign
    keys, unique indexes) are a parameter, the schema module not being among
    the sources: a statement that would leave the store outside [admissible]
    is refused and changes nothing. *)
Class Schema := { admissible : t -> bool }.

Inductive Table :=
| TComposer | TSpotifyArtist | TSpotifyAlbum | TSpotifyTrack
| TTrackArtists | TWork | TMovement | TTrackMovement.

End Store.

(* ===================================================================== *)
(** ** Sessions, the provider, and the monad of a request *)
(* ===================================================================== *)

Module Sys.

Record User := { user_id : jsstring; user_name : jsstring }.
Record Session := { user : User }.

(** What the program reads of a provider track object. *)
Record ArtistJson := {
  aj_id : jsstring; aj_name : jsstring; aj_uri : jsstring
}.

Record AlbumJson := {
  bj_id : jsstring; bj_name : jsstring; bj_uri : jsstring;
  bj_release_date : jsstring; bj_popularity : option Z;
  bj_images : list Store.Image
}.

Record TrackJson := {
  tj_id : jsstring; tj_name : jsstring; tj_uri : jsstring;
  tj_duration_ms : Z; tj_track_number : Z; tj_popularity : Z;
  tj_artists : list ArtistJson; tj_album : AlbumJson
}.

(** A JSON value of the provider, through the access paths the program
    uses: [error?.message] (when it is a non-empty string), [popularity],
    [images], and the track fields (when [artists] is an array and [album]
    an object; otherwise reading them raises a TypeError). *)
Record Json := {
  error_message : option jsstring;
  popularity : option Z;
  images : option (list Store.Image);
  track : option TrackJson
}.

(** The body of a response: not JSON at all ([response.json()] rejects),
    the JSON value null (reading a property of it raises), or a value. *)
Inductive Body := NotJson | JsonNull | JsonValue (j : Json).

Record Response := { status : Z; body : Body }.

(** [fetch] rejects on a network failure, else resolves to a response. *)
Inductive FetchResult := NetworkError | Fetched (r : Response).

(** The ambient context of one request: the session that
    [auth.api.getSession] finds, the token broker and the provider. *)
Record Env := {
  session : option Session;
  accessToken : jsstring -> option jsstring;
  provider : jsstring -> jsstring -> FetchResult
}.

(** Interactions with the outside, most recent first. *)
Inductive Effect :=
| TokenRequest (userId : jsstring)
| ProviderFetch (url token : jsstring)
| StoreWrite (table : Store.Table).

Record World := { store : Store.t; trace : list Effect }.

Inductive Result (A : Type) :=
| Ok (a : A)
| Throw (message : jsstring).
Arguments Ok {A} a.
Arguments Throw {A} message.

(** An asynchronous function: it reads the context, changes the world and
    resolves to a value or rejects with an error. *)
Definition M (A : Type) : Type := Env -> World -> Result A * World.

Definition ret {A} (a : A) : M A := fun _ w => (Ok a, w).

Definition bind {A B} (m : M A) (k : A -> M B) : M B :=
  fun env w =>
    match m env w with
    | (Ok a, w') => k a env w'
    | (Throw e, w') => (Throw e, w')
    end.

Definition throw {A} (message : jsstring) : M A :=
  fun _ w => (Throw message, w).

(** [try { m } catch (error) { handler }] *)
Definition tryCatch {A} (m : M A) (handler : jsstring -> M A) : M A :=
  fun env w =>
    match m env w with
    | (Ok a, w') => (Ok a, w')
    | (Throw e, w') => handler e env w'
    end.

Definition ask : M Env := fun env w => (Ok env, w).
Definition getStore : M Store.t := fun _ w => (Ok (store w), w).

Definition emit (e : Effect) : M unit :=
  fun _ w => (Ok tt, {| store := store w; trace := e :: trace w |}).

End Sys.

Import Sys.

Declare Scope js_scope.
Delimit Scope js_scope with js.
Notation "x <- c1 ;; c2" := (bind c1 (fun x => c2))
  (at level 100, c1 at next level, right associativity) : js_scope.
Notation "c1 ;; c2" := (bind c1 (fun _ => c2))
  (at level 100, right associativity) : js_scope.
Open Scope js_scope.

(* ===================================================================== *)
(** ** Primitive operations: the store, the token broker, the provider *)
(* ===================================================================== *)

Module Prim.

Section WithSchema.
Context {Sch : Store.Schema}.

(** A statement on table [tb] whose effect would be the store [s']: it is
    carried out when the schema admits [s'], else it is rejected. *)
Definition commit (tb : Store.Table) (s' : Store.t) : M unit :=
  fun _ w =>
    if Store.admissible s'
    then (Ok tt, {| store := s'; trace := StoreWrite tb :: trace w |})
    else (Throw (lit "constraint violation"),
          {| store := store w; trace := StoreWrite tb :: trace w |}).

(** A statement rejected for a duplicate primary key. *)
Definition duplicateKey (tb : Store.Table) : M unit :=
  emit (StoreWrite tb) ;; throw (lit "duplicate key").

(** [db.insert(composer).values(row)]: a plain insert. *)
Definition insertComposer (row : Store.ComposerRow) : M unit :=
  s <- getStore ;;
  match Store.composer s !! Store.composer_id row with
  | Some _ => duplicateKey Store.TComposer
  | None =>
      commit Store.TComposer
        (Store.withComposer s (<[Store.composer_id row := row]> (Store.composer s)))
  end.

(** [insert ... onConflictDoUpdate] where the update sets every column but
    the key: the row is written or replaced. *)
Definition upsertSpotifyAlbum (row : Store.SpotifyAlbumRow) : M unit :=
  s <- getStore ;;
  commit Store.TSpotifyAlbum
    (Store.withSpotifyAlbum s
       (<[Store.album_spotifyId row := row]> (Store.spotifyAlbum s))).

Definition upsertSpotifyArtist (row : Store.SpotifyArtistRow) : M unit :=
  s <- getStore ;;
  commit Store.TSpotifyArtist
    (Store.withSpotifyArtist s
       (<[Store.artist_spotifyId row := row]> (Store.spotifyArtist s))).

Definition upsertSpotifyTrack (row : Store.SpotifyTrackRow) : M unit :=
  s <- getStore ;;
  commit Store.TSpotifyTrack
    (Store.withSpotifyTrack s
       (<[Store.track_spotifyId row := row]> (Store.spotifyTrack s))).

(** The update of a work, whose [id] raised the conflict, sets every column
    but [id] and [composerId]. *)
Definition upsertWork (row : Store.WorkRow) : M unit :=
  s <- getStore ;;
  let row' :=
    match Store.work s !! Store.work_id row with
    | Some old =>
        {| Store.work_id := Store.work_id row;
           Store.work_composerId := Store.work_composerId old;
           Store.work_title := Store.work_title row;
           Store.work_nickname := Store.work_nickname row;
           Store.work_catalogSystem := Store.work_catalogSystem row;
           Store.work_catalogNumber := Store.work_catalogNumber row;
           Store.work_yearComposed := Store.work_yearComposed row;
           Store.work_form := Store.work_form row |}
    | None => row
    end in
  commit Store.TWork
    (Store.withWork s (<[Store.work_id row := row']> (Store.work s))).

(** The update of a movement, whose [id] raised the conflict, sets [number]
    and [title]. *)
Definition upsertMovement (row : Store.MovementRow) : M unit :=
  s <- getStore ;;
  let row' :=
    match Store.movement s !! Store.movement_id row with
    | Some old =>
        {| Store.movement_id := Store.movement_id row;
           Store.movement_workId := Store.movement_workId old;
           Store.movement_number := Store.movement_number row;
           Store.movement_title := Store.movement_title row |}
    | None => row
    end in
  commit Store.TMovement
    (Store.withMovement s (<[Store.movement_id row := row']> (Store.movement s))).

(** [insert ... onConflictDoNothing]. *)
Definition insertTrackArtist (trackId artistId : jsstring) : M unit :=
  s <- getStore ;;
  if bool_decide ((trackId, artistId) ∈ Store.trackArtists s)
  then emit (StoreWrite Store.TTrackArtists)
  else commit Store.TTrackArtists
         (Store.withTrackArtists s ({[ (trackId, artistId) ]} ∪ Store.trackArtists s)).

Definition insertTrackMovement (row : Store.TrackMovementRow) : M unit :=
  s <- getStore ;;
  let k := (Store.tm_spotifyTrackId row, Store.tm_movementId row) in
  match Store.trackMovement s !! k with
  | Some _ => emit (StoreWrite Store.TTrackMovement)
  | None =>
      commit Store.TTrackMovement
        (Store.withTrackMovement s (<[k := row]> (Store.trackMovement s)))
  end.

End WithSchema.

(** [db.select().from(table).where(cond)]: the rows that satisfy [cond]. *)
Definition selectWhere {K V} `{Countable K} (m : gmap K V) (cond : V -> bool)
  : list V :=
  List.filter cond (snd <$> map_to_list m).

(** [auth.api.getSession] *)
Definition getSession : M (option Session) :=
  env <- ask ;; ret (session env).

(** [auth.api.getAccessToken]: [tokenResponse?.accessToken], when truthy. *)
Definition getAccessToken (userId : jsstring) : M (option jsstring) :=
  emit (TokenRequest userId) ;;
  env <- ask ;;
  ret (match accessToken env userId with
       | Some (c :: r) => Some (c :: r)
       | _ => None
       end).

(** [fetch(url, { headers: { Authorization: `Bearer ${token}` } })] *)
Definition fetch (url token : jsstring) : M Response :=
  emit (ProviderFetch url token) ;;
  env <- ask ;;
  match provider env url token with
  | NetworkError => throw (lit "fetch failed")
  | Fetched r => ret r
  end.

(** [response.json()]; [None] is the JSON value null. *)
Definition json (r : Response) : M (option Json) :=
  match body r with
  | NotJson => throw (lit "SyntaxError")
  | JsonNull => ret None
  | JsonValue j => ret (Some j)
  end.

(** Reading a property; of null it raises a TypeError. *)
Definition prop {A} (j : option Json) (f : Json -> A) : M A :=
  match j with
  | None => throw (lit "TypeError")
  | Some j => ret (f j)
  end.

(** [n || null] for a number. *)
Definition orNull (n : option Z) : option Z :=
  match n with
  | Some 0%Z => None
  | _ => n
  end.

Fixpoint forEach {A} (f : A -> M unit) (l : list A) : M unit :=
  match l with
  | [] => ret tt
  | x :: rest => f x ;; forEach f rest
  end.

End Prim.

(* ===================================================================== *)
(** ** The server actions *)
(* ===================================================================== *)

Module Actions.
Import Prim.

Definition operator : jsstring := lit "benwaffle".

Definition checkAuth : M Session :=
  session <- getSession ;;
  match session with
  | None => throw (lit "Unauthorized")
  | Some session =>
      if negb (bool_decide (user_name (user session) = operator))
      then throw (lit "Access denied")
      else ret session
  end.

Definition getSpotifyAccessToken (userId : jsstring) : M jsstring :=
  tokenResponse <- getAccessToken userId ;;
  match tokenResponse with
  | None => throw (lit "No Spotify access token")
  | Some accessToken => ret accessToken
  end.

Record ActionResult := { success : bool; message : jsstring }.

Record AlbumData := {
  album_id : jsstring;
  album_name : jsstring;
  release_date : jsstring;
  album_popularity : Z;
  album_images : list Store.Image
}.

Record ArtistRef := { artist_id : jsstring; artist_name : jsstring }.

Record TrackData := {
  track_id : jsstring;
  track_name : jsstring;
  track_uri : jsstring;
  duration_ms : Z;
  track_number : Z;
  track_popularity : Z;
  albumId : jsstring;
  artists : list ArtistRef
}.

Record ComposerResult := {
  composer_success : bool;
  composer : Store.ComposerRow
}.

Record WorkCheck := {
  workExists : bool;
  movementExists : bool;
  foundWork : option Store.WorkRow;
  foundMovement : option Store.MovementRow
}.

Record WorkData := {
  composerId : jsstring;
  formalName : jsstring;
  nickname : option jsstring;
  catalogSystem : jsstring;
  catalogNumber : jsstring;
  key : option jsstring;
  form : option jsstring;
  movementNumber : Z;
  movementName : option jsstring;
  yearComposed : option Z;
  spotifyTrackId : jsstring
}.

Record LinkResult := {
  link_success : bool;
  link_message : jsstring;
  workId : jsstring;
  movementId : jsstring
}.

Section WithContext.
Context {U : UnicodeLower} {Sch : Store.Schema}.

Definition addAlbumToDatabase (albumData : AlbumData) : M ActionResult :=
  session <- checkAuth ;;
  tryCatch
    (accessToken <- getSpotifyAccessToken (user_id (user session)) ;;
     let year := albumYear (release_date albumData) in
     albumResponse <-
       fetch (lit "https://api.spotify.com/v1/albums/" ++ album_id albumData)
         accessToken ;;
     fullAlbumData <- json albumResponse ;;
     popularity <- prop fullAlbumData popularity ;;
     upsertSpotifyAlbum
       {| Store.album_spotifyId := album_id albumData;
          Store.album_title := album_name albumData;
          Store.album_year := year;
          Store.album_images := album_images albumData;
          Store.album_popularity := orNull popularity |} ;;
     ret {| success := true;
            message := lit "Added album " ++ [34] ++ album_name albumData
                         ++ [34] ++ lit " to database" |})
    (fun _ => throw (lit "Failed to add album to database")).

Definition addArtistsToDatabase (artists : list ArtistRef) : M ActionResult :=
  session <- checkAuth ;;
  tryCatch
    (accessToken <- getSpotifyAccessToken (user_id (user session)) ;;
     forEach
       (fun artist =>
          artistResponse <-
            fetch (lit "https://api.spotify.com/v1/artists/" ++ artist_id artist)
              accessToken ;;
          artistData <- json artistResponse ;;
          popularity <- prop artistData popularity ;;
          images <- prop artistData images ;;
          upsertSpotifyArtist
            {| Store.artist_spotifyId := artist_id artist;
               Store.artist_name := artist_name artist;
               Store.artist_popularity := orNull popularity;
               Store.artist_images := images |})
       artists ;;
     ret {| success := true;
            message := lit "Added "
                         ++ numberToString (Z.of_nat (length artists))
                         ++ lit " artist(s) to database" |})
    (fun _ => throw (lit "Failed to add artists to database")).

Definition addTrackToDatabase (trackData : TrackData) : M ActionResult :=
  checkAuth ;;
  tryCatch
    (upsertSpotifyTrack
       {| Store.track_spotifyId := track_id trackData;
          Store.track_title := track_name trackData;
          Store.track_trackNumber := track_number trackData;
          Store.track_durationMs := duration_ms trackData;
          Store.track_popularity := track_popularity trackData;
          Store.track_spotifyAlbumId := albumId trackData |} ;;
     forEach
       (fun artist => insertTrackArtist (track_id trackData) (artist_id artist))
       (artists trackData) ;;
     ret {| success := true;
            message := lit "Added track " ++ [34] ++ track_name trackData
                         ++ [34] ++ lit " to database" |})
    (fun _ => throw (lit "Failed to add track to database")).

Definition addComposer (spotifyArtistId name : jsstring) : M ComposerResult :=
  session <- getSession ;;
  match session with
  | None => throw (lit "Unauthorized")
  | Some session =>
      if negb (bool_decide (user_name (user session) = operator))
      then throw (lit "Access denied")
      else
        tryCatch
          (let id := composerSlug name in
           let row := {| Store.composer_id := id;
                         Store.composer_name := name;
                         Store.composer_spotifyArtistId := spotifyArtistId |} in
           insertComposer row ;;
           ret {| composer_success := true; composer := row |})
          (fun _ => throw (lit "Failed to add composer"))
  end.

Definition checkWorkAndMovement (composerId catalogSystem catalogNumber : jsstring)
  (movementNumber : Z) : M WorkCheck :=
  checkAuth ;;
  tryCatch
    (s <- getStore ;;
     let works :=
       selectWhere (Store.work s)
         (fun w =>
            bool_decide (Store.work_composerId w = composerId)
            && bool_decide (Store.work_catalogSystem w = catalogSystem)
            && bool_decide (Store.work_catalogNumber w = catalogNumber)) in
     match works with
     | [] =>
         ret {| workExists := false; movementExists := false;
                foundWork := None; foundMovement := None |}
     | existingWork :: _ =>
         let movements :=
           selectWhere (Store.movement s)
             (fun m =>
                bool_decide (Store.movement_workId m = Store.work_id existingWork)
                && bool_decide (Store.movement_number m = movementNumber)) in
         let existingMovement := head movements in
         ret {| workExists := true;
                movementExists := bool_decide (is_Some existingMovement);
                foundWork := Some existingWork;
                foundMovement := existingMovement |}
     end)
    (fun _ => throw (lit "Failed to check work and movement")).

Definition addWorkMovementAndTrack (data : WorkData) : M LinkResult :=
  checkAuth ;;
  tryCatch
    (let workId :=
       workIdOf (composerId data) (catalogSystem data) (catalogNumber data) in
     upsertWork
       {| Store.work_id := workId;
          Store.work_composerId := composerId data;
          Store.work_title := formalName data;
          Store.work_nickname := nickname data;
          Store.work_catalogSystem := catalogSystem data;
          Store.work_catalogNumber := catalogNumber data;
          Store.work_yearComposed := yearComposed data;
          Store.work_form := form data |} ;;
     let movementId := movementIdOf workId (movementNumber data) in
     upsertMovement
       {| Store.movement_id := movementId;
          Store.movement_workId := workId;
          Store.movement_number := movementNumber data;
          Store.movement_title := movementName data |} ;;
     insertTrackMovement
       {| Store.tm_spotifyTrackId := spotifyTrackId data;
          Store.tm_movementId := movementId;
          Store.tm_startMs := None;
          Store.tm_endMs := None |} ;;
     ret {| link_success := true;
            link_message :=
              lit "Added work " ++ [34] ++ formalName data ++ [34]
                ++ lit ", movement " ++ numberToString (movementNumber data)
                ++ lit ", and linked to track";
            workId := workId;
            movementId := movementId |})
    (fun _ => throw (lit "Failed to add work, movement, and track")).

End WithContext.

End Actions.

(* ===================================================================== *)
(** ** The HTTP endpoints *)
(* ===================================================================== *)

Module Http.

(** A field of a request body: absent or falsy, a truthy value that is not
    a string, or a string. *)
Inductive JsonField := Absent | NotAString | Str (s : jsstring).

(** [Response.json(body, { status })] *)
Inductive ReplyBody (A : Type) :=
| Error (error : jsstring)
| Success (a : A).
Arguments Error {A} error.
Arguments Success {A} a.

Record Reply (A : Type) := { code : Z; payload : ReplyBody A }.
Arguments code {A} r.
Arguments payload {A} r.

Definition fail {A} (status : Z) (error : string) : M (Reply A) :=
  ret {| code := status; payload := Error (lit error) |}.

(** The statuses that a reply with a body can carry: [Response.json] raises
    a RangeError for a status outside 200..599 and a TypeError for a
    null-body status (204, 205, 304). *)
Definition replyStatus (status : Z) : bool :=
  (200 <=? status)%Z && (status <=? 599)%Z
  && negb ((status =? 204)%Z || (status =? 205)%Z || (status =? 304)%Z).

(** [Response.json({ error }, { status })] for a status that is not a
    constant of the program. *)
Definition respond {A} (status : Z) (error : jsstring) : M (Reply A) :=
  if replyStatus status
  then ret {| code := status; payload := Error error |}
  else throw (lit "RangeError").

(** [await request.json()] followed by the destructuring of the fields.
    [None] is a body from which no fields can be read: one that is not
    JSON, on which [request.json()] rejects, or the JSON value null, which
    cannot be destructured; the two failures are not told apart.  Every
    other JSON value is destructured, with the fields it lacks absent. *)
Definition requestJson {A} (request : option A) : M A :=
  match request with
  | None => throw (lit "SyntaxError")
  | Some fields => ret fields
  end.

End Http.

(** *** POST of the composer endpoint *)

Module ComposerRoute.
Import Prim Actions Http.

(** [{ spotifyArtistId, name }]; the artist identifier is a string when it
    is present. *)
Record Request := {
  req_spotifyArtistId : option jsstring;
  req_name : JsonField
}.

Section WithContext.
Context {U : UnicodeLower} {Sch : Store.Schema}.

Definition POST (request : option Request) : M (Reply Store.ComposerRow) :=
  session <- getSession ;;
  match session with
  | None => fail 401 "Unauthorized"
  | Some session =>
      if negb (bool_decide (user_name (user session) = operator))
      then fail 403 "Access denied"
      else
        fields <- requestJson request ;;
        match req_spotifyArtistId fields, req_name fields with
        | Some (c :: r), (NotAString | Str (_ :: _)) as name =>
            let spotifyArtistId := c :: r in
            tryCatch
              (name <-
                 match name with
                 | Str name => ret name
                 | _ => throw (lit "TypeError") (* no [toLowerCase] *)
                 end ;;
               let id := composerSlug name in
               let row := {| Store.composer_id := id;
                             Store.composer_name := name;
                             Store.composer_spotifyArtistId := spotifyArtistId |} in
               insertComposer row ;;
               ret {| code := 200; payload := Success row |})
              (fun _ => fail 500 "Failed to add composer")
        | _, _ => fail 400 "Missing required fields"
        end
  end.

End WithContext.

End ComposerRoute.

(** *** POST of the track-metadata endpoint *)

Module TrackRoute.
Import Prim Actions Http.

(** The remainder of [s] after the prefix [p], when [s] starts with [p]. *)
Fixpoint stripPrefix (p s : jsstring) : option jsstring :=
  match p, s with
  | [], _ => Some s
  | _ :: _, [] => None
  | a :: p', b :: s' => if a =? b then stripPrefix p' s' else None
  end.

(** The longest prefix matched by [[a-zA-Z0-9]*]. *)
Fixpoint takeAlnum (s : jsstring) : jsstring :=
  match s with
  | [] => []
  | c :: rest => if isAlnum c then c :: takeAlnum rest else []
  end.

(** The pattern [prefix([a-zA-Z0-9]+)] tried at the start of [s]. *)
Definition captureHere (prefix s : jsstring) : option jsstring :=
  match stripPrefix prefix s with
  | Some rest =>
      match takeAlnum rest with
      | [] => None
      | id => Some id
      end
  | None => None
  end.

(** [s.match(/prefix([a-zA-Z0-9]+)/)]: the first group of the leftmost
    match, [None] when there is none. *)
Fixpoint searchCapture (prefix s : jsstring) : option jsstring :=
  match captureHere prefix s with
  | Some id => Some id
  | None =>
      match s with
      | [] => None
      | _ :: rest => searchCapture prefix rest
      end
  end.

Definition uriPattern : jsstring := lit "spotify:track:".
Definition urlPattern : jsstring := lit "open.spotify.com/track/".

(** The track identifier of a reference: the URI pattern is tried first,
    then the URL pattern. *)
Definition extractTrackId (trackUri : jsstring) : option jsstring :=
  match searchCapture uriPattern trackUri with
  | Some id => Some id
  | None => searchCapture urlPattern trackUri
  end.

Record ArtistView := {
  av_id : jsstring; av_name : jsstring; av_uri : jsstring;
  inSpotifyArtistsTable : bool;
  inComposersTable : bool;
  av_composerId : option jsstring
}.

Record AlbumView := {
  bv_id : jsstring; bv_name : jsstring; bv_uri : jsstring;
  bv_release_date : jsstring; bv_popularity : option Z;
  bv_images : list Store.Image;
  inSpotifyAlbumsTable : bool
}.

Record DbData := {
  db_track : option Store.SpotifyTrackRow;
  db_album : option Store.SpotifyAlbumRow;
  db_artists : list Store.SpotifyArtistRow;
  db_composers : list Store.ComposerRow;
  db_trackMovements : list Store.TrackMovementRow;
  db_movements : list Store.MovementRow;
  db_works : list Store.WorkRow
}.

Record TrackMetadata := {
  tm_id : jsstring; tm_name : jsstring; tm_uri : jsstring;
  tm_duration_ms : Z; tm_track_number : Z; tm_popularity : Z;
  inSpotifyTracksTable : bool;
  tm_artists : list ArtistView;
  tm_album : AlbumView;
  dbData : DbData
}.

(** [inArray(column, values)] *)
Definition inArray (x : jsstring) (values : list jsstring) : bool :=
  bool_decide (x ∈ values).

(** [new Map(rows.map(r => [key(r), r])).get(k)]: the last row with the
    key. *)
Definition mapGet {V} (key : V -> jsstring) (rows : list V) (k : jsstring)
  : option V :=
  head (List.filter (fun r => bool_decide (key r = k)) (rev rows)).

(** [response.ok] *)
Definition ok (r : Response) : bool :=
  (200 <=? status r)%Z && (status r <=? 299)%Z.

(** The chain TrackMovement, Movement, Work, Composer of a stored track. *)
Definition linkedData (s : Store.t) (trackId : jsstring)
  (existingTrack : list Store.SpotifyTrackRow)
  : list Store.TrackMovementRow * list Store.MovementRow
    * list Store.WorkRow * list Store.ComposerRow :=
  match existingTrack with
  | [] => ([], [], [], [])
  | _ :: _ =>
      let trackMovementRecords :=
        selectWhere (Store.trackMovement s)
          (fun tm => bool_decide (Store.tm_spotifyTrackId tm = trackId)) in
      match trackMovementRecords with
      | [] => ([], [], [], [])
      | _ :: _ =>
          let movementIds := List.map Store.tm_movementId trackMovementRecords in
          let movementsData :=
            selectWhere (Store.movement s)
              (fun m => inArray (Store.movement_id m) movementIds) in
          let workIds := List.map Store.movement_workId movementsData in
          match workIds with
          | [] => (trackMovementRecords, movementsData, [], [])
          | _ :: _ =>
              let worksData :=
                selectWhere (Store.work s)
                  (fun w => inArray (Store.work_id w) workIds) in
              let composerIds := List.map Store.work_composerId worksData in
              match composerIds with
              | [] => (trackMovementRecords, movementsData, worksData, [])
              | _ :: _ =>
                  (trackMovementRecords, movementsData, worksData,
                   selectWhere (Store.composer s)
                     (fun c => inArray (Store.composer_id c) composerIds))
              end
          end
      end
  end.

(** The annotated track assembled from the provider's track and the
    store. *)
Definition annotate (s : Store.t) (trackData : TrackJson) : TrackMetadata :=
  let artistIds := List.map aj_id (tj_artists trackData) in
  let existingSpotifyArtists :=
    selectWhere (Store.spotifyArtist s)
      (fun a => inArray (Store.artist_spotifyId a) artistIds) in
  let existingComposers :=
    selectWhere (Store.composer s)
      (fun c => inArray (Store.composer_spotifyArtistId c) artistIds) in
  let existingAlbum :=
    selectWhere (Store.spotifyAlbum s)
      (fun a => bool_decide (Store.album_spotifyId a = bj_id (tj_album trackData))) in
  let existingTrack :=
    selectWhere (Store.spotifyTrack s)
      (fun t => bool_decide (Store.track_spotifyId t = tj_id trackData)) in
  let '(trackMovements, movementsData, worksData, composersData) :=
    linkedData s (tj_id trackData) existingTrack in
  let album := tj_album trackData in
  {| tm_id := tj_id trackData;
     tm_name := tj_name trackData;
     tm_uri := tj_uri trackData;
     tm_duration_ms := tj_duration_ms trackData;
     tm_track_number := tj_track_number trackData;
     tm_popularity := tj_popularity trackData;
     inSpotifyTracksTable := negb (bool_decide (existingTrack = []));
     tm_artists :=
       List.map
         (fun artist =>
            {| av_id := aj_id artist;
               av_name := aj_name artist;
               av_uri := aj_uri artist;
               inSpotifyArtistsTable :=
                 bool_decide
                   (is_Some (mapGet Store.artist_spotifyId existingSpotifyArtists
                               (aj_id artist)));
               inComposersTable :=
                 bool_decide
                   (is_Some (mapGet Store.composer_spotifyArtistId
                               existingComposers (aj_id artist)));
               av_composerId :=
                 Store.composer_id <$>
                   mapGet Store.composer_spotifyArtistId existingComposers
                     (aj_id artist) |})
         (tj_artists trackData);
     tm_album :=
       {| bv_id := bj_id album; bv_name := bj_name album; bv_uri := bj_uri album;
          bv_release_date := bj_release_date album;
          bv_popularity := bj_popularity album;
          bv_images := bj_images album;
          inSpotifyAlbumsTable := negb (bool_decide (existingAlbum = [])) |};
     dbData :=
       {| db_track := head existingTrack;
          db_album := head existingAlbum;
          db_artists := existingSpotifyArtists;
          db_composers := composersData;
          db_trackMovements := trackMovements;
          db_movements := movementsData;
          db_works := worksData |} |}.

(** [errorData.error?.message || "Failed to fetch track from Spotify"] *)
Definition errorMessage (m : option jsstring) : jsstring :=
  match m with
  | Some (c :: r) => c :: r
  | _ => lit "Failed to fetch track from Spotify"
  end.

Definition trackUrl (trackId : jsstring) : jsstring :=
  lit "https://api.spotify.com/v1/tracks/" ++ trackId.

(** The request body is [{ trackUri }]. *)
Definition POST (request : option JsonField) : M (Reply TrackMetadata) :=
  session <- getSession ;;
  match session with
  | None => fail 401 "Unauthorized"
  | Some session =>
      if negb (bool_decide (user_name (user session) = operator))
      then fail 403 "Access denied"
      else
        trackUri <- requestJson request ;;
        match trackUri with
        | Str (c :: r) =>
            match extractTrackId (c :: r) with
            | Some (i :: d) =>
                let trackId := i :: d in
                tokenResponse <- getAccessToken (user_id (user session)) ;;
                match tokenResponse with
                | None => fail 401 "No Spotify access token"
                | Some accessToken =>
                    tryCatch
                      (response <- fetch (trackUrl trackId) accessToken ;;
                       if negb (ok response)
                       then
                         errorData <- json response ;;
                         message <- prop errorData error_message ;;
                         respond (status response) (errorMessage message)
                       else
                         trackData <- json response ;;
                         fields <- prop trackData track ;;
                         match fields with
                         | None => throw (lit "TypeError")
                         | Some trackData =>
                             s <- getStore ;;
                             ret {| code := 200;
                                    payload := Success (annotate s trackData) |}
                         end)
                      (fun _ => fail 500 "Failed to fetch track metadata")
                end
            | _ => fail 400 "Invalid Spotify track URI or URL format"
            end
        | _ => fail 400 "Invalid track URI"
        end
  end.

End TrackRoute.

(* ===================================================================== *)
(** ** AlbumTracksTable: movement-number inference *)
(* ===================================================================== *)

Module AlbumTracksTable.

(** The parser's output for a track ([ClassicalMetadata]). *)
Record ClassicalMetadata := {
  composerName : option jsstring;
  catalogSystem : option jsstring;
  catalogNumber : option jsstring;
  nickname : option jsstring;
  formalName : jsstring;
  movement : option Z;
  movementName : option jsstring;
  key : option jsstring;
  form : option jsstring;
  yearComposed : option Z
}.

Record DbComposer := { dc_id : jsstring; dc_name : jsstring }.

Record DbWork := {
  dw_id : jsstring;
  dw_composerId : jsstring;
  dw_title : jsstring;
  dw_nickname : option jsstring;
  dw_catalogSystem : option jsstring;
  dw_catalogNumber : option jsstring
}.

Record DbMovement := { dm_number : Z; dm_title : option jsstring }.

Record DbData := {
  works : list DbWork;
  movements : list DbMovement;
  composers : list DbComposer
}.

Record Album := { album_id : jsstring }.

Record TrackData := {
  id : jsstring;
  name : jsstring;
  track_number : Z;
  album : Album;
  dbData : option DbData;
  parsed : option ClassicalMetadata
}.

Record WorkInfo := {
  wi_catalogSystem : option jsstring;
  wi_catalogNumber : option jsstring;
  wi_nickname : option jsstring;
  wi_title : jsstring
}.

Record MovementInfo := { mi_number : option Z; mi_title : option jsstring }.

(** Truthiness of a nullable string and of a nullable number. *)
Definition truthyString (s : option jsstring) : bool :=
  match s with
  | Some (_ :: _) => true
  | _ => false
  end.

Definition truthyNumber (n : option Z) : bool :=
  match n with
  | Some z => negb (z =? 0)%Z
  | None => false
  end.

(** [a === b] on nullable strings. *)
Definition strictEq (a b : option jsstring) : bool := bool_decide (a = b).

(** [a || b || null] on nullable strings. *)
Definition orElse (a b : option jsstring) : option jsstring :=
  if truthyString a then a else if truthyString b then b else None.

(** [track.parsed?.composerName || track.dbData?.composers[0]?.name || null] *)
Definition getComposerName (track : TrackData) : option jsstring :=
  orElse
    (match parsed track with
     | Some p => composerName p
     | None => None
     end)
    (match dbData track with
     | Some d =>
         match composers d with
         | c :: _ => Some (dc_name c)
         | [] => None
         end
     | None => None
     end).

Definition getWorkInfo (track : TrackData) : option WorkInfo :=
  match parsed track with
  | Some p =>
      Some {| wi_catalogSystem := catalogSystem p;
              wi_catalogNumber := catalogNumber p;
              wi_nickname := nickname p;
              wi_title := formalName p |}
  | None =>
      match dbData track with
      | Some d =>
          match works d with
          | w :: _ =>
              Some {| wi_catalogSystem := dw_catalogSystem w;
                      wi_catalogNumber := dw_catalogNumber w;
                      wi_nickname := dw_nickname w;
                      wi_title := dw_title w |}
          | [] => None
          end
      | None => None
      end
  end.

Definition getMovementInfo (track : TrackData) : option MovementInfo :=
  match parsed track with
  | Some p => Some {| mi_number := movement p; mi_title := movementName p |}
  | None =>
      match dbData track with
      | Some d =>
          match movements d with
          | m :: _ => Some {| mi_number := Some (dm_number m); mi_title := dm_title m |}
          | [] => None
          end
      | None => None
      end
  end.

(** The predicate of the [filter] that [getInferredMovement] applies to the
    loaded tracks: same album, and either the parsed (catalog system,
    catalog number, composer name) are the given ones, or some work linked
    in the store has the given catalog system and catalog number. *)
Definition sameWork (albumId : jsstring)
  (system number composer : option jsstring) (t : TrackData) : bool :=
  if negb (bool_decide (album_id (album t) = albumId)) then false
  else
    let parsedMatch :=
      match parsed t with
      | Some tp =>
          strictEq (catalogSystem tp) system
          && strictEq (catalogNumber tp) number
          && strictEq (composerName tp) composer
      | None => false
      end in
    let dbMatch :=
      match dbData t with
      | Some d =>
          existsb
            (fun w =>
               strictEq (dw_catalogSystem w) system
               && strictEq (dw_catalogNumber w) number)
            (works d)
      | None => false
      end in
    parsedMatch || dbMatch.

(** [.sort((a, b) => a.track_number - b.track_number)]: the sort of an
    array is stable. *)
Fixpoint insertByTrackNumber (x : TrackData) (l : list TrackData)
  : list TrackData :=
  match l with
  | [] => [x]
  | y :: rest =>
      if (track_number x <=? track_number y)%Z then x :: y :: rest
      else y :: insertByTrackNumber x rest
  end.

Fixpoint sortByTrackNumber (l : list TrackData) : list TrackData :=
  match l with
  | [] => []
  | x :: rest => insertByTrackNumber x (sortByTrackNumber rest)
  end.

(** [array.findIndex(p)], which is [-1] when no element satisfies [p]. *)
Fixpoint findIndex {A} (p : A -> bool) (l : list A) : Z :=
  match l with
  | [] => (-1)%Z
  | x :: rest =>
      if p x then 0%Z
      else
        let i := findIndex p rest in
        if (i <? 0)%Z then (-1)%Z else (i + 1)%Z
  end.

Definition sameWorkTracks (tracks : list TrackData) (albumId : jsstring)
  (system number composer : option jsstring) : list TrackData :=
  sortByTrackNumber (List.filter (sameWork albumId system number composer) tracks).

(** The number derived from the sorted group. *)
Definition positionIn (sameWorkTracks : list TrackData) (track : TrackData) : Z :=
  if (1 <? Z.of_nat (length sameWorkTracks))%Z then
    let position :=
      findIndex (fun t => bool_decide (id t = id track)) sameWorkTracks in
    if (0 <=? position)%Z then (position + 1)%Z else (-1)%Z
  else 1%Z.

(** [getInferredMovement], over the component's state [tracks]; [None] is
    [null]. *)
Definition getInferredMovement (tracks : list TrackData) (track : TrackData)
  : option Z :=
  match parsed track with
  | None => None
  | Some parsed =>
      if truthyNumber (movement parsed) then None
      else
        Some (positionIn
                (sameWorkTracks tracks (album_id (album track))
                   (catalogSystem parsed) (catalogNumber parsed)
                   (composerName parsed))
                track)
  end.

(** *** The group as the specification words it

    The tracks of the same album with the same (catalog system, catalog
    number, composer name), read from the parsed data of a track or from
    its links in the store (a linked work and the name of its composer). *)
Definition composerNameOf (d : DbData) (w : DbWork) : option jsstring :=
  dc_name <$> head (List.filter (fun c => bool_decide (dc_id c = dw_composerId w))
                      (composers d)).

Definition specSameWork (albumId : jsstring)
  (system number composer : option jsstring) (t : TrackData) : bool :=
  bool_decide (album_id (album t) = albumId)
  && ((match parsed t with
       | Some tp =>
           strictEq (catalogSystem tp) system
           && strictEq (catalogNumber tp) number
           && strictEq (composerName tp) composer
       | None => false
       end)
      || (match dbData t with
          | Some d =>
              existsb
                (fun w =>
                   strictEq (dw_catalogSystem w) system
                   && strictEq (dw_catalogNumber w) number
                   && strictEq (composerNameOf d w) composer)
                (works d)
          | None => false
          end)).

Definition specGroup (tracks : list TrackData) (track : TrackData)
  (p : ClassicalMetadata) : list TrackData :=
  List.filter
    (specSameWork (album_id (album track)) (catalogSystem p) (catalogNumber p)
       (composerName p))
    tracks.

End AlbumTracksTable.

(* ===================================================================== *)
(** ** AlbumTracksTable: the table's state and its other helpers *)
(* ===================================================================== *)

Module TableState.
Import AlbumTracksTable.

(** An artist of a loaded track, with what the reconciliation reported. *)
Record ArtistView := {
  artist_id : jsstring;
  artist_name : jsstring;
  inSpotifyArtistsTable : bool;
  inComposersTable : bool;
  composerId : option jsstring
}.

(** A loaded track: the fields that the inference reads ([track]), with
    [track.dbData?.trackMovements] and [track.artists]. *)
Record Row := {
  track : TrackData;
  trackMovements : option (list Store.TrackMovementRow);
  artists : list ArtistView
}.

(** [{ ...track, parsed }] *)
Definition withParsed (row : Row) (p : option ClassicalMetadata) : Row :=
  {| track :=
       {| id := id (track row); name := name (track row);
          track_number := track_number (track row);
          album := album (track row);
          dbData := dbData (track row);
          parsed := p |};
     trackMovements := trackMovements row;
     artists := artists row |}.

Definition hasMetadata (row : Row) : bool :=
  match trackMovements row with
  | Some (_ :: _) => true
  | _ => false
  end.

Definition composerExistsInDb (row : Row) : bool :=
  match getComposerName (track row) with
  | None => false
  | Some composerName =>
      match List.find (fun a => bool_decide (artist_name a = composerName))
              (artists row) with
      | Some composerArtist => inComposersTable composerArtist
      | None => false
      end
  end.

Definition workExistsInDb (t : TrackData) : bool :=
  match getWorkInfo t with
  | None => false
  | Some workInfo =>
      match dbData t with
      | Some d =>
          existsb
            (fun w =>
               if truthyString (wi_catalogSystem workInfo)
                  && truthyString (wi_catalogNumber workInfo)
               then strictEq (dw_catalogSystem w) (wi_catalogSystem workInfo)
                    && strictEq (dw_catalogNumber w) (wi_catalogNumber workInfo)
               else bool_decide (dw_title w = wi_title workInfo))
            (works d)
      | None => false
      end
  end.

Definition movementExistsInDb (t : TrackData) : bool :=
  match getMovementInfo t with
  | None => false
  | Some movementInfo =>
      if truthyNumber (mi_number movementInfo) then
        match dbData t with
        | Some d =>
            existsb
              (fun m => bool_decide (Some (dm_number m) = mi_number movementInfo))
              (movements d)
        | None => false
        end
      else false
  end.

(** [tracks.filter(t => !hasMetadata(t))] *)
Definition unknownTracks (tracks : list Row) : list Row :=
  List.filter (fun t => negb (hasMetadata t)) tracks.

Definition unknownCount (tracks : list Row) : nat := length (unknownTracks tracks).

(** The input of the parser: the name of each track and of its artists. *)
Definition parseInput (unknown : list Row) : list (jsstring * list jsstring) :=
  List.map (fun t => (name (track t), List.map artist_name (artists t))) unknown.

(** [parsedResults[i]], which is undefined out of range. *)
Definition resultAt (parsedResults : list (option ClassicalMetadata)) (i : Z)
  : option ClassicalMetadata :=
  match nth_error parsedResults (Z.to_nat i) with
  | Some r => r
  | None => None
  end.

(** The update that [handleAnalyze] passes to [setTracks]: [unknown] is the
    list filtered from the state when the handler started, [prev] the state
    when the update runs. *)
Definition mergeParsed (unknown : list Row)
  (parsedResults : list (option ClassicalMetadata)) (prev : list Row)
  : list Row :=
  List.map
    (fun t =>
       let unknownIndex :=
         findIndex (fun ut => bool_decide (id (track ut) = id (track t))) unknown in
       if negb (unknownIndex =? -1)%Z
       then withParsed t (resultAt parsedResults unknownIndex)
       else t)
    prev.

Inductive Analysis :=
| AnalysisError (message : jsstring)
| Analyzed (tracks : list Row).

(** [handleAnalyze], with the parser ([parseBatchTrackMetadata], which is
    not among the sources) as a parameter; it returns [Error] when it
    throws. *)
Definition handleAnalyze
  (parseBatchTrackMetadata :
     list (jsstring * list jsstring) -> Result (list (option ClassicalMetadata)))
  (tracks prev : list Row) : Analysis :=
  let unknown := unknownTracks tracks in
  match unknown with
  | [] => AnalysisError (lit "All tracks in this album are already in the database")
  | _ :: _ =>
      match parseBatchTrackMetadata (parseInput unknown) with
      | Throw message => AnalysisError message
      | Ok parsedResults => Analyzed (mergeParsed unknown parsedResults prev)
      end
  end.

(** The badge of the status column:
    [hasMetadata(track) ? Linked
     : (track.parsed || track.dbData?.works?.length) ? Ready : Unknown]. *)
Inductive Status := Linked | Ready | Unknown.

Definition status (row : Row) : Status :=
  if hasMetadata row then Linked
  else if bool_decide (is_Some (parsed (track row)))
          || match dbData (track row) with
             | Some d => negb (bool_decide (works d = []))
             | None => false
             end
       then Ready
       else Unknown.

(** The button of the actions column:
    [(track.parsed || getWorkInfo(track)) && !hasMetadata(track) ? Save
     : hasMetadata(track) ? Unlink : null]. *)
Inductive Action := Save | Unlink | NoAction.

Definition action (row : Row) : Action :=
  if (bool_decide (is_Some (parsed (track row)))
      || bool_decide (is_Some (getWorkInfo (track row))))
     && negb (hasMetadata row)
  then Save
  else if hasMetadata row then Unlink else NoAction.

End TableState.

(* ===================================================================== *)
(** ** The admin page: the submitted references and the album groups *)
(* ===================================================================== *)

Module AdminPage.

(** [s.split("\n")] *)
Fixpoint splitLines (s : jsstring) : list jsstring :=
  match s with
  | [] => [[]]
  | c :: rest =>
      if c =? 10 then [] :: splitLines rest
      else
        match splitLines rest with
        | line :: lines => (c :: line) :: lines
        | [] => [[c]]
        end
  end.

Definition isBlank (line : jsstring) : bool :=
  match trim line with
  | [] => true
  | _ :: _ => false
  end.

(** [trackUrisInput.trim().split('\n').filter(line => line.trim())] *)
Definition submittedUris (trackUrisInput : jsstring) : list jsstring :=
  List.filter (fun line => negb (isBlank line)) (splitLines (trim trackUrisInput)).

Inductive Submission :=
| Refused (error : jsstring)
| Requested (uris : list jsstring).

(** What [handleSubmit] does with the input: it sets an error, or calls
    [getBatchTrackMetadata] with the references. *)
Definition handleSubmit (trackUrisInput : jsstring) : Submission :=
  match submittedUris trackUrisInput with
  | [] => Refused (lit "Please enter at least one Spotify track URI or URL")
  | uris => Requested uris
  end.

Record AlbumHeader := {
  id : jsstring;
  name : jsstring;
  release_date : jsstring;
  images : list Store.Image
}.

Section Grouping.

(** The type of the tracks ([TrackMetadata]) is declared outside the
    sources; the grouping reads [track.album] only. *)
Context {Track : Type} (albumOf : Track -> AlbumHeader).

Record AlbumGroup := { album : AlbumHeader; tracks : list Track }.

(** The properties that every object inherits from [Object.prototype];
    each is truthy. *)
Definition inheritedKeys : list jsstring :=
  List.map lit
    ["__proto__"; "constructor"; "hasOwnProperty"; "isPrototypeOf";
     "propertyIsEnumerable"; "toLocaleString"; "toString"; "valueOf";
     "__defineGetter__"; "__defineSetter__"; "__lookupGetter__";
     "__lookupSetter__"]%string.

(** The own properties of the accumulator, in creation order. *)
Definition Acc : Type := list (jsstring * AlbumGroup).

Fixpoint own (acc : Acc) (key : jsstring) : option AlbumGroup :=
  match acc with
  | [] => None
  | (k, g) :: rest => if bool_decide (k = key) then Some g else own rest key
  end.

(** [acc[key].tracks.push(track)] for an own property. *)
Fixpoint push (key : jsstring) (track : Track) (acc : Acc) : Acc :=
  match acc with
  | [] => []
  | (k, g) :: rest =>
      if bool_decide (k = key)
      then (k, {| album := album g; tracks := tracks g ++ [track] |}) :: rest
      else (k, g) :: push key track rest
  end.

(** One step of the [reduce]; [None] when it throws: for an album
    identifier that names an inherited property, [acc[albumId]] is truthy,
    no group is created and [acc[albumId].tracks] is undefined. *)
Definition addTrack (acc : Acc) (track : Track) : option Acc :=
  let albumId := id (albumOf track) in
  match own acc albumId with
  | Some _ => Some (push albumId track acc)
  | None =>
      if bool_decide (albumId ∈ inheritedKeys) then None
      else Some (acc ++ [(albumId, {| album := albumOf track; tracks := [track] |})])
  end.

Fixpoint reduce (trackData : list Track) (acc : Acc) : option Acc :=
  match trackData with
  | [] => Some acc
  | track :: rest =>
      match addTrack acc track with
      | Some acc' => reduce rest acc'
      | None => None
      end
  end.

(** A key that is an array index: the canonical decimal form of an integer
    below 2^32 - 1. *)
Definition arrayIndex (key : jsstring) : option N :=
  match key with
  | [] => None
  | c :: rest =>
      if forallb isDigit key && ((c =? 48) && bool_decide (rest = []) || negb (c =? 48))
      then
        let v := fold_left (fun acc d => acc * 10 + (d - 48)) key 0 in
        if v <? 4294967295 then Some v else None
      else None
  end.

Fixpoint insertIndexed (x : N * AlbumGroup) (l : list (N * AlbumGroup))
  : list (N * AlbumGroup) :=
  match l with
  | [] => [x]
  | y :: rest => if fst x <=? fst y then x :: y :: rest else y :: insertIndexed x rest
  end.

(** [Object.values(acc)]: the properties whose key is an array index come
    first, in ascending order of the index, then the others in creation
    order. *)
Definition objectValues (acc : Acc) : list AlbumGroup :=
  List.map snd
    (fold_right insertIndexed []
       (omap (fun kg => (fun i => (i, snd kg)) <$> arrayIndex (fst kg)) acc))
  ++ List.map snd
       (List.filter (fun kg => negb (bool_decide (is_Some (arrayIndex (fst kg))))) acc).

(** The album groups that [handleSubmit] sets from the loaded tracks;
    [None] when the grouping throws. *)
Definition groupByAlbum (trackData : list Track) : option (list AlbumGroup) :=
  objectValues <$> reduce trackData [].

End Grouping.

End AdminPage.

(* ===================================================================== *)
(** ** SpotifyPlayer: the display of times *)
(* ===================================================================== *)

Module SpotifyPlayer.

(** [s.padStart(2, "0")] *)
Definition padStart2 (s : jsstring) : jsstring :=
  match s with
  | [] => [48; 48]
  | [c] => [48; c]
  | _ => s
  end.

(** [formatTime(ms)] for a whole number of milliseconds: [Math.floor] of a
    quotient is the floored division, [%] the remainder that takes the sign
    of the dividend. *)
Definition formatTime (ms : Z) : jsstring :=
  let totalSeconds := (ms / 1000)%Z in
  let minutes := (totalSeconds / 60)%Z in
  let seconds := Z.rem totalSeconds 60 in
  numberToString minutes ++ [58] ++ padStart2 (numberToString seconds).

End SpotifyPlayer.

(* ===================================================================== *)
(** * Vocabulary of the statements, and data for the examples *)
(* ===================================================================== *)

(** A lower-casing that leaves every unit outside ASCII (and the two special
    code points) alone; it interprets the sources on ASCII data. *)
#[export] Instance keepOther : UnicodeLower :=
  {| lowerOther := fun _ c _ => [c];
     lowerOther_nonascii :=
       fun _ c _ (H : 128 <= c) =>
         @List.Forall_cons N _ c [] H (@List.Forall_nil N _) |}.

(** A schema without further constraints. *)
#[export] Instance freeSchema : Store.Schema :=
  {| Store.admissible := fun _ => true |}.

(** *** Strings *)

(** The units of a slug: [a-z0-9-]. *)
Definition slugChar (c : N) : bool := isLower c || isDigit c || isHyphen c.

(** Units that are no ASCII letter or digit and do not lower-case to
    one. *)
Definition plainSymbol (c : N) : Prop :=
  isAlnum c = false /\ c <> 304 /\ c <> 8490.

Definition spaceOrHyphen (c : N) : Prop := isSpace c = true \/ c = 45.

(** The value of a sequence of decimal digits. *)
Definition decimalValue (ds : jsstring) : Z :=
  fold_left (fun acc c => (acc * 10 + digitValue c)%Z) ds 0%Z.

(** The pattern occurs in [s], followed by an identifier. *)
Definition occursWithId (pattern s : jsstring) : Prop :=
  exists pre id post,
    s = pre ++ pattern ++ id ++ post
    /\ id <> [] /\ Forall (fun c => isAlnum c = true) id.

(** A name in Cyrillic, two words and a space: its slug is "-". *)
Definition cyrillicName : jsstring :=
  [1055; 1105; 1090; 1088; 32; 1063; 1072; 1081; 1082; 1086; 1074; 1089; 1082;
   1080; 1081].

Section SlugVocabulary.
Context {U : UnicodeLower}.

(** The slug before the final [trim]. *)
Definition slugBody (name : jsstring) : jsstring :=
  replaceRuns isHyphen [45] false
    (replaceRuns isSpace [45] false
       (removeOutside keptBySlug (toLowerCase name))).

Definition composerRowOf (spotifyArtistId name : jsstring) : Store.ComposerRow :=
  {| Store.composer_id := composerSlug name;
     Store.composer_name := name;
     Store.composer_spotifyArtistId := spotifyArtistId |}.

End SlugVocabulary.

(** *** Worlds and contexts *)

Definition logged (tb : Store.Table) (w : World) : World :=
  {| store := store w; trace := StoreWrite tb :: trace w |}.

(** What a statement on one key of one table leaves in place. *)
Definition sameOutside (W Mv : jsstring) (L : jsstring * jsstring)
  (s s' : Store.t) : Prop :=
  (forall k, k <> W -> Store.work s' !! k = Store.work s !! k)
  /\ (forall k, k <> Mv -> Store.movement s' !! k = Store.movement s !! k)
  /\ (forall k, k <> L -> Store.trackMovement s' !! k = Store.trackMovement s !! k).

Definition operatorSession : Session :=
  {| user := {| user_id := lit "u1"; user_name := lit "benwaffle" |} |}.

Definition emptyJson : Json :=
  {| error_message := None; popularity := None; images := None; track := None |}.

(** The operator is signed in, holds a token, and the provider answers
    every request with status 200 and an object without the fields read. *)
Definition operatorEnv : Env :=
  {| session := Some operatorSession;
     accessToken := fun _ => Some (lit "token");
     provider := fun _ _ => Fetched {| status := 200; body := JsonValue emptyJson |} |}.

Definition emptyWorld : World := {| store := Store.empty; trace := [] |}.

Definition anonymousEnv : Env :=
  {| session := None;
     accessToken := accessToken operatorEnv;
     provider := provider operatorEnv |}.

Definition visitorEnv : Env :=
  {| session := Some {| user := {| user_id := lit "u2"; user_name := lit "mallory" |} |};
     accessToken := accessToken operatorEnv;
     provider := provider operatorEnv |}.

Definition notFoundEnv : Env :=
  {| session := Some operatorSession;
     accessToken := fun _ => Some (lit "token");
     provider := fun _ _ =>
       Fetched {| status := 404;
                  body := JsonValue {| error_message := Some (lit "Non existing id");
                                       popularity := None; images := None;
                                       track := None |} |} |}.

(** The operator is signed in, the broker has a token, and the provider
    gives the same answer to every request. *)
Definition answeringEnv (answer : Response) : Env :=
  {| session := Some operatorSession;
     accessToken := fun _ => Some (lit "token");
     provider := fun _ _ => Fetched answer |}.

(** A JSON value that carries an error message and nothing else. *)
Definition errorJson (message : string) : Json :=
  {| error_message := Some (lit message);
     popularity := None; images := None; track := None |}.

(** *** The server actions *)

Section ActionVocabulary.
Import Prim Actions Http.
Context {U : UnicodeLower} {Sch : Store.Schema}.

Definition albumRowOf (albumData : AlbumData) (popularity : option Z)
  : Store.SpotifyAlbumRow :=
  {| Store.album_spotifyId := album_id albumData;
     Store.album_title := album_name albumData;
     Store.album_year := albumYear (release_date albumData);
     Store.album_images := album_images albumData;
     Store.album_popularity := orNull popularity |}.

Definition beethovenAlbum : AlbumData :=
  {| album_id := lit "a1"; album_name := lit "Symphonies";
     release_date := lit "1963-01-01"; album_popularity := 40;
     album_images := [] |}.

Definition undatedAlbum : AlbumData :=
  {| album_id := lit "a2"; album_name := lit "Bootleg";
     release_date := lit "unknown"; album_popularity := 0;
     album_images := [] |}.

Definition workRowOf (data : WorkData) : Store.WorkRow :=
  {| Store.work_id :=
       workIdOf (composerId data) (catalogSystem data) (catalogNumber data);
     Store.work_composerId := composerId data;
     Store.work_title := formalName data;
     Store.work_nickname := nickname data;
     Store.work_catalogSystem := catalogSystem data;
     Store.work_catalogNumber := catalogNumber data;
     Store.work_yearComposed := yearComposed data;
     Store.work_form := form data |}.

Definition movementRowOf (data : WorkData) : Store.MovementRow :=
  let workId := workIdOf (composerId data) (catalogSystem data) (catalogNumber data) in
  {| Store.movement_id := movementIdOf workId (movementNumber data);
     Store.movement_workId := workId;
     Store.movement_number := movementNumber data;
     Store.movement_title := movementName data |}.

Definition linkRowOf (data : WorkData) : Store.TrackMovementRow :=
  let workId := workIdOf (composerId data) (catalogSystem data) (catalogNumber data) in
  {| Store.tm_spotifyTrackId := spotifyTrackId data;
     Store.tm_movementId := movementIdOf workId (movementNumber data);
     Store.tm_startMs := None;
     Store.tm_endMs := None |}.

Definition linkResultOf (data : WorkData) : LinkResult :=
  let workId := workIdOf (composerId data) (catalogSystem data) (catalogNumber data) in
  {| link_success := true;
     link_message :=
       lit "Added work " ++ [34] ++ formalName data ++ [34]
         ++ lit ", movement " ++ numberToString (movementNumber data)
         ++ lit ", and linked to track";
     workId := workId;
     movementId := movementIdOf workId (movementNumber data) |}.

(** The three statements of [addWorkMovementAndTrack] in sequence. *)
Definition linkStatements (data : WorkData) : M LinkResult :=
  upsertWork (workRowOf data) ;;
  upsertMovement (movementRowOf data) ;;
  insertTrackMovement (linkRowOf data) ;;
  ret (linkResultOf data).

Definition fifthSymphony : WorkData :=
  {| composerId := lit "beethoven";
     formalName := lit "Symphony No. 5";
     nickname := None;
     catalogSystem := lit "Op";
     catalogNumber := lit "67";
     key := Some (lit "C minor");
     form := Some (lit "symphony");
     movementNumber := 1;
     movementName := Some (lit "Allegro con brio");
     yearComposed := Some 1808%Z;
     spotifyTrackId := lit "track1" |}.

(** The action throws [message] and leaves the world -- the store and the
    record of token requests, provider calls and store statements -- as it
    was. *)
Definition rejectsWith {A} (m : M A) (env : Env) (w : World) (message : string)
  : Prop :=
  m env w = (Throw (lit message), w).

(** The endpoint answers [status] with [message], and leaves the world as
    it was. *)
Definition answersWith {A} (m : M (Reply A)) (env : Env) (w : World)
  (status : Z) (message : string) : Prop :=
  m env w = (Ok {| code := status; payload := Error (lit message) |}, w).

(** Every privileged operation, for a given failure of the gate. *)
Definition allOperationsFail {U : UnicodeLower} {Sch : Store.Schema}
  (env : Env) (w : World) (status : Z) (message : string) : Prop :=
  (forall albumData, rejectsWith (addAlbumToDatabase albumData) env w message)
  /\ (forall artists, rejectsWith (addArtistsToDatabase artists) env w message)
  /\ (forall trackData, rejectsWith (addTrackToDatabase trackData) env w message)
  /\ (forall spotifyArtistId name,
        rejectsWith (addComposer spotifyArtistId name) env w message)
  /\ (forall composerId catalogSystem catalogNumber movementNumber,
        rejectsWith
          (checkWorkAndMovement composerId catalogSystem catalogNumber movementNumber)
          env w message)
  /\ (forall data, rejectsWith (addWorkMovementAndTrack data) env w message)
  /\ (forall request, answersWith (ComposerRoute.POST request) env w status message)
  /\ (forall request, answersWith (TrackRoute.POST request) env w status message).

End ActionVocabulary.

(** *** The album table *)

Section TableVocabulary.
Import AlbumTracksTable.

(** The order of the sort. *)
Definition byTrackNumber (a b : TrackData) : Prop :=
  (track_number a <= track_number b)%Z.

Definition exampleTrack (name : string) (position : Z) : TrackData :=
  {| id := lit name; name := lit name; track_number := position;
     album := {| album_id := lit "album" |};
     dbData := None;
     parsed :=
       Some {| composerName := Some (lit "Ludwig van Beethoven");
               catalogSystem := Some (lit "Op");
               catalogNumber := Some (lit "67");
               nickname := None;
               formalName := lit "Symphony No. 5";
               movement := None; movementName := None;
               key := None; form := None; yearComposed := None |} |}.

Definition exampleTracks : list TrackData :=
  [exampleTrack "a" 5; exampleTrack "b" 3; exampleTrack "c" 7].

(** A parsed track of Beethoven's Op. 2 at position 2, and, in the same
    album at position 1, a track already linked in the store to Brahms's
    Op. 2. *)
Definition parsedOp2 : ClassicalMetadata :=
  {| composerName := Some (lit "Ludwig van Beethoven");
     catalogSystem := Some (lit "Op");
     catalogNumber := Some (lit "2");
     nickname := None;
     formalName := lit "Piano Sonata";
     movement := None; movementName := None;
     key := None; form := None; yearComposed := None |}.

Definition parsedTrack : TrackData :=
  {| id := lit "x"; name := lit "Sonata"; track_number := 2;
     album := {| album_id := lit "album" |};
     dbData := None;
     parsed := Some parsedOp2 |}.

Definition linkedTrack : TrackData :=
  {| id := lit "y"; name := lit "Sonata No. 2"; track_number := 1;
     album := {| album_id := lit "album" |};
     dbData :=
       Some {| works :=
                 [{| dw_id := lit "johannes-brahms/op-2";
                     dw_composerId := lit "johannes-brahms";
                     dw_title := lit "Piano Sonata No. 2";
                     dw_nickname := None;
                     dw_catalogSystem := Some (lit "Op");
                     dw_catalogNumber := Some (lit "2") |}];
               movements := [{| dm_number := 1; dm_title := None |}];
               composers :=
                 [{| dc_id := lit "johannes-brahms";
                     dc_name := lit "Johannes Brahms" |}] |};
     parsed := None |}.

(** The same work of Brahms at position 1, known from the parser instead of
    the store. *)
Definition parsedBrahmsTrack : TrackData :=
  {| id := lit "z"; name := lit "Sonata No. 2"; track_number := 1;
     album := {| album_id := lit "album" |};
     dbData := None;
     parsed :=
       Some {| composerName := Some (lit "Johannes Brahms");
               catalogSystem := Some (lit "Op");
               catalogNumber := Some (lit "2");
               nickname := None;
               formalName := lit "Piano Sonata No. 2";
               movement := None; movementName := None;
               key := None; form := None; yearComposed := None |} |}.

End TableVocabulary.

(* ===================================================================== *)
(** ** Vocabulary of the further properties *)
(* ===================================================================== *)

(** Reading [String(z)] back. *)
Definition readNumber (s : jsstring) : Z :=
  match s with
  | c :: ds => if c =? 45 then (- decimalValue ds)%Z else decimalValue s
  | [] => 0%Z
  end.

Section SubmittedVocabulary.
Import AdminPage.

(** [lines.join("\n")] *)
Fixpoint joinLines (lines : list jsstring) : jsstring :=
  match lines with
  | [] => []
  | [line] => line
  | line :: rest => line ++ 10 :: joinLines rest
  end.

Definition noLineFeed (line : jsstring) : Prop := Forall (fun c => c <> 10) line.

(** White space only. *)
Definition blank (s : jsstring) : Prop := Forall (fun c => isSpace c = true) s.

End SubmittedVocabulary.

Section GroupsVocabulary.
Import AdminPage.
Context {Track : Type} (albumOf : Track -> AlbumHeader).

Definition albumKey (t : Track) : jsstring := id (albumOf t).

Definition sameAlbum (k : jsstring) (t : Track) : bool :=
  bool_decide (albumKey t = k).

(** The distinct elements of a list, in the order of their first
    occurrence. *)
Definition firstOccurrences (l : list jsstring) : list jsstring :=
  fold_left (fun ks k => if bool_decide (k ∈ ks) then ks else ks ++ [k]) l [].

(** A group agrees with the tracks [seen]: it holds the tracks of its
    album, in their order, under the header of the first of them. *)
Definition groupOf (seen : list Track) (k : jsstring) (g : @AlbumGroup Track)
  : Prop :=
  id (album g) = k
  /\ tracks g = List.filter (sameAlbum k) seen
  /\ exists t rest, tracks g = t :: rest /\ album g = albumOf t.

Definition grouped (seen : list Track) (acc : @Acc Track) : Prop :=
  List.map fst acc = firstOccurrences (List.map albumKey seen)
  /\ Forall (fun kg => groupOf seen (fst kg) (snd kg)) acc.

End GroupsVocabulary.

Section AnalyzeVocabulary.
Import AlbumTracksTable TableState.

(** An album of two tracks: the first is linked in the store, the second
    is not. *)
Definition unparsedTrack : TrackData :=
  {| id := lit "x"; name := lit "Sonata"; track_number := 2;
     album := {| album_id := lit "album" |};
     dbData := None;
     parsed := None |}.

Definition exampleRows : list Row :=
  [ {| track := linkedTrack;
       trackMovements :=
         Some [ {| Store.tm_spotifyTrackId := lit "y";
                   Store.tm_movementId := lit "johannes-brahms/op-2/1";
                   Store.tm_startMs := None; Store.tm_endMs := None |} ];
       artists := [] |};
    {| track := unparsedTrack; trackMovements := None; artists := [] |} ].

(** A parser that answers with the same data for every input. *)
Definition exampleParser (input : list (jsstring * list jsstring))
  : Result (list (option ClassicalMetadata)) :=
  Ok (List.map (fun _ => Some parsedOp2) input).

End AnalyzeVocabulary.

Section ActionVocabularyMore.
Import Prim Actions.
Context {U : UnicodeLower} {Sch : Store.Schema}.

(** The JSON value that the provider answers with, when it answers with
    one: neither a network failure, nor a body that is not JSON, nor the
    JSON value null. *)
Definition answer (env : Env) (url token : jsstring) : option Json :=
  match provider env url token with
  | Fetched r =>
      match body r with
      | JsonValue j => Some j
      | _ => None
      end
  | NetworkError => None
  end.

(** The token that [getSpotifyAccessToken] returns. *)
Definition tokenOf (env : Env) (userId : jsstring) : option jsstring :=
  match accessToken env userId with
  | Some (c :: r) => Some (c :: r)
  | _ => None
  end.

Definition albumUrl (albumData : AlbumData) : jsstring :=
  lit "https://api.spotify.com/v1/albums/" ++ album_id albumData.

Definition albumWritten (s : Store.t) (row : Store.SpotifyAlbumRow) : Store.t :=
  Store.withSpotifyAlbum s (<[Store.album_spotifyId row := row]> (Store.spotifyAlbum s)).

Definition albumAdded (albumData : AlbumData) : ActionResult :=
  {| success := true;
     message := lit "Added album " ++ [34] ++ album_name albumData
                  ++ [34] ++ lit " to database" |}.

Definition artistUrl (artist : ArtistRef) : jsstring :=
  lit "https://api.spotify.com/v1/artists/" ++ artist_id artist.

Definition artistRowOf (artist : ArtistRef) (j : Json) : Store.SpotifyArtistRow :=
  {| Store.artist_spotifyId := artist_id artist;
     Store.artist_name := artist_name artist;
     Store.artist_popularity := orNull (popularity j);
     Store.artist_images := images j |}.

Definition artistWritten (s : Store.t) (row : Store.SpotifyArtistRow) : Store.t :=
  Store.withSpotifyArtist s
    (<[Store.artist_spotifyId row := row]> (Store.spotifyArtist s)).

(** The store after the rows have been written one after the other. *)
Definition artistsWritten (s : Store.t) (rows : list Store.SpotifyArtistRow)
  : Store.t :=
  fold_left artistWritten rows s.

(** The schema admits each of the successive stores. *)
Fixpoint admitsArtists (s : Store.t) (rows : list Store.SpotifyArtistRow) : Prop :=
  match rows with
  | [] => True
  | row :: rest =>
      Store.admissible (artistWritten s row) = true
      /\ admitsArtists (artistWritten s row) rest
  end.

Definition artistsAdded (artists : list ArtistRef) : ActionResult :=
  {| success := true;
     message := lit "Added " ++ numberToString (Z.of_nat (length artists))
                  ++ lit " artist(s) to database" |}.

(** The provider's answers for the artists, one after the other, with the
    token [tok]. *)
Definition artistAnswers (env : Env) (tok : jsstring) (artists : list ArtistRef)
  (answers : list Json) : Prop :=
  Forall2 (fun artist j => answer env (artistUrl artist) tok = Some j)
    artists answers.

Definition artistRows (artists : list ArtistRef) (answers : list Json)
  : list Store.SpotifyArtistRow :=
  zip_with artistRowOf artists answers.

(** What [addArtistsToDatabase] does for one artist. *)
Definition artistStatement (accessToken : jsstring) (artist : ArtistRef) : M unit :=
  artistResponse <- fetch (artistUrl artist) accessToken ;;
  artistData <- json artistResponse ;;
  popularity <- prop artistData popularity ;;
  images <- prop artistData images ;;
  upsertSpotifyArtist
    {| Store.artist_spotifyId := artist_id artist;
       Store.artist_name := artist_name artist;
       Store.artist_popularity := orNull popularity;
       Store.artist_images := images |}.

Definition karajan : ArtistRef :=
  {| artist_id := lit "ar1"; artist_name := lit "Herbert von Karajan" |}.

Definition trackRowOf (trackData : TrackData) : Store.SpotifyTrackRow :=
  {| Store.track_spotifyId := track_id trackData;
     Store.track_title := track_name trackData;
     Store.track_trackNumber := track_number trackData;
     Store.track_durationMs := duration_ms trackData;
     Store.track_popularity := track_popularity trackData;
     Store.track_spotifyAlbumId := albumId trackData |}.

Definition trackWritten (s : Store.t) (row : Store.SpotifyTrackRow) : Store.t :=
  Store.withSpotifyTrack s (<[Store.track_spotifyId row := row]> (Store.spotifyTrack s)).

(** The store after the track has been paired with the artists. *)
Definition pairsWritten (s : Store.t) (trackId : jsstring) (artists : list ArtistRef)
  : Store.t :=
  Store.withTrackArtists s
    (list_to_set (List.map (fun a => (trackId, artist_id a)) artists)
     ∪ Store.trackArtists s).

Definition exampleTrackData : TrackData :=
  {| track_id := lit "track1"; track_name := lit "Allegro con brio";
     track_uri := lit "spotify:track:track1";
     duration_ms := 441000; track_number := 1; track_popularity := 50;
     albumId := lit "a1"; artists := [karajan] |}.

Definition trackAdded (trackData : TrackData) : ActionResult :=
  {| success := true;
     message := lit "Added track " ++ [34] ++ track_name trackData
                  ++ [34] ++ lit " to database" |}.

(** The statements of [addTrackToDatabase] in sequence. *)
Definition trackStatements (trackData : TrackData) : M ActionResult :=
  upsertSpotifyTrack (trackRowOf trackData) ;;
  forEach
    (fun artist => insertTrackArtist (track_id trackData) (artist_id artist))
    (artists trackData) ;;
  ret (trackAdded trackData).

(** An effect on the store, as opposed to a request to the token broker or
    to the provider. *)
Definition isStoreWrite (e : Effect) : bool :=
  match e with
  | StoreWrite _ => true
  | _ => false
  end.

(** The rows of the works with the given composer, catalog system and
    catalog number. *)
Definition workMatches (composerId catalogSystem catalogNumber : jsstring)
  (w : Store.WorkRow) : bool :=
  bool_decide (Store.work_composerId w = composerId)
  && bool_decide (Store.work_catalogSystem w = catalogSystem)
  && bool_decide (Store.work_catalogNumber w = catalogNumber).

Definition movementMatches (workId : jsstring) (movementNumber : Z)
  (m : Store.MovementRow) : bool :=
  bool_decide (Store.movement_workId m = workId)
  && bool_decide (Store.movement_number m = movementNumber).

(** The row that an upsert of [row] leaves, given the row that was there:
    the update keeps the columns that it does not set. *)
Definition mergedWork (old : option Store.WorkRow) (row : Store.WorkRow)
  : Store.WorkRow :=
  match old with
  | Some old =>
      {| Store.work_id := Store.work_id row;
         Store.work_composerId := Store.work_composerId old;
         Store.work_title := Store.work_title row;
         Store.work_nickname := Store.work_nickname row;
         Store.work_catalogSystem := Store.work_catalogSystem row;
         Store.work_catalogNumber := Store.work_catalogNumber row;
         Store.work_yearComposed := Store.work_yearComposed row;
         Store.work_form := Store.work_form row |}
  | None => row
  end.

Definition mergedMovement (old : option Store.MovementRow) (row : Store.MovementRow)
  : Store.MovementRow :=
  match old with
  | Some old =>
      {| Store.movement_id := Store.movement_id row;
         Store.movement_workId := Store.movement_workId old;
         Store.movement_number := Store.movement_number row;
         Store.movement_title := Store.movement_title row |}
  | None => row
  end.

Definition workWritten (s : Store.t) (row : Store.WorkRow) : Store.t :=
  Store.withWork s
    (<[Store.work_id row := mergedWork (Store.work s !! Store.work_id row) row]>
       (Store.work s)).

Definition movementWritten (s : Store.t) (row : Store.MovementRow) : Store.t :=
  Store.withMovement s
    (<[Store.movement_id row
       := mergedMovement (Store.movement s !! Store.movement_id row) row]>
       (Store.movement s)).

Definition linkWritten (s : Store.t) (row : Store.TrackMovementRow) : Store.t :=
  let k := (Store.tm_spotifyTrackId row, Store.tm_movementId row) in
  match Store.trackMovement s !! k with
  | Some _ => s
  | None => Store.withTrackMovement s (<[k := row]> (Store.trackMovement s))
  end.

(** The store after the three statements of [addWorkMovementAndTrack]. *)
Definition linked (s : Store.t) (data : WorkData) : Store.t :=
  linkWritten
    (movementWritten (workWritten s (workRowOf data)) (movementRowOf data))
    (linkRowOf data).

(** The row is in the table, under some key. *)
Definition stored {K V} `{Countable K} (m : gmap K V) (v : V) : Prop :=
  exists k, m !! k = Some v.

End ActionVocabularyMore.

(** *** Contexts of the track-metadata endpoint *)

(** The operator is signed in but the broker has no token. *)
Definition noTokenEnv : Env :=
  {| session := Some operatorSession;
     accessToken := fun _ => None;
     provider := provider operatorEnv |}.

Definition exampleTrackJson : TrackJson :=
  {| tj_id := lit "track1"; tj_name := lit "Allegro con brio";
     tj_uri := lit "spotify:track:track1";
     tj_duration_ms := 441000; tj_track_number := 1; tj_popularity := 50;
     tj_artists :=
       [{| aj_id := lit "ar1"; aj_name := lit "Herbert von Karajan";
           aj_uri := lit "spotify:artist:ar1" |}];
     tj_album :=
       {| bj_id := lit "a1"; bj_name := lit "Symphonies";
          bj_uri := lit "spotify:album:a1";
          bj_release_date := lit "1963-01-01"; bj_popularity := None;
          bj_images := [] |} |}.

Definition exampleTrackAnswer : Json :=
  {| error_message := None; popularity := Some 50%Z; images := None;
     track := Some exampleTrackJson |}.

(** The provider answers every request with the example track. *)
Definition trackEnv : Env :=
  {| session := Some operatorSession;
     accessToken := fun _ => Some (lit "token");
     provider := fun _ _ =>
       Fetched {| status := 200; body := JsonValue exampleTrackAnswer |} |}.

(** The text stops, or goes on with a unit that is no ASCII letter or
    digit. *)
Definition endsIdentifier (post : jsstring) : Prop :=
  post = [] \/ exists c r, post = c :: r /\ isAlnum c = false.

(** *** The form of a slug *)

Definition startsWithHyphen (s : jsstring) : bool :=
  match s with
  | d :: _ => isHyphen d
  | [] => false
  end.

(** Two hyphens in a row, somewhere in the text. *)
Fixpoint adjacentHyphens (s : jsstring) : bool :=
  match s with
  | [] => false
  | c :: rest => (isHyphen c && startsWithHyphen rest) || adjacentHyphens rest
  end.

(** Lower-case ASCII letters, digits and single hyphens. *)
Definition slugForm (s : jsstring) : Prop :=
  Forall (fun c => slugChar c = true) s /\ adjacentHyphens s = false.

(** *** What the composer operations leave in place *)

(** From [s] to [s'] no composer row was changed or removed, and the other
    tables are as they were. *)
Definition composersKept (s s' : Store.t) : Prop :=
  (forall k row, Store.composer s !! k = Some row ->
                 Store.composer s' !! k = Some row)
  /\ Store.withComposer s' (Store.composer s) = s.

(** *** Replies *)

Definition isSuccess {A} (r : Http.Reply A) : bool :=
  match Http.payload r with
  | Http.Success _ => true
  | Http.Error _ => false
  end.

(** A reply as a client can rely on it: a status that a reply with a body
    can carry, which is 200 exactly when the body is not an error. *)
Definition wellFormedReply {A} (r : Http.Reply A) : Prop :=
  Http.replyStatus (Http.code r) = true
  /\ (isSuccess r = true <-> Http.code r = 200%Z).

(* ===================================================================== *)
(** * Proofs *)
(* ===================================================================== *)

(** ** Character classes and the string operations *)

Ltac unfold_classes :=
  unfold slugChar, keptBySlug, isAlnum, isLower, isUpper, isDigit, isHyphen,
    isSpace in *.

Ltac class_arith :=
  unfold_classes;
  repeat match goal with
         | H : _ && _ = true |- _ => apply andb_prop in H; destruct H
         | H : _ || _ = true |- _ => apply orb_prop in H; destruct H
         | H : _ || _ = false |- _ => apply orb_false_elim in H; destruct H
         | H : (_ <=? _) = true |- _ => apply N.leb_le in H
         | H : (_ <=? _) = false |- _ => apply N.leb_gt in H
         | H : (_ <? _) = true |- _ => apply N.ltb_lt in H
         | H : (_ <? _) = false |- _ => apply N.ltb_ge in H
         | H : (_ =? _) = true |- _ => apply N.eqb_eq in H
         | H : (_ =? _) = false |- _ => apply N.eqb_neq in H
         end.

Lemma slugChar_not_space c : slugChar c = true -> isSpace c = false.
Proof.
  intros H. destruct (isSpace c) eqn:Hs; [|reflexivity].
  exfalso. class_arith; lia.
Qed.

Lemma slugChar_kept c : slugChar c = true -> keptBySlug c = true.
Proof.
  unfold slugChar, keptBySlug. intros H.
  destruct (isLower c), (isDigit c), (isHyphen c), (isSpace c); simpl in *; congruence.
Qed.

Lemma kept_not_space_slugChar c :
  keptBySlug c = true -> isSpace c = false -> slugChar c = true.
Proof.
  unfold slugChar, keptBySlug. intros H Hs. rewrite Hs in H.
  destruct (isLower c), (isDigit c), (isHyphen c); simpl in *; congruence.
Qed.

Lemma slugChar_hyphen : slugChar 45 = true.
Proof. reflexivity. Qed.

Section StringLemmas.
Context {U : UnicodeLower}.

Lemma lowerUnit_slugChar pre c post :
  slugChar c = true -> lowerUnit pre c post = [c].
Proof.
  intros H. unfold lowerUnit.
  destruct (isUpper c) eqn:Hu; [exfalso; class_arith; lia|].
  destruct (c <? 128) eqn:Hlt; [reflexivity|].
  exfalso. class_arith; lia.
Qed.

Lemma lowerFrom_slugChars s : forall pre,
  Forall (fun c => slugChar c = true) s -> lowerFrom pre s = s.
Proof.
  induction s as [|c s IH]; intros pre H; [reflexivity|].
  inversion H; subst. simpl.
  rewrite lowerUnit_slugChar by assumption. simpl. f_equal. now apply IH.
Qed.

Lemma toLowerCase_slugChars s :
  Forall (fun c => slugChar c = true) s -> toLowerCase s = s.
Proof. apply lowerFrom_slugChars. Qed.

End StringLemmas.

Lemma removeOutside_all p s :
  Forall (fun c => p c = true) s -> removeOutside p s = s.
Proof.
  unfold removeOutside. induction 1 as [|c s Hc _ IH]; simpl; [reflexivity|].
  now rewrite Hc, IH.
Qed.

Lemma removeOutside_Forall p s :
  Forall (fun c => p c = true) (removeOutside p s).
Proof.
  unfold removeOutside. induction s as [|c s IH]; simpl; [constructor|].
  destruct (p c) eqn:Hc; [constructor; assumption | assumption].
Qed.

Lemma replaceRuns_none p rep b s :
  Forall (fun c => p c = false) s -> replaceRuns p rep b s = s.
Proof.
  intros H. revert b. induction H as [|c s Hc _ IH]; intros b; simpl; [reflexivity|].
  now rewrite Hc, IH.
Qed.

(** Replacing runs by a unit of the class itself is idempotent. *)
Lemma replaceRuns_idem p h s : p h = true -> forall b,
  replaceRuns p [h] b (replaceRuns p [h] b s) = replaceRuns p [h] b s.
Proof.
  intros Hh. induction s as [|c s IH]; intros b; [reflexivity|].
  simpl. destruct (p c) eqn:Hc.
  - destruct b; [apply IH|].
    simpl. rewrite Hh. f_equal. apply IH.
  - simpl. rewrite Hc. f_equal. apply IH.
Qed.

Lemma replaceRuns_Forall (Q : N -> Prop) p rep s :
  Forall Q rep -> (forall c, In c s -> p c = false -> Q c) ->
  forall b, Forall Q (replaceRuns p rep b s).
Proof.
  intros Hrep. induction s as [|c s IH]; intros HQ b; simpl; [constructor|].
  assert (HQ' : forall c', In c' s -> p c' = false -> Q c')
    by (intros c' Hin; apply HQ; now right).
  destruct (p c) eqn:Hc.
  - destruct b; [now apply IH|].
    apply Forall_app. split; [assumption | now apply IH].
  - constructor; [apply HQ; [now left | assumption] | now apply IH].
Qed.

Lemma trimStart_head c s : isSpace c = false -> trimStart (c :: s) = c :: s.
Proof. intros H. simpl. now rewrite H. Qed.

Lemma trimStart_no_space s :
  Forall (fun c => isSpace c = false) s -> trimStart s = s.
Proof. destruct 1 as [|c s Hc _]; [reflexivity | now apply trimStart_head]. Qed.

Lemma trim_no_space s :
  Forall (fun c => isSpace c = false) s -> trim s = s.
Proof.
  intros H. unfold trim, trimEnd. rewrite (trimStart_no_space s H).
  rewrite trimStart_no_space; [apply rev_involutive|].
  now apply List.Forall_rev.
Qed.

(** ** The composer slug *)

Section SlugProofs.
Context {U : UnicodeLower}.

Lemma slugBody_chars name : Forall (fun c => slugChar c = true) (slugBody name).
Proof.
  unfold slugBody.
  apply replaceRuns_Forall; [repeat constructor|].
  intros c Hin _. revert c Hin. apply List.Forall_forall.
  apply replaceRuns_Forall; [repeat constructor|].
  intros c Hin Hs. apply kept_not_space_slugChar; [|assumption].
  pose proof (removeOutside_Forall keptBySlug (toLowerCase name)) as Hk.
  rewrite List.Forall_forall in Hk. now apply Hk.
Qed.

Lemma slugChars_no_space s :
  Forall (fun c => slugChar c = true) s -> Forall (fun c => isSpace c = false) s.
Proof. apply List.Forall_impl. intros c. apply slugChar_not_space. Qed.

(** Nothing is left for [trim] to strip: white space became hyphens. *)
Lemma composerSlug_body name : composerSlug name = slugBody name.
Proof.
  unfold composerSlug. fold (slugBody name).
  apply trim_no_space, slugChars_no_space, slugBody_chars.
Qed.

Lemma composerSlug_chars name :
  Forall (fun c => slugChar c = true) (composerSlug name).
Proof. rewrite composerSlug_body. apply slugBody_chars. Qed.

Lemma slugBody_fixed name : slugBody (slugBody name) = slugBody name.
Proof.
  pose proof (slugBody_chars name) as Hc.
  unfold slugBody at 1.
  rewrite toLowerCase_slugChars by assumption.
  rewrite removeOutside_all
    by (revert Hc; apply List.Forall_impl; intros c; apply slugChar_kept).
  rewrite (replaceRuns_none isSpace) by (now apply slugChars_no_space).
  unfold slugBody. now apply replaceRuns_idem.
Qed.

(** C4.  The composer slug is a function of the name alone, it is
    idempotent -- deriving the slug of a slug gives the slug back, for every
    string -- and "Ludwig van Beethoven" maps to "ludwig-van-beethoven". *)
Theorem composerSlug_idempotent :
  (forall x : jsstring, composerSlug (composerSlug x) = composerSlug x)
  /\ composerSlug (lit "Ludwig van Beethoven") = lit "ludwig-van-beethoven".
Proof.
  split.
  - intros x. rewrite !composerSlug_body. apply slugBody_fixed.
  - reflexivity.
Qed.

End SlugProofs.

(** ** Movement-number inference *)

Section Inference.
Import AlbumTracksTable.

Lemma insertByTrackNumber_perm x l :
  Permutation (insertByTrackNumber x l) (x :: l).
Proof.
  induction l as [|y l IH]; simpl; [reflexivity|].
  destruct (track_number x <=? track_number y)%Z; [reflexivity|].
  rewrite IH. apply perm_swap.
Qed.

Lemma sortByTrackNumber_perm l : Permutation (sortByTrackNumber l) l.
Proof.
  induction l as [|x l IH]; simpl; [reflexivity|].
  rewrite insertByTrackNumber_perm. now constructor.
Qed.

Lemma insertByTrackNumber_sorted x l :
  StronglySorted byTrackNumber l ->
  StronglySorted byTrackNumber (insertByTrackNumber x l).
Proof.
  induction 1 as [|y l Hs IH Hall]; simpl.
  - repeat constructor.
  - destruct (track_number x <=? track_number y)%Z eqn:Hle.
    + apply Z.leb_le in Hle. constructor; [now constructor|].
      constructor; [exact Hle|].
      revert Hall. apply List.Forall_impl. unfold byTrackNumber. intros; lia.
    + apply Z.leb_gt in Hle. constructor; [exact IH|].
      eapply Permutation_Forall; [symmetry; apply insertByTrackNumber_perm|].
      constructor; [unfold byTrackNumber; lia | exact Hall].
Qed.

Lemma sortByTrackNumber_sorted l :
  StronglySorted byTrackNumber (sortByTrackNumber l).
Proof.
  induction l as [|x l IH]; simpl; [constructor|].
  now apply insertByTrackNumber_sorted.
Qed.

(** The sort is stable: tracks at the same position keep their order. *)
Lemma insertByTrackNumber_at p x l :
  List.filter (fun t => track_number t =? p)%Z (insertByTrackNumber x l)
  = List.filter (fun t => track_number t =? p)%Z (x :: l).
Proof.
  induction l as [|y l IH]; [reflexivity|]. simpl insertByTrackNumber.
  destruct (track_number x <=? track_number y)%Z eqn:Hle; [reflexivity|].
  apply Z.leb_gt in Hle. simpl in *. rewrite IH.
  destruct (track_number x =? p)%Z eqn:Hx, (track_number y =? p)%Z eqn:Hy;
    try reflexivity.
  apply Z.eqb_eq in Hx, Hy. lia.
Qed.

Lemma sortByTrackNumber_stable p l :
  List.filter (fun t => track_number t =? p)%Z (sortByTrackNumber l)
  = List.filter (fun t => track_number t =? p)%Z l.
Proof.
  induction l as [|x l IH]; [reflexivity|]. simpl sortByTrackNumber.
  rewrite insertByTrackNumber_at. simpl. now rewrite IH.
Qed.

(** [findIndex] returns the first position that satisfies the predicate. *)
Lemma findIndex_spec {A} (p : A -> bool) (l : list A) :
  (findIndex p l = (-1)%Z /\ Forall (fun x => p x = false) l)
  \/ (exists k x, findIndex p l = Z.of_nat k /\ l !! k = Some x /\ p x = true
        /\ Forall (fun y => p y = false) (take k l)).
Proof.
  induction l as [|a l IH]; simpl.
  - left. split; [reflexivity | constructor].
  - destruct (p a) eqn:Hpa.
    + right. exists 0%nat, a. repeat split; try assumption. constructor.
    + destruct IH as [[Hi Hall] | (k & x & Hi & Hk & Hpx & Hall)].
      * left. rewrite Hi. simpl. split; [reflexivity | now constructor].
      * right. exists (S k), x. rewrite Hi.
        destruct (Z.of_nat k <? 0)%Z eqn:Hneg; [apply Z.ltb_lt in Hneg; lia|].
        repeat split; [lia | assumption | assumption | now constructor].
Qed.

(** With distinct identifiers, the index found for a member is its own. *)
Lemma findIndex_member (l : list TrackData) (track : TrackData) :
  In track l -> NoDup (List.map id l) ->
  exists k, findIndex (fun t => bool_decide (id t = id track)) l = Z.of_nat k
            /\ l !! k = Some track.
Proof.
  intros Hin Hnd.
  destruct (findIndex_spec (fun t => bool_decide (id t = id track)) l)
    as [[_ Hall] | (k & x & Hi & Hk & Hpx & _)].
  - exfalso. rewrite List.Forall_forall in Hall. specialize (Hall track Hin).
    simpl in Hall. rewrite bool_decide_eq_false in Hall. now apply Hall.
  - exists k. split; [exact Hi|].
    rewrite bool_decide_eq_true in Hpx.
    apply list_elem_of_In, list_elem_of_lookup in Hin. destruct Hin as [j Hj].
    assert (j = k) as ->; [|exact Hj].
    change (List.map id l) with (id <$> l) in Hnd.
    apply (NoDup_lookup (id <$> l) j k (id track)).
    + exact Hnd.
    + rewrite list_lookup_fmap, Hj. reflexivity.
    + rewrite list_lookup_fmap, Hk. simpl. now rewrite Hpx.
Qed.

Lemma filter_none {A} (p : A -> bool) (l : list A) :
  Forall (fun x => p x = false) l -> List.filter p l = [].
Proof.
  induction 1 as [|x l Hx _ IH]; simpl; [reflexivity|]. now rewrite Hx.
Qed.

(** In a sorted list without equal positions, the index of an element is
    the number of elements at a smaller position. *)
Lemma sorted_index_count (l : list TrackData) : forall k x,
  StronglySorted byTrackNumber l ->
  NoDup (List.map track_number l) ->
  l !! k = Some x ->
  k = length (List.filter (fun t => track_number t <? track_number x)%Z l).
Proof.
  induction l as [|a l IH]; intros k x Hs Hnd Hk; [discriminate|].
  inversion Hs as [|? ? Hs' Hall]; subst.
  inversion Hnd as [|? ? Hnotin Hnd']; subst.
  destruct k as [|k]; simpl in Hk.
  - injection Hk as ->. simpl.
    rewrite Z.ltb_irrefl.
    rewrite filter_none; [reflexivity|].
    revert Hall. apply List.Forall_impl. unfold byTrackNumber.
    intros t Ht. now apply Z.ltb_ge.
  - simpl.
    assert (Hin : In x l).
    { apply list_elem_of_In, list_elem_of_lookup. eauto. }
    assert (Hlt : (track_number a < track_number x)%Z).
    { rewrite List.Forall_forall in Hall. specialize (Hall x Hin).
      unfold byTrackNumber in Hall.
      assert (track_number a <> track_number x).
      { intros Heq. apply Hnotin. rewrite Heq.
        apply list_elem_of_In. now apply List.in_map. }
      lia. }
    apply Z.ltb_lt in Hlt. rewrite Hlt. simpl. f_equal. now apply IH.
Qed.

End Inference.

Section InferenceTheorems.
Import AlbumTracksTable.

Lemma filter_length_perm {A} (p : A -> bool) (l l' : list A) :
  Permutation l l' -> length (List.filter p l) = length (List.filter p l').
Proof.
  induction 1 as [|x l l' _ IH|x y l|l l' l'' _ IH1 _ IH2]; simpl.
  - reflexivity.
  - destruct (p x); simpl; congruence.
  - destruct (p x), (p y); reflexivity.
  - congruence.
Qed.

Lemma NoDup_map_filter {A B} (f : A -> B) (p : A -> bool) (l : list A) :
  NoDup (List.map f l) -> NoDup (List.map f (List.filter p l)).
Proof.
  induction l as [|x l IH]; simpl; intros Hnd; [constructor|].
  inversion Hnd as [|? ? Hnotin Hnd']; subst.
  destruct (p x); simpl; [|now apply IH].
  constructor; [|now apply IH].
  intros Hin. apply Hnotin.
  apply list_elem_of_In in Hin. apply list_elem_of_In.
  apply List.in_map_iff in Hin. destruct Hin as (y & Hy & Hin).
  apply List.filter_In in Hin. rewrite <- Hy. apply List.in_map. tauto.
Qed.

Lemma NoDup_map_perm {A B} (f : A -> B) (l l' : list A) :
  Permutation l l' -> NoDup (List.map f l) -> NoDup (List.map f l').
Proof.
  intros Hp Hnd. apply (Permutation_map f) in Hp. now rewrite <- Hp.
Qed.

Lemma strictEq_refl a : strictEq a a = true.
Proof. unfold strictEq. now apply bool_decide_eq_true. Qed.

(** A parsed track belongs to its own group. *)
Lemma sameWork_self track p :
  parsed track = Some p ->
  sameWork (album_id (album track)) (catalogSystem p) (catalogNumber p)
    (composerName p) track = true.
Proof.
  intros Hp. unfold sameWork. rewrite Hp.
  rewrite bool_decide_eq_true_2 by reflexivity. simpl.
  now rewrite !strictEq_refl.
Qed.

(** The number derived from a sorted group for one of its members, when
    identifiers are distinct, is its 1-based index. *)
Lemma positionIn_member (group : list TrackData) (track : TrackData) :
  In track group -> NoDup (List.map id group) ->
  exists k, positionIn (sortByTrackNumber group) track = Z.of_nat (S k)
            /\ sortByTrackNumber group !! k = Some track.
Proof.
  intros Hin Hnd.
  pose proof (sortByTrackNumber_perm group) as Hperm.
  destruct (findIndex_member (sortByTrackNumber group) track) as (k & Hk & Hlk).
  - eapply Permutation_in; [symmetry; exact Hperm | exact Hin].
  - eapply NoDup_map_perm; [symmetry; exact Hperm | exact Hnd].
  - exists k. split; [|exact Hlk].
    unfold positionIn. rewrite Hk.
    destruct (1 <? Z.of_nat (length (sortByTrackNumber group)))%Z eqn:Hlen.
    + destruct (0 <=? Z.of_nat k)%Z eqn:Hpos; [lia|].
      apply Z.leb_gt in Hpos. lia.
    + apply Z.ltb_ge in Hlen. apply lookup_lt_Some in Hlk. lia.
Qed.

Lemma specSameWork_sameWork albumId system number composer t :
  specSameWork albumId system number composer t = true ->
  sameWork albumId system number composer t = true.
Proof.
  unfold specSameWork, sameWork. intros H.
  apply andb_true_iff in H. destruct H as [Halbum H]. rewrite Halbum.
  cbn. apply orb_true_iff in H. apply orb_true_iff.
  destruct H as [H | H]; [now left | right].
  destruct (dbData t) as [d|]; [|discriminate].
  apply existsb_exists in H. destruct H as (w & Hw & H).
  apply existsb_exists. exists w. split; [exact Hw|].
  apply andb_true_iff in H. tauto.
Qed.

(** C1.  The inference on a parsed track of Beethoven's Op. 2 at position 2
    that is loaded together with a track of the same album, at position 1,
    linked in the store to Brahms's Op. 2.  The parser gave the track no
    movement number; the loaded tracks that share its album and its
    (catalog system, catalog number, composer name) are the track alone, a
    group of one member; yet [getInferredMovement] gives 2 and not 1, for
    the test on the links of the store compares the catalog system and
    number and leaves the composer out.  The test on parsed data does
    compare the composer: with the same work of Brahms known from the
    parser the inference gives 1.  The tracks that the code groups always
    include those that share all three; and for tracks at positions 5, 3, 7
    known from the parser the numbers are 2, 1, 3. *)
Theorem inference_counts_other_composer :
  In parsedTrack [linkedTrack; parsedTrack]
  /\ parsed parsedTrack = Some parsedOp2
  /\ movement parsedOp2 = None
  /\ specGroup [linkedTrack; parsedTrack] parsedTrack parsedOp2 = [parsedTrack]
  /\ getInferredMovement [linkedTrack; parsedTrack] parsedTrack = Some 2%Z
  /\ getInferredMovement [parsedBrahmsTrack; parsedTrack] parsedTrack = Some 1%Z
  /\ (forall tracks track p t,
        In t (specGroup tracks track p) ->
        In t (List.filter
                (sameWork (album_id (album track)) (catalogSystem p)
                   (catalogNumber p) (composerName p)) tracks))
  /\ List.map (getInferredMovement exampleTracks) exampleTracks
     = [Some 2%Z; Some 1%Z; Some 3%Z].
Proof.
  split; [simpl; tauto|].
  do 5 (split; [vm_compute; reflexivity|]).
  split; [|vm_compute; reflexivity].
  intros tracks track p t Hin. unfold specGroup in Hin.
  apply List.filter_In in Hin. apply List.filter_In.
  split; [tauto|]. apply specSameWork_sameWork. tauto.
Qed.

End InferenceTheorems.

(** ** The album year *)

Section Year.
Import Prim Actions.

Lemma decValue_digit c : isDigit c = true -> decValue c = Some (digitValue c).
Proof. unfold decValue. now intros ->. Qed.

Lemma readDigits_all ds : forall acc rest,
  Forall (fun c => isDigit c = true) ds ->
  match rest with [] => True | c :: _ => isDigit c = false end ->
  ds <> [] ->
  readDigits 10 decValue acc (ds ++ rest)
  = Some (fold_left (fun a c => (a * 10 + digitValue c)%Z) ds
            (match acc with Some a => a | None => 0%Z end)).
Proof.
  induction ds as [|d ds IH]; intros acc rest Hall Hrest Hne; [congruence|].
  inversion Hall as [|? ? Hd Hall']; subst. simpl.
  rewrite (decValue_digit d Hd).
  destruct ds as [|d' ds'].
  - simpl. destruct rest as [|c rest]; simpl.
    + destruct acc; f_equal; lia.
    + unfold decValue at 1. rewrite Hrest. destruct acc; f_equal; lia.
  - rewrite IH; [|assumption|assumption|discriminate].
    destruct acc; simpl; f_equal; f_equal; lia.
Qed.

Lemma firstSegment_digits ds rest :
  Forall (fun c => isDigit c = true) ds ->
  match rest with [] => True | c :: _ => c = 45 end ->
  firstSegment (ds ++ rest) = ds.
Proof.
  intros Hall Hrest. induction Hall as [|d ds Hd _ IH]; simpl.
  - destruct rest as [|c rest]; [reflexivity|]. now subst.
  - destruct (isHyphen d) eqn:Hh; [exfalso; class_arith; lia|]. now rewrite IH.
Qed.

Lemma toNumber_exact z : (Z.abs z <= 2 ^ 53)%Z -> toNumber z = Int z.
Proof. intros H. unfold toNumber. apply Z.leb_le in H. now rewrite H. Qed.

Lemma parseInt_digits ds :
  Forall (fun c => isDigit c = true) ds -> ds <> [] ->
  parseInt ds = toNumber (decimalValue ds).
Proof.
  intros Hall Hne. unfold parseInt.
  destruct ds as [|d ds]; [congruence|].
  inversion Hall as [|? ? Hd Hall']; subst.
  assert (Hsp : isSpace d = false).
  { destruct (isSpace d) eqn:Hs; [exfalso; class_arith; lia | reflexivity]. }
  simpl trimStart. rewrite Hsp. cbv zeta.
  assert (H45 : (d =? 45) = false) by (apply N.eqb_neq; class_arith; lia).
  assert (H43 : (d =? 43) = false) by (apply N.eqb_neq; class_arith; lia).
  rewrite H45, H43. cbv beta iota. simpl orb. cbv iota.
  assert (Hread : readDigits 10 decValue None (d :: ds)
                  = Some (decimalValue (d :: ds))).
  { rewrite <- (app_nil_r (d :: ds)) at 1. now rewrite readDigits_all. }
  assert (Hdec : match ds with
                 | b :: r =>
                     if (d =? 48) && ((b =? 120) || (b =? 88))
                     then readDigits 16 hexValue None r
                     else readDigits 10 decValue None (d :: ds)
                 | [] => readDigits 10 decValue None (d :: ds)
                 end = Some (decimalValue (d :: ds))).
  { destruct ds as [|b r]; [exact Hread|].
    inversion Hall' as [|? ? Hb _]; subst.
    assert ((b =? 120) = false) as -> by (apply N.eqb_neq; class_arith; lia).
    assert ((b =? 88) = false) as -> by (apply N.eqb_neq; class_arith; lia).
    rewrite andb_false_r. exact Hread. }
  rewrite Hdec. f_equal. lia.
Qed.

Lemma decimalValue_nonneg ds :
  Forall (fun c => isDigit c = true) ds -> (0 <= decimalValue ds)%Z.
Proof.
  intros Hall. unfold decimalValue.
  assert (Hacc : forall a, (0 <= a)%Z ->
            (0 <= fold_left (fun acc c => acc * 10 + digitValue c) ds a)%Z);
    [|apply Hacc; lia].
  induction Hall as [|d ds Hd _ IH]; intros a Ha; simpl; [exact Ha|].
  apply IH. assert (0 <= digitValue d)%Z by (unfold digitValue; class_arith; lia).
  lia.
Qed.

End Year.

(** ** Running the actions *)

Ltac run_monad :=
  unfold Actions.checkAuth, Actions.getSpotifyAccessToken,
    Prim.getSession, Prim.getAccessToken, Prim.fetch, Prim.json, Prim.prop,
    Prim.commit, Prim.duplicateKey, Http.fail, Http.requestJson,
    tryCatch, bind, ret, throw, ask, getStore, emit in *.

Section YearTheorems.
Import Prim Actions.
Context {U : UnicodeLower} {Sch : Store.Schema}.

(** When the operator is signed in and holds a token, the provider answers
    with a JSON value and the schema admits the row, [addAlbumToDatabase]
    resolves and has written the row with the derived year. *)
Lemma addAlbumToDatabase_writes (env : Env) (w : World) (albumData : AlbumData)
  (ses : Session) (tok : jsstring) (st : Z) (j : Json) :
  session env = Some ses ->
  user_name (user ses) = operator ->
  accessToken env (user_id (user ses)) = Some tok ->
  tok <> [] ->
  provider env (lit "https://api.spotify.com/v1/albums/" ++ album_id albumData) tok
  = Fetched {| status := st; body := JsonValue j |} ->
  let store' :=
    Store.withSpotifyAlbum (store w)
      (<[album_id albumData := albumRowOf albumData (popularity j)]>
         (Store.spotifyAlbum (store w))) in
  Store.admissible store' = true ->
  addAlbumToDatabase albumData env w
  = (Ok {| success := true;
           message := lit "Added album " ++ [34] ++ album_name albumData
                        ++ [34] ++ lit " to database" |},
     {| store := store';
        trace := StoreWrite Store.TSpotifyAlbum
                 :: ProviderFetch
                      (lit "https://api.spotify.com/v1/albums/" ++ album_id albumData) tok
                 :: TokenRequest (user_id (user ses)) :: trace w |}).
Proof.
  intros Hses Hname Htok Hne Hprov store' Hadm.
  unfold addAlbumToDatabase, upsertSpotifyAlbum. run_monad.
  rewrite Hses. rewrite bool_decide_eq_true_2 by exact Hname. cbn.
  rewrite Htok. destruct tok as [|c tok]; [congruence|]. cbn.
  rewrite Hprov. cbn.
  fold (albumRowOf albumData (popularity j)). fold store'.
  now rewrite Hadm.
Qed.

(** When the schema refuses the row, the action throws and the store is
    as it was. *)
Lemma addAlbumToDatabase_refused (env : Env) (w : World) (albumData : AlbumData)
  (ses : Session) (tok : jsstring) (st : Z) (j : Json) :
  session env = Some ses ->
  user_name (user ses) = operator ->
  accessToken env (user_id (user ses)) = Some tok ->
  tok <> [] ->
  provider env (lit "https://api.spotify.com/v1/albums/" ++ album_id albumData) tok
  = Fetched {| status := st; body := JsonValue j |} ->
  Store.admissible
    (Store.withSpotifyAlbum (store w)
       (<[album_id albumData := albumRowOf albumData (popularity j)]>
          (Store.spotifyAlbum (store w)))) = false ->
  addAlbumToDatabase albumData env w
  = (Throw (lit "Failed to add album to database"),
     {| store := store w;
        trace := StoreWrite Store.TSpotifyAlbum
                 :: ProviderFetch
                      (lit "https://api.spotify.com/v1/albums/" ++ album_id albumData) tok
                 :: TokenRequest (user_id (user ses)) :: trace w |}).
Proof.
  intros Hses Hname Htok Hne Hprov Hadm.
  unfold addAlbumToDatabase, upsertSpotifyAlbum. run_monad.
  rewrite Hses. rewrite bool_decide_eq_true_2 by exact Hname. cbn.
  rewrite Htok. destruct tok as [|c tok]; [congruence|]. cbn.
  rewrite Hprov. cbn.
  fold (albumRowOf albumData (popularity j)).
  now rewrite Hadm.
Qed.

End YearTheorems.

Section YearClaim.
Import Prim Actions.

Lemma albumYear_digits ds rest :
  ds <> [] -> Forall (fun c => isDigit c = true) ds ->
  (decimalValue ds <= 2 ^ 53)%Z ->
  rest = [] \/ (exists r, rest = 45 :: r) ->
  albumYear (ds ++ rest) = Some (Int (decimalValue ds)).
Proof.
  intros Hne Hall Hbound Hrest. unfold albumYear.
  destruct (ds ++ rest) as [|c l] eqn:Happ.
  - apply app_eq_nil in Happ. tauto.
  - rewrite <- Happ. rewrite firstSegment_digits; [|assumption|].
    + rewrite parseInt_digits by assumption. f_equal. apply toNumber_exact.
      pose proof (decimalValue_nonneg ds Hall). lia.
    + destruct Hrest as [-> | [r ->]]; [exact I | reflexivity].
Qed.

Lemma albumYear_no_digit c r :
  isDigit c = false -> isSpace c = false -> c <> 43 ->
  albumYear (c :: r) = Some NaN.
Proof.
  intros Hd Hs Hplus. unfold albumYear. f_equal. simpl firstSegment.
  destruct (isHyphen c) eqn:Hh; [reflexivity|].
  unfold parseInt. simpl trimStart. rewrite Hs. cbv zeta.
  assert ((c =? 45) = false) as -> by exact Hh.
  assert ((c =? 43) = false) as -> by now apply N.eqb_neq.
  cbv beta iota. simpl orb. cbv iota.
  assert (Hread : forall l, readDigits 10 decValue None (c :: l) = None).
  { intros l. simpl. unfold decValue. now rewrite Hd. }
  destruct (firstSegment r) as [|b l].
  - now rewrite Hread.
  - assert ((c =? 48) = false) as ->.
    { apply N.eqb_neq. intros ->. discriminate. }
    simpl andb. cbv iota. now rewrite Hread.
Qed.

(** C2.  The year of an album whose release date cannot be read as a
    year.  For the release date "unknown" the segment before the first
    hyphen is "unknown" and the year that [addAlbumToDatabase] derives is
    NaN, not null.  The action hands that row to the store: where the
    schema admits it the action resolves and the stored year is NaN, and
    where the schema refuses it the action throws "Failed to add album to
    database" and nothing is stored; in neither case is null stored.  The
    guard of the code yields null for the empty release date only; a
    segment of digits (up to 2^53) gives that number, and a release date
    that starts with a unit that is neither a digit, white space nor a plus
    sign gives NaN. *)
Theorem unparseable_year_is_not_null {Sch : Store.Schema} :
  firstSegment (release_date undatedAlbum) = lit "unknown"
  /\ albumYear (release_date undatedAlbum) = Some NaN
  /\ albumYear (release_date undatedAlbum) <> None
  /\ (Store.admissible
        (albumWritten Store.empty (albumRowOf undatedAlbum None)) = true ->
      exists w',
        addAlbumToDatabase undatedAlbum operatorEnv emptyWorld
        = (Ok (albumAdded undatedAlbum), w')
        /\ Store.album_year <$> (Store.spotifyAlbum (store w') !! lit "a2")
           = Some (Some NaN))
  /\ (Store.admissible
        (albumWritten Store.empty (albumRowOf undatedAlbum None)) = false ->
      exists w',
        addAlbumToDatabase undatedAlbum operatorEnv emptyWorld
        = (Throw (lit "Failed to add album to database"), w')
        /\ store w' = Store.empty)
  /\ albumYear [] = None
  /\ (forall ds rest,
        ds <> [] -> Forall (fun c => isDigit c = true) ds ->
        (decimalValue ds <= 2 ^ 53)%Z ->
        rest = [] \/ (exists r, rest = 45 :: r) ->
        albumYear (ds ++ rest) = Some (Int (decimalValue ds)))
  /\ (forall c r,
        isDigit c = false -> isSpace c = false -> c <> 43 ->
        albumYear (c :: r) = Some NaN).
Proof.
  split; [reflexivity|]. split; [reflexivity|]. split; [discriminate|].
  split; [|split].
  - intros Hadm. eexists. split.
    + apply (addAlbumToDatabase_writes operatorEnv emptyWorld undatedAlbum
               operatorSession (lit "token") 200%Z emptyJson);
        try reflexivity; [discriminate | exact Hadm].
    + cbn. rewrite lookup_insert_eq. reflexivity.
  - intros Hadm. eexists. split.
    + apply (addAlbumToDatabase_refused operatorEnv emptyWorld undatedAlbum
               operatorSession (lit "token") 200%Z emptyJson);
        try reflexivity; [discriminate | exact Hadm].
    + reflexivity.
  - split; [reflexivity|]. split; [exact albumYear_digits | exact albumYear_no_digit].
Qed.

End YearClaim.

(** ** The store statements *)

Arguments Prim.insertComposer : simpl never.
Arguments Prim.upsertSpotifyAlbum : simpl never.
Arguments Prim.upsertSpotifyArtist : simpl never.
Arguments Prim.upsertSpotifyTrack : simpl never.
Arguments Prim.upsertWork : simpl never.
Arguments Prim.upsertMovement : simpl never.
Arguments Prim.insertTrackArtist : simpl never.
Arguments Prim.insertTrackMovement : simpl never.
Arguments Prim.commit : simpl never.
Arguments composerSlug : simpl never.
Arguments workIdOf : simpl never.
Arguments movementIdOf : simpl never.
Arguments albumYear : simpl never.

Section Statements.
Import Prim.
Context {Sch : Store.Schema}.

(** A statement either takes effect or is rejected and leaves the store as
    it was; in both cases it is recorded. *)
Lemma commit_cases tb s' env w :
  (Store.admissible s' = true
   /\ commit tb s' env w = (Ok tt, {| store := s'; trace := StoreWrite tb :: trace w |}))
  \/ (Store.admissible s' = false
      /\ commit tb s' env w = (Throw (lit "constraint violation"), logged tb w)).
Proof.
  unfold commit, logged. destruct (Store.admissible s'); [left | right]; tauto.
Qed.

Lemma insertComposer_fresh row env w :
  Store.composer (store w) !! Store.composer_id row = None ->
  insertComposer row env w
  = commit Store.TComposer
      (Store.withComposer (store w)
         (<[Store.composer_id row := row]> (Store.composer (store w)))) env w.
Proof. intros H. unfold insertComposer. run_monad. now rewrite H. Qed.

Lemma insertComposer_duplicate row env w :
  is_Some (Store.composer (store w) !! Store.composer_id row) ->
  insertComposer row env w
  = (Throw (lit "duplicate key"), logged Store.TComposer w).
Proof.
  intros [old H]. unfold insertComposer, logged. run_monad. now rewrite H.
Qed.

(** A successful plain insert found the key free and added the row. *)
Lemma insertComposer_Ok row env w w' :
  insertComposer row env w = (Ok tt, w') ->
  Store.composer (store w) !! Store.composer_id row = None
  /\ Store.composer (store w') !! Store.composer_id row = Some row
  /\ trace w' = StoreWrite Store.TComposer :: trace w.
Proof.
  intros H.
  destruct (Store.composer (store w) !! Store.composer_id row) as [old|] eqn:Hl.
  - rewrite insertComposer_duplicate in H by (rewrite Hl; eauto). discriminate.
  - split; [reflexivity|]. rewrite insertComposer_fresh in H by exact Hl.
    destruct (commit_cases Store.TComposer
                (Store.withComposer (store w)
                   (<[Store.composer_id row := row]> (Store.composer (store w))))
                env w) as [[_ Hc] | [_ Hc]]; rewrite Hc in H; [|discriminate].
    injection H as <-. cbn. split; [apply lookup_insert_eq | reflexivity].
Qed.

End Statements.

(** ** Creating a composer *)

Section ComposerInsert.
Import Prim Actions Http.
Context {U : UnicodeLower} {Sch : Store.Schema}.

(** Past the access gate, [addComposer] is the plain insert with its
    failure renamed. *)
Lemma addComposer_authorized spotifyArtistId name env w ses :
  session env = Some ses -> user_name (user ses) = operator ->
  addComposer spotifyArtistId name env w
  = match insertComposer (composerRowOf spotifyArtistId name) env w with
    | (Ok _, w') =>
        (Ok {| composer_success := true;
               composer := composerRowOf spotifyArtistId name |}, w')
    | (Throw _, w') => (Throw (lit "Failed to add composer"), w')
    end.
Proof.
  intros Hses Hname. unfold addComposer.
  unfold Prim.getSession, tryCatch, bind, ret, throw, ask.
  rewrite Hses. rewrite bool_decide_eq_true_2 by exact Hname. cbn.
  fold (composerRowOf spotifyArtistId name).
  destruct (insertComposer (composerRowOf spotifyArtistId name) env w)
    as [[[]|e] w']; reflexivity.
Qed.

Lemma addComposer_Ok spotifyArtistId name env w r w' :
  addComposer spotifyArtistId name env w = (Ok r, w') ->
  (exists ses, session env = Some ses /\ user_name (user ses) = operator)
  /\ insertComposer (composerRowOf spotifyArtistId name) env w = (Ok tt, w')
  /\ r = {| composer_success := true;
            composer := composerRowOf spotifyArtistId name |}.
Proof.
  intros H.
  destruct (session env) as [ses|] eqn:Hses.
  - destruct (decide (user_name (user ses) = operator)) as [Hname|Hname].
    + rewrite (addComposer_authorized _ _ _ _ ses Hses Hname) in H.
      destruct (insertComposer (composerRowOf spotifyArtistId name) env w)
        as [[[]|e] w1]; [|discriminate].
      injection H as <- <-. eauto.
    + exfalso. unfold addComposer in H.
      unfold Prim.getSession, tryCatch, bind, ret, throw, ask in H.
      rewrite Hses in H. rewrite bool_decide_eq_false_2 in H by exact Hname.
      discriminate.
  - exfalso. unfold addComposer in H.
    unfold Prim.getSession, tryCatch, bind, ret, throw, ask in H.
    rewrite Hses in H. discriminate.
Qed.

Lemma composerPOST_authorized a name env w ses :
  session env = Some ses -> user_name (user ses) = operator ->
  a <> [] -> name <> [] ->
  ComposerRoute.POST
    (Some {| ComposerRoute.req_spotifyArtistId := Some a;
             ComposerRoute.req_name := Str name |}) env w
  = match insertComposer (composerRowOf a name) env w with
    | (Ok _, w') =>
        (Ok {| code := 200; payload := Success (composerRowOf a name) |}, w')
    | (Throw _, w') =>
        (Ok {| code := 500; payload := Error (lit "Failed to add composer") |}, w')
    end.
Proof.
  intros Hses Hname Ha Hn. unfold ComposerRoute.POST.
  unfold Prim.getSession, Http.fail, Http.requestJson, tryCatch, bind, ret,
    throw, ask.
  rewrite Hses. rewrite bool_decide_eq_true_2 by exact Hname. cbn.
  destruct a as [|c r]; [congruence|]. destruct name as [|c' r']; [congruence|].
  fold (composerRowOf (c :: r) (c' :: r')).
  destruct (insertComposer (composerRowOf (c :: r) (c' :: r')) env w)
    as [[[]|e] w']; reflexivity.
Qed.

Lemma composerPOST_created request env w row w' :
  ComposerRoute.POST request env w
  = (Ok {| code := 200; payload := Success row |}, w') ->
  exists ses a name,
    session env = Some ses /\ user_name (user ses) = operator
    /\ a <> [] /\ name <> []
    /\ request = Some {| ComposerRoute.req_spotifyArtistId := Some a;
                         ComposerRoute.req_name := Str name |}
    /\ row = composerRowOf a name
    /\ insertComposer (composerRowOf a name) env w = (Ok tt, w').
Proof.
  intros H. unfold ComposerRoute.POST in H.
  unfold Prim.getSession, Http.fail, Http.requestJson, tryCatch, bind, ret,
    throw, ask in H.
  destruct (session env) as [ses|] eqn:Hses; [|discriminate].
  destruct (decide (user_name (user ses) = operator)) as [Hname|Hname].
  2:{ rewrite bool_decide_eq_false_2 in H by exact Hname. discriminate. }
  rewrite bool_decide_eq_true_2 in H by exact Hname. cbn in H.
  destruct request as [[[[|c r]|] [| |[|c' r']]]|]; cbn in H; try discriminate.
  fold (composerRowOf (c :: r) (c' :: r')) in H.
  destruct (insertComposer (composerRowOf (c :: r) (c' :: r')) env w)
    as [[[]|e] w1] eqn:Hins; [|discriminate].
  injection H as <- <-.
  exists ses, (c :: r), (c' :: r'). repeat split; try assumption; discriminate.
Qed.

(** C3.  Creating a composer is a plain insert.  After a call that created
    a composer, a second call with the same name -- with the same or with
    another provider artist -- is rejected for the duplicate key: the action
    throws "Failed to add composer", the endpoint answers 500, and the row
    of the first call stays as it was. *)
Theorem composer_insert_twice_fails :
  (forall (env : Env) (w w1 : World) (a1 a2 name : jsstring) (r : ComposerResult),
      addComposer a1 name env w = (Ok r, w1) ->
      addComposer a2 name env w1
      = (Throw (lit "Failed to add composer"), logged Store.TComposer w1)
      /\ Store.composer (store w1) !! composerSlug name
         = Some (composerRowOf a1 name))
  /\ (forall (env : Env) (w w1 : World) (a1 a2 name : jsstring)
             (row : Store.ComposerRow),
        ComposerRoute.POST
          (Some {| ComposerRoute.req_spotifyArtistId := Some a1;
                   ComposerRoute.req_name := Str name |}) env w
        = (Ok {| code := 200; payload := Success row |}, w1) ->
        a2 <> [] ->
        ComposerRoute.POST
          (Some {| ComposerRoute.req_spotifyArtistId := Some a2;
                   ComposerRoute.req_name := Str name |}) env w1
        = (Ok {| code := 500; payload := Error (lit "Failed to add composer") |},
           logged Store.TComposer w1)
        /\ Store.composer (store w1) !! composerSlug name
           = Some (composerRowOf a1 name)).
Proof.
  split.
  - intros env w w1 a1 a2 name r H.
    apply addComposer_Ok in H. destruct H as ((ses & Hses & Hname) & Hins & _).
    apply insertComposer_Ok in Hins. destruct Hins as (_ & Hrow & _).
    split; [|exact Hrow].
    rewrite (addComposer_authorized _ _ _ _ ses Hses Hname).
    rewrite insertComposer_duplicate; [reflexivity|].
    cbn. cbn in Hrow. rewrite Hrow. eauto.
  - intros env w w1 a1 a2 name row H Ha2.
    apply composerPOST_created in H.
    destruct H as (ses & a & n & Hses & Hname & Ha & Hn & Hreq & _ & Hins).
    injection Hreq as <- <-.
    apply insertComposer_Ok in Hins. destruct Hins as (_ & Hrow & _).
    split; [|exact Hrow].
    rewrite (composerPOST_authorized _ _ _ _ ses Hses Hname Ha2 Hn).
    rewrite insertComposer_duplicate; [reflexivity|].
    cbn. cbn in Hrow. rewrite Hrow. eauto.
Qed.

End ComposerInsert.

(** The operator creates Beethoven twice, for two provider artists: the
    second call fails. *)
Lemma composer_insert_twice_fails_witness :
  exists w1,
    Actions.addComposer (lit "artist1") (lit "Ludwig van Beethoven")
      operatorEnv emptyWorld
    = (Ok {| Actions.composer_success := true;
             Actions.composer :=
               composerRowOf (lit "artist1") (lit "Ludwig van Beethoven") |}, w1)
    /\ Actions.addComposer (lit "artist2") (lit "Ludwig van Beethoven")
         operatorEnv w1
       = (Throw (lit "Failed to add composer"), logged Store.TComposer w1).
Proof.
  eexists. split.
  - reflexivity.
  - apply (proj1 (@composer_insert_twice_fails keepOther freeSchema)
             operatorEnv emptyWorld _ (lit "artist1") (lit "artist2")
             (lit "Ludwig van Beethoven") _ eq_refl).
Defined.

(** ** Edge cases of the composer slug *)

Section SlugEdges.
Import Prim Actions.
Context {U : UnicodeLower}.

Lemma lowerUnit_space pre c post : isSpace c = true -> lowerUnit pre c post = [c].
Proof.
  intros Hs. unfold lowerUnit.
  destruct (isUpper c) eqn:Hu; [exfalso; class_arith; lia|].
  destruct (c <? 128); [reflexivity|]. now rewrite Hs.
Qed.

Lemma space_kept c : isSpace c = true -> keptBySlug c = true.
Proof. unfold keptBySlug. intros ->. now rewrite !orb_true_r. Qed.

(** A run of the class at the end of the string leaves the replacement at
    the end of the result (unless the whole string continues a run). *)
Lemma replaceRuns_last p h c s : p c = true -> forall b,
  (b = true /\ replaceRuns p [h] b (s ++ [c]) = [])
  \/ (exists z, replaceRuns p [h] b (s ++ [c]) = z ++ [h]).
Proof.
  intros Hc. induction s as [|y s IH]; intros b; simpl.
  - rewrite Hc. destruct b; [left; tauto | right; now exists []].
  - destruct (p y).
    + destruct b.
      * apply IH.
      * right. destruct (IH true) as [[_ ->] | [z ->]];
          [now exists [] | now exists (h :: z)].
    + right. destruct (IH false) as [[? _] | [z ->]]; [discriminate|].
      now exists (y :: z).
Qed.

Lemma lowerFrom_last_space c s : isSpace c = true -> forall pre,
  exists x, lowerFrom pre (s ++ [c]) = x ++ [c].
Proof.
  intros Hc. induction s as [|y s IH]; intros pre; simpl.
  - rewrite lowerUnit_space by assumption. now exists [].
  - destruct (IH (y :: pre)) as [x ->].
    exists (lowerUnit pre y (s ++ [c]) ++ x). now rewrite app_assoc.
Qed.

Lemma composerSlug_leading_space c r :
  isSpace c = true -> exists s, composerSlug (c :: r) = 45 :: s.
Proof.
  intros Hc. rewrite composerSlug_body. unfold slugBody, toLowerCase, removeOutside.
  simpl lowerFrom. rewrite lowerUnit_space by assumption.
  simpl. rewrite space_kept by assumption. simpl. rewrite Hc.
  simpl. eauto.
Qed.

Lemma composerSlug_trailing_space r c :
  isSpace c = true -> exists s, composerSlug (r ++ [c]) = s ++ [45].
Proof.
  intros Hc. rewrite composerSlug_body. unfold slugBody, toLowerCase, removeOutside.
  destruct (lowerFrom_last_space c r Hc []) as [x ->].
  rewrite List.filter_app. simpl. rewrite space_kept by assumption.
  destruct (replaceRuns_last isSpace 45 c (List.filter keptBySlug x) Hc false)
    as [[? _] | [z ->]]; [discriminate|].
  destruct (replaceRuns_last isHyphen 45 45 z eq_refl false)
    as [[? _] | [z' ->]]; [discriminate|].
  eauto.
Qed.

Lemma lowerUnit_symbol pre c post :
  plainSymbol c ->
  Forall (fun u => isLower u = false /\ isDigit u = false) (lowerUnit pre c post).
Proof.
  intros (Hal & H304 & H8490). unfold lowerUnit.
  unfold isAlnum in Hal.
  apply orb_false_elim in Hal. destruct Hal as [Hal Hdig].
  apply orb_false_elim in Hal. destruct Hal as [Hlow Hup].
  rewrite Hup.
  destruct (c <? 128) eqn:Hlt; [repeat constructor; assumption|].
  destruct (isSpace c); [repeat constructor; assumption|].
  destruct (c =? 304) eqn:E1; [apply N.eqb_eq in E1; congruence|].
  destruct (c =? 8490) eqn:E2; [apply N.eqb_eq in E2; congruence|].
  apply N.ltb_ge in Hlt.
  pose proof (lowerOther_nonascii pre c post Hlt) as Hna.
  revert Hna. apply List.Forall_impl. intros u Hu.
  split; class_arith.
  - destruct ((97 <=? u) && (u <=? 122)) eqn:E; [|reflexivity].
    exfalso. class_arith. lia.
  - destruct ((48 <=? u) && (u <=? 57)) eqn:E; [|reflexivity].
    exfalso. class_arith. lia.
Qed.

Lemma lowerFrom_symbols s : forall pre,
  Forall plainSymbol s ->
  Forall (fun u => isLower u = false /\ isDigit u = false) (lowerFrom pre s).
Proof.
  induction s as [|c s IH]; intros pre H; simpl; [constructor|].
  inversion H; subst. apply Forall_app. split.
  - now apply lowerUnit_symbol.
  - now apply IH.
Qed.

Lemma filter_kept_symbols s :
  Forall (fun u => isLower u = false /\ isDigit u = false) s ->
  Forall spaceOrHyphen (List.filter keptBySlug s).
Proof.
  induction 1 as [|c s [Hl Hd] _ IH]; simpl; [constructor|].
  destruct (keptBySlug c) eqn:Hk; [|assumption].
  constructor; [|assumption].
  unfold keptBySlug in Hk. rewrite Hl, Hd in Hk. simpl in Hk.
  apply orb_prop in Hk. destruct Hk as [Hk|Hk]; [now left|].
  right. now apply N.eqb_eq.
Qed.

Lemma spaces_to_hyphens s : forall b,
  Forall spaceOrHyphen s ->
  Forall (fun c => c = 45) (replaceRuns isSpace [45] b s).
Proof.
  induction s as [|c s IH]; intros b H; simpl; [constructor|].
  inversion H as [|? ? Hc Hs]; subst.
  destruct (isSpace c) eqn:Hsp.
  - destruct b; [now apply IH|]. constructor; [reflexivity | now apply IH].
  - destruct Hc as [Hc|Hc]; [congruence|]. constructor; [assumption | now apply IH].
Qed.

Lemma hyphens_collapse s :
  Forall (fun c => c = 45) s ->
  replaceRuns isHyphen [45] true s = []
  /\ (replaceRuns isHyphen [45] false s = []
      \/ replaceRuns isHyphen [45] false s = [45]).
Proof.
  induction 1 as [|c s -> _ [IHt IHf]]; simpl; [tauto|].
  rewrite IHt. tauto.
Qed.

Lemma composerSlug_symbols name :
  Forall plainSymbol name -> composerSlug name = [] \/ composerSlug name = [45].
Proof.
  intros H. rewrite composerSlug_body. unfold slugBody, toLowerCase, removeOutside.
  apply hyphens_collapse, spaces_to_hyphens, filter_kept_symbols,
    lowerFrom_symbols, H.
Qed.

End SlugEdges.

Section SlugEdgeClaim.
Import Prim Actions Http.

(** C10 (as amended).  White space becomes a hyphen before [trim] runs, so
    a name that starts (ends) with white space gets an identifier that
    starts (ends) with a hyphen; a name without ASCII letters or digits --
    and without U+0130 and U+212A, whose lower-case forms contain an ASCII
    letter -- gets the empty identifier or a single hyphen.  [addComposer]
    and the endpoint insert the row under that identifier as its primary
    key. *)
Theorem composer_slug_edge_cases {U : UnicodeLower} {Sch : Store.Schema} :
  (forall c r, isSpace c = true -> exists s, composerSlug (c :: r) = 45 :: s)
  /\ (forall r c, isSpace c = true -> exists s, composerSlug (r ++ [c]) = s ++ [45])
  /\ (forall name,
        Forall plainSymbol name ->
        composerSlug name = [] \/ composerSlug name = [45])
  /\ (forall (env : Env) (w : World) (ses : Session) (a name : jsstring),
        session env = Some ses ->
        user_name (user ses) = operator ->
        Store.composer (store w) !! composerSlug name = None ->
        Store.admissible
          (Store.withComposer (store w)
             (<[composerSlug name := composerRowOf a name]>
                (Store.composer (store w)))) = true ->
        (exists w',
            addComposer a name env w
            = (Ok {| composer_success := true; composer := composerRowOf a name |}, w')
            /\ Store.composer (store w') !! composerSlug name
               = Some (composerRowOf a name))
        /\ (a <> [] -> name <> [] ->
            exists w',
              ComposerRoute.POST
                (Some {| ComposerRoute.req_spotifyArtistId := Some a;
                         ComposerRoute.req_name := Str name |}) env w
              = (Ok {| code := 200; payload := Success (composerRowOf a name) |}, w')
              /\ Store.composer (store w') !! composerSlug name
                 = Some (composerRowOf a name))).
Proof.
  split; [exact composerSlug_leading_space|].
  split; [exact composerSlug_trailing_space|].
  split; [exact composerSlug_symbols|].
  intros env w ses a name Hses Hname Hfree Hadm.
  assert (Hins : insertComposer (composerRowOf a name) env w
                 = (Ok tt,
                    {| store := Store.withComposer (store w)
                                  (<[composerSlug name := composerRowOf a name]>
                                     (Store.composer (store w)));
                       trace := StoreWrite Store.TComposer :: trace w |})).
  { rewrite insertComposer_fresh by exact Hfree.
    destruct (commit_cases Store.TComposer
                (Store.withComposer (store w)
                   (<[Store.composer_id (composerRowOf a name) := composerRowOf a name]>
                      (Store.composer (store w)))) env w)
      as [[_ Hc] | [Hc _]]; [exact Hc|].
    cbn in Hc. congruence. }
  split.
  - eexists. rewrite (addComposer_authorized _ _ _ _ ses Hses Hname), Hins.
    split; [reflexivity|]. cbn. apply lookup_insert_eq.
  - intros Ha Hn. eexists.
    rewrite (composerPOST_authorized _ _ _ _ ses Hses Hname Ha Hn), Hins.
    split; [reflexivity|]. cbn. apply lookup_insert_eq.
Qed.

End SlugEdgeClaim.

(** " Bach", "Bach " and a Cyrillic name, which becomes the key of the
    inserted row. *)
Lemma composer_slug_edge_cases_witness :
  (exists s, composerSlug (lit " Bach") = 45 :: s)
  /\ (exists s, composerSlug (lit "Bach ") = s ++ [45])
  /\ (composerSlug cyrillicName = [] \/ composerSlug cyrillicName = [45])
  /\ exists w',
       Actions.addComposer (lit "artist1") cyrillicName operatorEnv emptyWorld
       = (Sys.Ok {| Actions.composer_success := true;
                    Actions.composer := composerRowOf (lit "artist1") cyrillicName |},
          w').
Proof.
  pose proof (@composer_slug_edge_cases keepOther freeSchema)
    as (Hlead & Htrail & Hsym & Hkey).
  split; [apply (Hlead 32 (lit "Bach")); reflexivity|].
  split; [apply (Htrail (lit "Bach") 32); reflexivity|].
  split.
  - apply Hsym. unfold cyrillicName, plainSymbol.
    repeat constructor; try reflexivity; discriminate.
  - destruct (Hkey operatorEnv emptyWorld operatorSession (lit "artist1")
                cyrillicName eq_refl eq_refl eq_refl eq_refl) as [(w' & Hrun & _) _].
    exists w'. exact Hrun.
Defined.

(** C10, counterexample.  The Kelvin sign, U+212A, is no ASCII letter or
    digit, but it lower-cases to "k": the name made of it gets the
    identifier "k", which is neither empty nor made of hyphens.  Likewise
    U+0130 gives "i". *)
Lemma composer_slug_counterexample :
  isAlnum 8490 = false
  /\ (forall U : UnicodeLower, @composerSlug U [8490] = lit "k")
  /\ lit "k" <> [] /\ lit "k" <> [45]
  /\ isAlnum 304 = false
  /\ (forall U : UnicodeLower, @composerSlug U [304] = lit "i").
Proof.
  repeat split; try reflexivity; discriminate.
Qed.

(** ** Work and movement identifiers *)

Section LinkStatements.
Import Prim.
Context {Sch : Store.Schema}.

Lemma upsertWork_run row env w :
  exists row',
    Store.work_id row' = Store.work_id row
    /\ upsertWork row env w
       = commit Store.TWork
           (Store.withWork (store w)
              (<[Store.work_id row := row']> (Store.work (store w)))) env w.
Proof.
  unfold upsertWork, bind, getStore. eexists. split; [|reflexivity].
  destruct (Store.work (store w) !! Store.work_id row); reflexivity.
Qed.

Lemma upsertMovement_run row env w :
  exists row',
    Store.movement_id row' = Store.movement_id row
    /\ upsertMovement row env w
       = commit Store.TMovement
           (Store.withMovement (store w)
              (<[Store.movement_id row := row']> (Store.movement (store w)))) env w.
Proof.
  unfold upsertMovement, bind, getStore. eexists. split; [|reflexivity].
  destruct (Store.movement (store w) !! Store.movement_id row); reflexivity.
Qed.

Lemma insertTrackMovement_run row env w :
  let k := (Store.tm_spotifyTrackId row, Store.tm_movementId row) in
  (is_Some (Store.trackMovement (store w) !! k)
   /\ insertTrackMovement row env w = (Ok tt, logged Store.TTrackMovement w))
  \/ (Store.trackMovement (store w) !! k = None
      /\ insertTrackMovement row env w
         = commit Store.TTrackMovement
             (Store.withTrackMovement (store w)
                (<[k := row]> (Store.trackMovement (store w)))) env w).
Proof.
  unfold insertTrackMovement, bind, getStore, emit, logged. cbn.
  destruct (Store.trackMovement (store w)
              !! (Store.tm_spotifyTrackId row, Store.tm_movementId row)) eqn:Hl.
  - left. split; [eauto | reflexivity].
  - right. split; reflexivity.
Qed.

Lemma sameOutside_refl W Mv L s : sameOutside W Mv L s s.
Proof. repeat split. Qed.

Lemma sameOutside_trans W Mv L s1 s2 s3 :
  sameOutside W Mv L s1 s2 -> sameOutside W Mv L s2 s3 -> sameOutside W Mv L s1 s3.
Proof.
  intros (A1 & B1 & C1) (A2 & B2 & C2). repeat split; intros k Hk.
  - now rewrite A2, A1.
  - now rewrite B2, B1.
  - now rewrite C2, C1.
Qed.

Lemma sameOutside_work W Mv L s row :
  sameOutside W Mv L s (Store.withWork s (<[W := row]> (Store.work s))).
Proof. repeat split. intros k Hk. cbn. now apply lookup_insert_ne. Qed.

Lemma sameOutside_movement W Mv L s row :
  sameOutside W Mv L s (Store.withMovement s (<[Mv := row]> (Store.movement s))).
Proof. repeat split. intros k Hk. cbn. now apply lookup_insert_ne. Qed.

Lemma sameOutside_link W Mv L s row :
  sameOutside W Mv L s
    (Store.withTrackMovement s (<[L := row]> (Store.trackMovement s))).
Proof. repeat split. intros k Hk. cbn. now apply lookup_insert_ne. Qed.

End LinkStatements.

Section LinkResults.
Import Prim Actions.
Context {U : UnicodeLower} {Sch : Store.Schema}.

Lemma commit_result tb s' env w r w1 :
  commit tb s' env w = (r, w1) ->
  (r = Ok tt /\ store w1 = s') \/ ((exists e, r = Throw e) /\ store w1 = store w).
Proof.
  intros H. destruct (commit_cases tb s' env w) as [[_ Hc] | [_ Hc]];
    rewrite Hc in H; injection H as <- <-; [left | right]; eauto.
Qed.

Lemma upsertWork_result row env w r w1 :
  upsertWork row env w = (r, w1) ->
  (r = Ok tt
   /\ exists row', Store.work_id row' = Store.work_id row
        /\ store w1 = Store.withWork (store w)
                        (<[Store.work_id row := row']> (Store.work (store w))))
  \/ ((exists e, r = Throw e) /\ store w1 = store w).
Proof.
  destruct (upsertWork_run row env w) as (row' & Hid & ->). intros H.
  apply commit_result in H. destruct H as [[-> Hs] | H]; [left | right; exact H].
  eauto.
Qed.

Lemma upsertMovement_result row env w r w1 :
  upsertMovement row env w = (r, w1) ->
  (r = Ok tt
   /\ exists row', Store.movement_id row' = Store.movement_id row
        /\ store w1 = Store.withMovement (store w)
                        (<[Store.movement_id row := row']> (Store.movement (store w))))
  \/ ((exists e, r = Throw e) /\ store w1 = store w).
Proof.
  destruct (upsertMovement_run row env w) as (row' & Hid & ->). intros H.
  apply commit_result in H. destruct H as [[-> Hs] | H]; [left | right; exact H].
  eauto.
Qed.

Lemma insertTrackMovement_result row env w r w1 :
  insertTrackMovement row env w = (r, w1) ->
  let k := (Store.tm_spotifyTrackId row, Store.tm_movementId row) in
  (r = Ok tt
   /\ is_Some (Store.trackMovement (store w1) !! k)
   /\ (store w1 = store w
       \/ store w1 = Store.withTrackMovement (store w)
                       (<[k := row]> (Store.trackMovement (store w)))))
  \/ ((exists e, r = Throw e) /\ store w1 = store w).
Proof.
  intros H k.
  destruct (insertTrackMovement_run row env w) as [[Hsome Hrun] | [Hnone Hrun]];
    rewrite Hrun in H.
  - injection H as <- <-. left. cbn. fold k.
    split; [reflexivity|]. split; [exact Hsome | now left].
  - apply commit_result in H. destruct H as [[-> Hs] | H]; [left | right; exact H].
    split; [reflexivity|]. rewrite Hs. cbn. fold k.
    split; [rewrite lookup_insert_eq; eauto | now right].
Qed.

Lemma addWorkMovementAndTrack_unfold data :
  addWorkMovementAndTrack data
  = (checkAuth ;;
     tryCatch (linkStatements data)
       (fun _ => throw (lit "Failed to add work, movement, and track"))).
Proof. reflexivity. Qed.

Lemma linkStatements_result data env w res w' :
  linkStatements data env w = (res, w') ->
  let W := workIdOf (composerId data) (catalogSystem data) (catalogNumber data) in
  let Mv := movementIdOf W (movementNumber data) in
  sameOutside W Mv (spotifyTrackId data, Mv) (store w) (store w')
  /\ (forall r, res = Ok r ->
        r = linkResultOf data
        /\ (exists wr, Store.work (store w') !! W = Some wr /\ Store.work_id wr = W)
        /\ (exists mr, Store.movement (store w') !! Mv = Some mr
                       /\ Store.movement_id mr = Mv)
        /\ is_Some (Store.trackMovement (store w') !! (spotifyTrackId data, Mv))).
Proof.
  intros H W Mv. unfold linkStatements, bind, ret in H.
  destruct (upsertWork (workRowOf data) env w) as [r1 w1] eqn:H1.
  apply upsertWork_result in H1.
  destruct H1 as [[-> (wr & Hwid & Hs1)] | [[e ->] Hs1]].
  2:{ injection H as <- <-. rewrite Hs1.
      split; [apply sameOutside_refl | discriminate]. }
  destruct (upsertMovement (movementRowOf data) env w1) as [r2 w2] eqn:H2.
  apply upsertMovement_result in H2.
  assert (Hout1 : sameOutside W Mv (spotifyTrackId data, Mv) (store w) (store w1)).
  { rewrite Hs1. apply sameOutside_work. }
  destruct H2 as [[-> (mr & Hmid & Hs2)] | [[e ->] Hs2]].
  2:{ injection H as <- <-. rewrite Hs2. split; [exact Hout1 | discriminate]. }
  assert (Hout2 : sameOutside W Mv (spotifyTrackId data, Mv) (store w) (store w2)).
  { eapply sameOutside_trans; [exact Hout1|]. rewrite Hs2. apply sameOutside_movement. }
  destruct (insertTrackMovement (linkRowOf data) env w2) as [r3 w3] eqn:H3.
  apply insertTrackMovement_result in H3. cbn in H3. fold W Mv in H3.
  destruct H3 as [(-> & Hsome & Hs3) | [[e ->] Hs3]].
  2:{ injection H as <- <-. rewrite Hs3. split; [exact Hout2 | discriminate]. }
  injection H as <- <-.
  assert (Hout3 : sameOutside W Mv (spotifyTrackId data, Mv) (store w2) (store w3)).
  { destruct Hs3 as [-> | ->]; [apply sameOutside_refl | apply sameOutside_link]. }
  split; [eapply sameOutside_trans; eassumption|].
  intros r [= <-]. split; [reflexivity|].
  assert (Hw3 : Store.work (store w3) = Store.work (store w1)
                /\ Store.movement (store w3) = Store.movement (store w2)).
  { destruct Hs3 as [-> | ->]; rewrite Hs2; split; reflexivity. }
  destruct Hw3 as [Hw3 Hm3]. rewrite Hw3, Hm3, Hs2, Hs1. cbn.
  split; [exists wr; split; [apply lookup_insert_eq | exact Hwid]|].
  split; [exists mr; split; [apply lookup_insert_eq | exact Hmid]|].
  exact Hsome.
Qed.

End LinkResults.

(** ** The access gate *)

Section Gate.
Import Prim Actions.

Lemma checkAuth_cases env w :
  (session env = None /\ checkAuth env w = (Throw (lit "Unauthorized"), w))
  \/ (exists ses, session env = Some ses /\ user_name (user ses) <> operator
        /\ checkAuth env w = (Throw (lit "Access denied"), w))
  \/ (exists ses, session env = Some ses /\ user_name (user ses) = operator
        /\ checkAuth env w = (Ok ses, w)).
Proof.
  unfold checkAuth, Prim.getSession, bind, ret, throw, ask.
  destruct (session env) as [ses|]; [|left; tauto].
  right. destruct (decide (user_name (user ses) = operator)) as [H|H].
  - right. exists ses. rewrite bool_decide_eq_true_2 by exact H. tauto.
  - left. exists ses. rewrite bool_decide_eq_false_2 by exact H. tauto.
Qed.

End Gate.

Section LinkClaim.
Import Prim Actions.

(** C5.  The work identifier is composerId/lowercase(catalogSystem)-catalogNumber
    and the movement identifier is that, a slash and the movement number.
    Whatever [addWorkMovementAndTrack] writes to the works and to the
    movements, it writes under these identifiers: every other key of the two
    tables is left as it was.  When the action resolves, it returns these
    identifiers and the rows are in the store under them; it does resolve
    for the operator when the schema admits the rows.  For "beethoven",
    "Op", "67" and movement 1 the identifiers are "beethoven/op-67" and
    "beethoven/op-67/1". *)
Theorem work_and_movement_identifiers {U : UnicodeLower} {Sch : Store.Schema} :
  (forall composerId catalogSystem catalogNumber movementNumber,
      workIdOf composerId catalogSystem catalogNumber
      = composerId ++ lit "/" ++ toLowerCase catalogSystem ++ lit "-" ++ catalogNumber
      /\ movementIdOf (workIdOf composerId catalogSystem catalogNumber) movementNumber
         = workIdOf composerId catalogSystem catalogNumber ++ lit "/"
             ++ numberToString movementNumber)
  /\ (forall (env : Env) (w w' : World) (data : WorkData) (res : Result LinkResult),
        addWorkMovementAndTrack data env w = (res, w') ->
        let W := workIdOf (composerId data) (catalogSystem data) (catalogNumber data) in
        let Mv := movementIdOf W (movementNumber data) in
        (forall k, k <> W -> Store.work (store w') !! k = Store.work (store w) !! k)
        /\ (forall k, k <> Mv ->
              Store.movement (store w') !! k = Store.movement (store w) !! k)
        /\ (forall r, res = Ok r ->
              workId r = W /\ movementId r = Mv
              /\ (exists wr, Store.work (store w') !! W = Some wr
                             /\ Store.work_id wr = W)
              /\ (exists mr, Store.movement (store w') !! Mv = Some mr
                             /\ Store.movement_id mr = Mv)))
  /\ (forall (env : Env) (w : World) (data : WorkData) (ses : Session),
        session env = Some ses ->
        user_name (user ses) = operator ->
        (forall s, Store.admissible s = true) ->
        exists w', addWorkMovementAndTrack data env w = (Ok (linkResultOf data), w'))
  /\ workIdOf (lit "beethoven") (lit "Op") (lit "67") = lit "beethoven/op-67"
  /\ movementIdOf (lit "beethoven/op-67") 1 = lit "beethoven/op-67/1".
Proof.
  split; [intros; split; reflexivity|].
  split; [|split; [|split; reflexivity]].
  - intros env w w' data res H W Mv.
    rewrite addWorkMovementAndTrack_unfold in H. unfold bind, tryCatch, throw in H.
    destruct (checkAuth_cases env w)
      as [[_ Hc] | [(ses & _ & _ & Hc) | (ses & _ & _ & Hc)]]; rewrite Hc in H.
    + injection H as <- <-. split; [tauto|]. split; [tauto | discriminate].
    + injection H as <- <-. split; [tauto|]. split; [tauto | discriminate].
    + destruct (linkStatements data env w) as [r1 w1] eqn:Hrun.
      apply linkStatements_result in Hrun. fold W Mv in Hrun.
      destruct Hrun as ((HA & HB & HC) & Hok).
      destruct r1 as [r|e]; injection H as <- <-.
      * split; [exact HA|]. split; [exact HB|].
        intros r' [= <-]. destruct (Hok r eq_refl) as (-> & Hwr & Hmr & _).
        split; [reflexivity|]. split; [reflexivity|]. split; assumption.
      * split; [exact HA|]. split; [exact HB | discriminate].
  - intros env w data ses Hses Hname Hadm.
    rewrite addWorkMovementAndTrack_unfold. unfold bind, tryCatch, throw.
    destruct (checkAuth_cases env w)
      as [[Hn _] | [(ses' & Hs & Hne & _) | (ses' & _ & _ & Hc)]];
      [congruence | congruence |].
    rewrite Hc. unfold linkStatements, bind, ret.
    destruct (upsertWork_run (workRowOf data) env w) as (wr & _ & ->).
    unfold commit at 1. rewrite Hadm.
    match goal with
    | |- context [upsertMovement ?row ?e ?w1] =>
        destruct (upsertMovement_run row e w1) as (mr & _ & ->)
    end.
    unfold commit at 1. rewrite Hadm.
    match goal with
    | |- context [insertTrackMovement ?row ?e ?w2] =>
        destruct (insertTrackMovement_run row e w2) as [[_ ->] | [_ ->]]
    end.
    + eexists. reflexivity.
    + unfold commit. rewrite Hadm. eexists. reflexivity.
Qed.

(** Beethoven's Op. 67, first movement, linked by the operator in an empty
    store. *)
Lemma work_and_movement_identifiers_witness :
  exists w',
    addWorkMovementAndTrack fifthSymphony operatorEnv emptyWorld
    = (Ok (linkResultOf fifthSymphony), w')
    /\ workId (linkResultOf fifthSymphony) = lit "beethoven/op-67"
    /\ movementId (linkResultOf fifthSymphony) = lit "beethoven/op-67/1"
    /\ is_Some (Store.work (store w') !! lit "beethoven/op-67")
    /\ is_Some (Store.movement (store w') !! lit "beethoven/op-67/1").
Proof.
  pose proof (@work_and_movement_identifiers keepOther freeSchema)
    as (_ & Hwritten & Hresolves & _).
  destruct (Hresolves operatorEnv emptyWorld fifthSymphony operatorSession
              eq_refl eq_refl (fun _ => eq_refl)) as [w' Hrun].
  exists w'. split; [exact Hrun|].
  destruct (Hwritten operatorEnv emptyWorld w' fifthSymphony _ Hrun)
    as (_ & _ & Hok).
  destruct (Hok _ eq_refl) as (_ & _ & (wr & Hwr & _) & (mr & Hmr & _)).
  split; [reflexivity|]. split; [reflexivity|].
  split; [exists wr; exact Hwr | exists mr; exact Hmr].
Defined.

End LinkClaim.

Section GateClaim.
Import Prim Actions Http.

Lemma gate_rejects {U : UnicodeLower} {Sch : Store.Schema} env w status message :
  checkAuth env w = (Throw (lit message), w) ->
  (forall spotifyArtistId name,
      rejectsWith (addComposer spotifyArtistId name) env w message) ->
  (forall request, answersWith (ComposerRoute.POST request) env w status message) ->
  (forall request, answersWith (TrackRoute.POST request) env w status message) ->
  allOperationsFail env w status message.
Proof.
  intros Hc Hcomposer Hroute1 Hroute2.
  unfold allOperationsFail, rejectsWith.
  repeat split; try assumption; intros;
    unfold addAlbumToDatabase, addArtistsToDatabase, addTrackToDatabase,
      checkWorkAndMovement, addWorkMovementAndTrack, bind;
    rewrite Hc; reflexivity.
Qed.

(** C7.  Every privileged operation passes the access gate first.  Without
    a session each server action throws "Unauthorized" and each endpoint
    answers 401; with a session whose user is not the operator they throw
    "Access denied" and answer 403.  This holds for every argument and every
    request body, well formed or not, and the world is left as it was: no
    token request, no provider call, no store statement. *)
Theorem access_gate_first {U : UnicodeLower} {Sch : Store.Schema} :
  forall (env : Env) (w : World),
    (session env = None -> allOperationsFail env w 401 "Unauthorized")
    /\ (forall ses,
          session env = Some ses ->
          user_name (user ses) <> operator ->
          allOperationsFail env w 403 "Access denied").
Proof.
  intros env w. split.
  - intros Hses. apply gate_rejects.
    + destruct (checkAuth_cases env w)
        as [[_ Hc] | [(ses & Hs & _) | (ses & Hs & _)]]; [exact Hc | congruence..].
    + intros a name. unfold rejectsWith, addComposer, Prim.getSession, bind, ret, ask.
      now rewrite Hses.
    + intros request. unfold answersWith, ComposerRoute.POST, Prim.getSession,
        Http.fail, bind, ret, ask. now rewrite Hses.
    + intros request. unfold answersWith, TrackRoute.POST, Prim.getSession,
        Http.fail, bind, ret, ask. now rewrite Hses.
  - intros ses Hses Hname. apply gate_rejects.
    + destruct (checkAuth_cases env w)
        as [[Hs _] | [(ses' & _ & _ & Hc) | (ses' & Hs & Hn & _)]];
        [congruence | exact Hc | congruence].
    + intros a name. unfold rejectsWith, addComposer, Prim.getSession, bind, ret,
        throw, ask.
      rewrite Hses. now rewrite bool_decide_eq_false_2 by exact Hname.
    + intros request. unfold answersWith, ComposerRoute.POST, Prim.getSession,
        Http.fail, bind, ret, ask.
      rewrite Hses. now rewrite bool_decide_eq_false_2 by exact Hname.
    + intros request. unfold answersWith, TrackRoute.POST, Prim.getSession,
        Http.fail, bind, ret, ask.
      rewrite Hses. now rewrite bool_decide_eq_false_2 by exact Hname.
Qed.

(** A request without session and one of another user. *)
Lemma access_gate_first_witness :
  @allOperationsFail keepOther freeSchema anonymousEnv emptyWorld 401 "Unauthorized"
  /\ @allOperationsFail keepOther freeSchema visitorEnv emptyWorld 403 "Access denied".
Proof.
  split.
  - apply (proj1 (@access_gate_first keepOther freeSchema anonymousEnv emptyWorld)).
    reflexivity.
  - apply (proj2 (@access_gate_first keepOther freeSchema visitorEnv emptyWorld)
             {| user := {| user_id := lit "u2"; user_name := lit "mallory" |} |}).
    + reflexivity.
    + discriminate.
Defined.

End GateClaim.

(** ** Track references *)

Section References.
Import TrackRoute.

Lemma stripPrefix_app p s : stripPrefix p (p ++ s) = Some s.
Proof.
  induction p as [|a p IH]; simpl; [now destruct s|]. now rewrite N.eqb_refl.
Qed.

Lemma stripPrefix_Some p : forall s rest,
  stripPrefix p s = Some rest -> s = p ++ rest.
Proof.
  induction p as [|a p IH]; intros s rest H.
  - destruct s; simpl in H; now injection H as <-.
  - destruct s as [|b s]; simpl in H; [discriminate|].
    destruct (a =? b) eqn:E; [|discriminate].
    apply N.eqb_eq in E. subst b. simpl. f_equal. now apply IH.
Qed.

Lemma takeAlnum_split s :
  exists rest, s = takeAlnum s ++ rest
               /\ Forall (fun c => isAlnum c = true) (takeAlnum s).
Proof.
  induction s as [|c s (rest & Hs & Hall)]; simpl.
  - exists []. split; [reflexivity | constructor].
  - destruct (isAlnum c) eqn:Hc.
    + exists rest. split; [simpl; now f_equal | now constructor].
    + exists (c :: s). split; [reflexivity | constructor].
Qed.

Lemma takeAlnum_all id :
  Forall (fun c => isAlnum c = true) id -> takeAlnum id = id.
Proof. induction 1 as [|c id Hc _ IH]; simpl; [reflexivity|]. now rewrite Hc, IH. Qed.

Lemma takeAlnum_head c id post :
  isAlnum c = true -> takeAlnum ((c :: id) ++ post) <> [].
Proof. intros Hc. simpl. now rewrite Hc. Qed.

Lemma captureHere_exact p id :
  id <> [] -> Forall (fun c => isAlnum c = true) id ->
  captureHere p (p ++ id) = Some id.
Proof.
  intros Hne Hall. unfold captureHere.
  rewrite stripPrefix_app, takeAlnum_all by assumption.
  destruct id; [congruence | reflexivity].
Qed.

Lemma captureHere_Some p s id :
  captureHere p s = Some id ->
  exists post, s = p ++ id ++ post /\ id <> []
               /\ Forall (fun c => isAlnum c = true) id.
Proof.
  unfold captureHere. intros H.
  destruct (stripPrefix p s) as [rest|] eqn:Hp; [|discriminate].
  apply stripPrefix_Some in Hp.
  destruct (takeAlnum_split rest) as (post & Hrest & Hall).
  destruct (takeAlnum rest) as [|c t] eqn:Ht; [discriminate|].
  injection H as <-. exists post. split; [|split; [discriminate | exact Hall]].
  now rewrite Hp, Hrest.
Qed.

Lemma searchCapture_here p s id :
  captureHere p s = Some id -> searchCapture p s = Some id.
Proof. intros H. destruct s; simpl; now rewrite H. Qed.

Lemma searchCapture_skip p c s :
  captureHere p (c :: s) = None -> searchCapture p (c :: s) = searchCapture p s.
Proof. intros H. simpl. now rewrite H. Qed.

(** A search that succeeds found an occurrence of the pattern, and the
    captured identifier is not empty. *)
Lemma searchCapture_Some p s id :
  searchCapture p s = Some id ->
  occursWithId p s /\ id <> [] /\ Forall (fun c => isAlnum c = true) id.
Proof.
  induction s as [|c s IH]; simpl.
  - destruct (captureHere p []) as [id'|] eqn:Hc; [|discriminate].
    intros [= <-]. apply captureHere_Some in Hc.
    destruct Hc as (post & Hs & Hne & Hall).
    split; [|tauto]. exists [], id', post. tauto.
  - destruct (captureHere p (c :: s)) as [id'|] eqn:Hc.
    + intros [= <-]. apply captureHere_Some in Hc.
      destruct Hc as (post & Hs & Hne & Hall).
      split; [|tauto]. exists [], id', post. tauto.
    + intros H. destruct (IH H) as ((pre & id' & post & Hs & Hne & Hall) & Hrest).
      split; [|exact Hrest]. exists (c :: pre), id', post.
      split; [simpl; now f_equal | tauto].
Qed.

(** The search fails exactly when the pattern does not occur. *)
Lemma searchCapture_None p s :
  searchCapture p s = None <-> ~ occursWithId p s.
Proof.
  split.
  - intros Hnone (pre & id & post & -> & Hne & Hall).
    induction pre as [|c pre IH].
    + simpl app in Hnone.
      assert (is_Some (captureHere p (p ++ id ++ post))) as [x Hx].
      { unfold captureHere. rewrite stripPrefix_app.
        destruct id as [|c id]; [congruence|].
        inversion Hall; subst.
        destruct (takeAlnum ((c :: id) ++ post)) eqn:Ht; [|eauto].
        exfalso. revert Ht. now apply takeAlnum_head. }
      apply searchCapture_here in Hx. congruence.
    + apply IH. simpl in Hnone.
      destruct (captureHere p (c :: pre ++ p ++ id ++ post)); [discriminate|].
      exact Hnone.
  - intros Hno. destruct (searchCapture p s) as [id|] eqn:H; [|reflexivity].
    exfalso. apply Hno. now apply searchCapture_Some in H.
Qed.

(** No occurrence of a pattern with a unit outside [a-zA-Z0-9] lies inside
    an identifier. *)
Lemma searchCapture_inside_id p id c :
  In c p -> isAlnum c = false ->
  Forall (fun c => isAlnum c = true) id ->
  searchCapture p id = None.
Proof.
  intros Hin Hc Hall. apply searchCapture_None.
  intros (pre & id' & post & -> & _ & _).
  rewrite List.Forall_forall in Hall.
  assert (isAlnum c = true); [|congruence].
  apply Hall. apply in_or_app. right. apply in_or_app. now left.
Qed.

Lemma extractTrackId_nonempty trackUri id :
  extractTrackId trackUri = Some id -> id <> [].
Proof.
  unfold extractTrackId. intros H.
  destruct (searchCapture uriPattern trackUri) as [id'|] eqn:H1.
  - injection H as <-. now apply searchCapture_Some in H1.
  - now apply searchCapture_Some in H.
Qed.

Lemma extractTrackId_uri id :
  id <> [] -> Forall (fun c => isAlnum c = true) id ->
  extractTrackId (lit "spotify:track:" ++ id) = Some id.
Proof.
  intros Hne Hall. unfold extractTrackId.
  change (lit "spotify:track:") with uriPattern.
  now rewrite (searchCapture_here uriPattern _ id (captureHere_exact _ _ Hne Hall)).
Qed.

Lemma extractTrackId_url id :
  id <> [] -> Forall (fun c => isAlnum c = true) id ->
  extractTrackId (lit "https://open.spotify.com/track/" ++ id) = Some id.
Proof.
  intros Hne Hall. unfold extractTrackId.
  change (lit "https://open.spotify.com/track/")
    with ([104; 116; 116; 112; 115; 58; 47; 47] ++ urlPattern).
  rewrite <- app_assoc.
  assert (Huri : searchCapture uriPattern
                   ([104; 116; 116; 112; 115; 58; 47; 47] ++ urlPattern ++ id)
                 = None).
  { let v := eval cbv in urlPattern in change urlPattern with v.
    cbn [app].
    repeat (rewrite searchCapture_skip by reflexivity).
    apply (searchCapture_inside_id _ _ 58); [cbv; tauto | reflexivity | exact Hall]. }
  rewrite Huri. cbn [app].
  do 8 (rewrite searchCapture_skip by reflexivity).
  apply searchCapture_here, captureHere_exact; assumption.
Qed.

End References.

(** ** The track-metadata endpoint *)

Section TrackEndpoint.
Import Prim Actions Http TrackRoute.

Ltac unfold_route :=
  unfold TrackRoute.POST, Prim.getSession, Prim.getAccessToken, Prim.fetch,
    Prim.json, Prim.prop, Http.fail, Http.respond, Http.requestJson, tryCatch,
    bind, ret, throw, ask, getStore, emit.

(** The reply to the operator for a reference from which no identifier can
    be extracted. *)
Lemma POST_invalid_reference env w ses c r :
  session env = Some ses -> user_name (user ses) = operator ->
  extractTrackId (c :: r) = None ->
  TrackRoute.POST (Some (Str (c :: r))) env w
  = (Ok {| code := 400;
           payload := Error (lit "Invalid Spotify track URI or URL format") |}, w).
Proof.
  intros Hses Hname Hex. unfold_route.
  rewrite Hses. rewrite bool_decide_eq_true_2 by exact Hname. cbn.
  now rewrite Hex.
Qed.

Lemma POST_not_a_reference env w ses trackUri :
  session env = Some ses -> user_name (user ses) = operator ->
  trackUri = Absent \/ trackUri = NotAString \/ trackUri = Str [] ->
  TrackRoute.POST (Some trackUri) env w
  = (Ok {| code := 400; payload := Error (lit "Invalid track URI") |}, w).
Proof.
  intros Hses Hname Huri. unfold_route.
  rewrite Hses. rewrite bool_decide_eq_true_2 by exact Hname. cbn.
  destruct Huri as [-> | [-> | ->]]; reflexivity.
Qed.

(** The reply to the operator once the provider has answered. *)
Lemma POST_fetched env w ses trackUri trackId tok resp :
  session env = Some ses -> user_name (user ses) = operator ->
  extractTrackId trackUri = Some trackId ->
  accessToken env (user_id (user ses)) = Some tok -> tok <> [] ->
  provider env (trackUrl trackId) tok = Fetched resp ->
  let w' := {| store := store w;
               trace := ProviderFetch (trackUrl trackId) tok
                        :: TokenRequest (user_id (user ses)) :: trace w |} in
  TrackRoute.POST (Some (Str trackUri)) env w
  = (Ok (if negb (ok resp)
         then
           match body resp with
           | JsonValue j =>
               if replyStatus (status resp)
               then {| code := status resp;
                       payload := Error (errorMessage (error_message j)) |}
               else {| code := 500;
                       payload := Error (lit "Failed to fetch track metadata") |}
           | _ => {| code := 500; payload := Error (lit "Failed to fetch track metadata") |}
           end
         else
           match body resp with
           | JsonValue {| track := Some trackData |} =>
               {| code := 200; payload := Success (annotate (store w) trackData) |}
           | _ => {| code := 500; payload := Error (lit "Failed to fetch track metadata") |}
           end), w').
Proof.
  intros Hses Hname Hex Htok Hne Hprov w'. unfold_route.
  rewrite Hses. rewrite bool_decide_eq_true_2 by exact Hname. cbn.
  destruct trackUri as [|c r]; [discriminate|].
  rewrite Hex.
  apply extractTrackId_nonempty in Hex. destruct trackId as [|i d]; [congruence|].
  cbn. rewrite Htok. destruct tok as [|t tok]; [congruence|]. cbn.
  rewrite Hprov. cbn.
  destruct (ok resp); cbn; destruct (body resp) as [| |[em pop img [td|]]];
    cbn; try reflexivity; destruct (replyStatus (status resp)); reflexivity.
Qed.

(** The call that the endpoint makes for a reference: one request of the
    operator's token, then one fetch of the track with the extracted
    identifier, whatever the provider does. *)
Lemma POST_provider_call env w ses trackUri trackId tok :
  session env = Some ses -> user_name (user ses) = operator ->
  extractTrackId trackUri = Some trackId ->
  accessToken env (user_id (user ses)) = Some tok -> tok <> [] ->
  snd (TrackRoute.POST (Some (Str trackUri)) env w)
  = {| store := store w;
       trace := ProviderFetch (trackUrl trackId) tok
                :: TokenRequest (user_id (user ses)) :: trace w |}.
Proof.
  intros Hses Hname Hex Htok Hne.
  destruct (provider env (trackUrl trackId) tok) as [|resp] eqn:Hprov.
  - unfold_route.
    rewrite Hses. rewrite bool_decide_eq_true_2 by exact Hname. cbn.
    destruct trackUri as [|c r]; [discriminate|].
    rewrite Hex.
    apply extractTrackId_nonempty in Hex.
    destruct trackId as [|i d]; [congruence|].
    cbn. rewrite Htok. destruct tok as [|t tok]; [congruence|]. cbn.
    rewrite Hprov. reflexivity.
  - now rewrite (POST_fetched env w ses trackUri trackId tok resp
                   Hses Hname Hex Htok Hne Hprov).
Qed.

(** An answer of the provider whose body is not a JSON value, or is the
    value null, ends in the handler of unexpected errors, whatever its
    status. *)
Lemma POST_unreadable_body env w ses trackUri trackId tok st b :
  session env = Some ses -> user_name (user ses) = operator ->
  extractTrackId trackUri = Some trackId ->
  accessToken env (user_id (user ses)) = Some tok -> tok <> [] ->
  provider env (trackUrl trackId) tok = Fetched {| status := st; body := b |} ->
  b = NotJson \/ b = JsonNull ->
  fst (TrackRoute.POST (Some (Str trackUri)) env w)
  = Ok {| code := 500; payload := Error (lit "Failed to fetch track metadata") |}.
Proof.
  intros Hses Hname Hex Htok Hne Hprov Hb.
  rewrite (POST_fetched env w ses trackUri trackId tok _
             Hses Hname Hex Htok Hne Hprov).
  cbn [fst body]. destruct Hb as [-> | ->]; now destruct (negb _).
Qed.

(** The endpoint only reads the store; what it records are token requests
    and provider calls; and its reply depends on the world through the
    store alone. *)
Lemma POST_reads_only request env w :
  store (snd (TrackRoute.POST request env w)) = store w
  /\ (exists new,
         trace (snd (TrackRoute.POST request env w)) = new ++ trace w
         /\ Forall (fun e => forall tb, e <> StoreWrite tb) new)
  /\ (forall w2,
         store w2 = store w ->
         fst (TrackRoute.POST request env w2) = fst (TrackRoute.POST request env w)).
Proof.
  unfold_route.
  destruct (session env) as [ses|];
    [|cbn; split; [reflexivity | split; [now exists [] | reflexivity]]].
  destruct (negb (bool_decide (user_name (user ses) = operator)));
    [cbn; split; [reflexivity | split; [now exists [] | reflexivity]]|].
  destruct request as [[| |[|c r]]|];
    try (cbn; split; [reflexivity | split; [now exists [] | reflexivity]]).
  cbn. destruct (extractTrackId (c :: r)) as [[|i d]|];
    try (cbn; split; [reflexivity | split; [now exists [] | reflexivity]]).
  cbn. destruct (accessToken env (user_id (user ses))) as [[|t tok]|];
    try (cbn; split;
         [reflexivity
         | split; [exists [TokenRequest (user_id (user ses))];
                   split; [reflexivity | repeat constructor; discriminate]
                  | reflexivity]]).
  cbn.
  assert (Hnew : Forall (fun e => forall tb, e <> StoreWrite tb)
                   [ProviderFetch (trackUrl (i :: d)) (t :: tok);
                    TokenRequest (user_id (user ses))])
    by (repeat constructor; discriminate).
  destruct (provider env (trackUrl (i :: d)) (t :: tok)) as [|resp]; cbn.
  { split; [reflexivity | split; [eexists; split; [|exact Hnew]; reflexivity
                                  | reflexivity]]. }
  destruct (ok resp); cbn; destruct (body resp) as [| |[em pop img [td|]]]; cbn;
    try destruct (replyStatus (status resp)); cbn;
    (split; [reflexivity
            | split; [eexists; split; [|exact Hnew]; reflexivity
                     | intros w2 Hw2; rewrite ?Hw2; reflexivity]]).
Qed.

End TrackEndpoint.

Section TrackEndpointClaims.
Import Prim Actions Http TrackRoute.

(** C6.  From a reference of the URI form spotify:track:<id> and from one of
    the URL form https://open.spotify.com/track/<id>, with <id> a non-empty
    sequence of ASCII letters and digits, the endpoint extracts that same
    <id>.  For a request of the operator whose reference contains neither
    pattern -- or is no string, or is empty -- the endpoint answers 400 and
    the world is left as it was: no token is requested and the provider is
    not called.  Given a reference of either form, the endpoint requests
    the operator's token and fetches the track with that <id> from the
    provider, and nothing else; when the provider answers that fetch with a
    track, the reply is 200 with that track annotated from the store. *)
Theorem track_reference_extraction :
  (forall id,
      id <> [] -> Forall (fun c => isAlnum c = true) id ->
      extractTrackId (lit "spotify:track:" ++ id) = Some id
      /\ extractTrackId (lit "https://open.spotify.com/track/" ++ id) = Some id)
  /\ (forall (env : Env) (w : World) (ses : Session) (trackUri : JsonField),
        session env = Some ses ->
        user_name (user ses) = operator ->
        (forall s, trackUri = Str s ->
                   ~ occursWithId (lit "spotify:track:") s
                   /\ ~ occursWithId (lit "open.spotify.com/track/") s) ->
        (forall s, trackUri = Str s -> extractTrackId s = None)
        /\ exists message,
             TrackRoute.POST (Some trackUri) env w
             = (Ok {| code := 400; payload := Error message |}, w))
  /\ (forall (env : Env) (w : World) (ses : Session) (id trackUri tok : jsstring),
        session env = Some ses ->
        user_name (user ses) = operator ->
        id <> [] -> Forall (fun c => isAlnum c = true) id ->
        trackUri = lit "spotify:track:" ++ id
        \/ trackUri = lit "https://open.spotify.com/track/" ++ id ->
        accessToken env (user_id (user ses)) = Some tok -> tok <> [] ->
        snd (TrackRoute.POST (Some (Str trackUri)) env w)
        = {| store := store w;
             trace := ProviderFetch (trackUrl id) tok
                      :: TokenRequest (user_id (user ses)) :: trace w |}
        /\ (forall resp j trackData,
              provider env (trackUrl id) tok = Fetched resp ->
              ok resp = true ->
              body resp = JsonValue j -> track j = Some trackData ->
              fst (TrackRoute.POST (Some (Str trackUri)) env w)
              = Ok {| code := 200;
                      payload := Success (annotate (store w) trackData) |})).
Proof.
  split; [|split].
  - intros id Hne Hall. split; [now apply extractTrackId_uri | now apply extractTrackId_url].
  - intros env w ses trackUri Hses Hname Hno.
    assert (Hex : forall s, trackUri = Str s -> extractTrackId s = None).
    { intros s Hs. destruct (Hno s Hs) as [Huri Hurl].
      unfold extractTrackId.
      change uriPattern with (lit "spotify:track:").
      change urlPattern with (lit "open.spotify.com/track/").
      apply searchCapture_None in Huri. apply searchCapture_None in Hurl.
      now rewrite Huri, Hurl. }
    split; [exact Hex|].
    destruct trackUri as [| |[|c r]].
    + eexists. now apply (POST_not_a_reference env w ses); [| |left].
    + eexists. now apply (POST_not_a_reference env w ses); [| |right; left].
    + eexists. now apply (POST_not_a_reference env w ses); [| |right; right].
    + eexists. apply (POST_invalid_reference env w ses); [assumption..|].
      now apply Hex.
  - intros env w ses id trackUri tok Hses Hname Hne Hall Hform Htok Htokne.
    assert (Hex : extractTrackId trackUri = Some id).
    { destruct Hform as [-> | ->];
        [now apply extractTrackId_uri | now apply extractTrackId_url]. }
    split.
    + now apply (POST_provider_call env w ses).
    + intros resp j trackData Hprov Hok Hbody Htrack.
      rewrite (POST_fetched env w ses trackUri id tok resp
                 Hses Hname Hex Htok Htokne Hprov).
      cbn [fst]. rewrite Hok, Hbody. cbn [negb].
      destruct j as [em pop img tr]. cbn in Htrack. now rewrite Htrack.
Qed.

Lemma no_occurrence_in_short (pattern s : jsstring) :
  (length s < length pattern + 1)%nat -> ~ occursWithId pattern s.
Proof.
  intros Hlen (pre & id & post & -> & Hne & _).
  rewrite !length_app in Hlen. destruct id; [congruence|]. simpl in Hlen. lia.
Qed.

(** Both forms of one reference, a text that is no reference, and the
    reply for the URL form when the provider answers with the example
    track. *)
Lemma track_reference_extraction_witness :
  extractTrackId (lit "spotify:track:6rqhFgbbKwnb9MLmUQDhG6")
  = Some (lit "6rqhFgbbKwnb9MLmUQDhG6")
  /\ extractTrackId (lit "https://open.spotify.com/track/6rqhFgbbKwnb9MLmUQDhG6")
     = Some (lit "6rqhFgbbKwnb9MLmUQDhG6")
  /\ (exists message,
        TrackRoute.POST (Some (Str (lit "track 5"))) operatorEnv emptyWorld
        = (Ok {| code := 400; payload := Error message |}, emptyWorld))
  /\ snd (TrackRoute.POST
            (Some (Str (lit "https://open.spotify.com/track/track1")))
            trackEnv emptyWorld)
     = {| store := Store.empty;
          trace := [ProviderFetch (trackUrl (lit "track1")) (lit "token");
                    TokenRequest (lit "u1")] |}
  /\ fst (TrackRoute.POST
            (Some (Str (lit "https://open.spotify.com/track/track1")))
            trackEnv emptyWorld)
     = Ok {| code := 200;
             payload := Success (annotate Store.empty exampleTrackJson) |}.
Proof.
  pose proof track_reference_extraction as (Hid & Hinvalid & Hvalid).
  destruct (Hid (lit "6rqhFgbbKwnb9MLmUQDhG6")) as [Huri Hurl];
    [discriminate | repeat constructor |].
  split; [exact Huri|]. split; [exact Hurl|].
  split.
  - destruct (Hinvalid operatorEnv emptyWorld operatorSession
                (Str (lit "track 5")) eq_refl eq_refl) as [_ Hreply].
    + intros s [= <-].
      split; apply no_occurrence_in_short; vm_compute; lia.
    + exact Hreply.
  - destruct (Hvalid trackEnv emptyWorld operatorSession (lit "track1")
                (lit "https://open.spotify.com/track/track1") (lit "token")
                eq_refl eq_refl) as [Hcall Hreply].
    + discriminate.
    + repeat constructor.
    + right. reflexivity.
    + reflexivity.
    + discriminate.
    + split; [exact Hcall|].
      exact (Hreply _ exampleTrackAnswer exampleTrackJson
               eq_refl eq_refl eq_refl eq_refl).
Defined.

(** C8 (as amended).  When the operator's reference is valid and the
    provider answers the fetch of the track with a non-success status --
    one of 300..599 other than 304, the statuses outside 200..299 that a
    reply with a body can carry, 404 among them -- and a JSON value other
    than null, the endpoint answers with that same status; its error is the
    provider's [error.message] when there is one, and "Failed to fetch track
    from Spotify" otherwise.  The store is untouched. *)
Theorem provider_status_surfaces :
  forall (env : Env) (w : World) (ses : Session) (trackUri trackId tok : jsstring)
         (st : Z) (j : Json),
    session env = Some ses ->
    user_name (user ses) = operator ->
    extractTrackId trackUri = Some trackId ->
    accessToken env (user_id (user ses)) = Some tok ->
    tok <> [] ->
    provider env (trackUrl trackId) tok
    = Fetched {| status := st; body := JsonValue j |} ->
    (300 <= st <= 599)%Z -> st <> 304%Z ->
    let w' := {| store := store w;
                 trace := ProviderFetch (trackUrl trackId) tok
                          :: TokenRequest (user_id (user ses)) :: trace w |} in
    (forall message,
        error_message j = Some message -> message <> [] ->
        TrackRoute.POST (Some (Str trackUri)) env w
        = (Ok {| code := st; payload := Error message |}, w'))
    /\ (error_message j = None \/ error_message j = Some [] ->
        TrackRoute.POST (Some (Str trackUri)) env w
        = (Ok {| code := st;
                 payload := Error (lit "Failed to fetch track from Spotify") |}, w')).
Proof.
  intros env w ses trackUri trackId tok st j Hses Hname Hex Htok Hne Hprov
    Hst H304 w'.
  assert (Hok : ok {| status := st; body := JsonValue j |} = false).
  { unfold ok. cbn [status]. apply andb_false_iff. right. apply Z.leb_gt. lia. }
  assert (Hreply : replyStatus st = true).
  { unfold replyStatus. apply andb_true_iff. split.
    - apply andb_true_iff. split; apply Z.leb_le; lia.
    - apply negb_true_iff. repeat (apply orb_false_iff; split);
        apply Z.eqb_neq; lia. }
  pose proof (POST_fetched env w ses trackUri trackId tok _
                Hses Hname Hex Htok Hne Hprov) as Hrun.
  rewrite Hok in Hrun. cbn [negb body status] in Hrun. rewrite Hreply in Hrun.
  fold w' in Hrun.
  split.
  - intros message Hm Hmne. rewrite Hrun, Hm.
    destruct message; [congruence | reflexivity].
  - intros [Hm|Hm]; rewrite Hrun, Hm; reflexivity.
Qed.

(** The provider answers 404 "Non existing id": so does the endpoint. *)
Lemma provider_status_surfaces_witness :
  TrackRoute.POST (Some (Str (lit "spotify:track:0000"))) notFoundEnv emptyWorld
  = (Ok {| code := 404; payload := Error (lit "Non existing id") |},
     {| store := Store.empty;
        trace := [ProviderFetch (trackUrl (lit "0000")) (lit "token");
                  TokenRequest (lit "u1")] |}).
Proof.
  apply (proj1 (provider_status_surfaces notFoundEnv emptyWorld operatorSession
                  (lit "spotify:track:0000") (lit "0000") (lit "token") 404
                  {| error_message := Some (lit "Non existing id");
                     popularity := None; images := None; track := None |}
                  eq_refl eq_refl eq_refl eq_refl ltac:(discriminate) eq_refl
                  ltac:(lia) ltac:(discriminate))
           (lit "Non existing id") eq_refl).
  discriminate.
Defined.

(** C8, counterexample.  The reference is valid and the provider answers
    the fetch with 404, a non-success status; its body is not JSON -- a
    page of a proxy, say -- and the endpoint answers the generic 500, not
    404.  So it does when the body is the JSON value null, and when the
    status is one that a reply with a body cannot carry, as 304 and 600,
    whatever the body. *)
Lemma provider_status_counterexample :
  extractTrackId (lit "spotify:track:0000") = Some (lit "0000")
  /\ ok {| status := 404; body := NotJson |} = false
  /\ TrackRoute.POST (Some (Str (lit "spotify:track:0000")))
       (answeringEnv {| status := 404; body := NotJson |}) emptyWorld
     = (Ok {| code := 500;
              payload := Error (lit "Failed to fetch track metadata") |},
        {| store := Store.empty;
           trace := [ProviderFetch (trackUrl (lit "0000")) (lit "token");
                     TokenRequest (lit "u1")] |})
  /\ fst (TrackRoute.POST (Some (Str (lit "spotify:track:0000")))
            (answeringEnv {| status := 404; body := JsonNull |}) emptyWorld)
     = Ok {| code := 500;
             payload := Error (lit "Failed to fetch track metadata") |}
  /\ fst (TrackRoute.POST (Some (Str (lit "spotify:track:0000")))
            (answeringEnv
               {| status := 304; body := JsonValue (errorJson "Not modified") |})
            emptyWorld)
     = Ok {| code := 500;
             payload := Error (lit "Failed to fetch track metadata") |}
  /\ fst (TrackRoute.POST (Some (Str (lit "spotify:track:0000")))
            (answeringEnv
               {| status := 600; body := JsonValue (errorJson "Unknown") |})
            emptyWorld)
     = Ok {| code := 500;
             payload := Error (lit "Failed to fetch track metadata") |}.
Proof. repeat split; vm_compute; reflexivity. Qed.

(** C9.  Resolving a track performs no write: for every request, context
    and world, the store after the call is the store before it, and what
    the call records are token requests and provider calls, never a store
    statement.  Invoked again on the world it left, it gives the same
    reply. *)
Theorem reconciliation_writes_nothing :
  forall (request : option JsonField) (env : Env) (w : World),
    store (snd (TrackRoute.POST request env w)) = store w
    /\ (exists new,
           trace (snd (TrackRoute.POST request env w)) = new ++ trace w
           /\ Forall (fun e => forall tb, e <> StoreWrite tb) new)
    /\ fst (TrackRoute.POST request env (snd (TrackRoute.POST request env w)))
       = fst (TrackRoute.POST request env w).
Proof.
  intros request env w.
  destruct (POST_reads_only request env w) as (Hstore & Htrace & Hsame).
  split; [exact Hstore|]. split; [exact Htrace|]. now apply Hsame.
Qed.

End TrackEndpointClaims.

(** ** The embedding on sample inputs *)

Example slug_spaces_and_hyphens :
  composerSlug (lit " Johann  Sebastian -- Bach ") = lit "-johann-sebastian-bach-".
Proof. reflexivity. Qed.

Example slug_punctuation :
  composerSlug (lit "W.A. Mozart") = lit "wa-mozart".
Proof. reflexivity. Qed.

Example slug_dotted_capital_i :
  composerSlug (304 :: lit "lhan") = lit "ilhan".
Proof. reflexivity. Qed.

Example parseInt_year : parseInt (lit "2020") = Int 2020.
Proof. reflexivity. Qed.

Example parseInt_prefix : parseInt (lit "  12abc") = Int 12.
Proof. reflexivity. Qed.

Example parseInt_hex : parseInt (lit "0x1F") = Int 31.
Proof. reflexivity. Qed.

Example parseInt_empty : parseInt [] = NaN.
Proof. reflexivity. Qed.

Example albumYear_month_precision : albumYear (lit "1985-07") = Some (Int 1985).
Proof. reflexivity. Qed.

Example albumYear_leading_hyphen : albumYear (lit "-5") = Some NaN.
Proof. reflexivity. Qed.

Example numberToString_zero : numberToString 0 = lit "0".
Proof. reflexivity. Qed.

Example numberToString_negative : numberToString (-1) = lit "-1".
Proof. reflexivity. Qed.

Example numberToString_ten : numberToString 10 = lit "10".
Proof. reflexivity. Qed.

Example extract_inside_text :
  TrackRoute.extractTrackId (lit "see spotify:track:abc?si=1") = Some (lit "abc").
Proof. reflexivity. Qed.

Example extract_url_with_query :
  TrackRoute.extractTrackId (lit "http://open.spotify.com/track/6rqh?si=1")
  = Some (lit "6rqh").
Proof. reflexivity. Qed.

Example extract_uri_without_id :
  TrackRoute.extractTrackId (lit "spotify:track:") = None.
Proof. reflexivity. Qed.

Example workId_lowercases_system :
  workIdOf (lit "beethoven") (lit "WoO") (lit "59") = lit "beethoven/woo-59".
Proof. reflexivity. Qed.

Example inference_single_track :
  AlbumTracksTable.getInferredMovement [exampleTrack "a" 4] (exampleTrack "a" 4)
  = Some 1%Z.
Proof. reflexivity. Qed.

Example inference_track_not_loaded :
  AlbumTracksTable.getInferredMovement exampleTracks (exampleTrack "z" 1)
  = Some (-1)%Z.
Proof. reflexivity. Qed.

(* ===================================================================== *)
(** * Further properties of the code *)
(* ===================================================================== *)

(** ** Numbers as strings *)

Lemma decimalValue_app ds d :
  decimalValue (ds ++ [d]) = (decimalValue ds * 10 + digitValue d)%Z.
Proof. unfold decimalValue. now rewrite fold_left_app. Qed.

Lemma digit_of_small n : n < 10 -> isDigit (48 + n) = true /\ digitValue (48 + n) = Z.of_N n.
Proof.
  intros H. unfold isDigit, digitValue. split; [|lia].
  apply andb_true_iff. split; apply N.leb_le; lia.
Qed.

(** With enough fuel, [digitsOf] puts the decimal digits of [n] in front
    of the accumulator. *)
Lemma digitsOf_spec f : forall n acc,
  n < 2 ^ N.of_nat (S f) ->
  exists ds,
    digitsOf (S f) n acc = ds ++ acc
    /\ ds <> [] /\ Forall (fun c => isDigit c = true) ds
    /\ decimalValue ds = Z.of_N n.
Proof.
  induction f as [|f IH]; intros n acc Hn; cbn [digitsOf].
  - change (2 ^ N.of_nat 1) with 2 in Hn.
    assert (Hlt : n < 10) by lia.
    apply N.ltb_lt in Hlt as Hb. rewrite Hb.
    rewrite N.mod_small by lia.
    destruct (digit_of_small n) as [Hd Hv]; [lia|].
    exists [48 + n]. repeat split; [discriminate | now repeat constructor|].
    unfold decimalValue. simpl. lia.
  - destruct (n <? 10) eqn:Hb.
    + apply N.ltb_lt in Hb. rewrite N.mod_small by lia.
      destruct (digit_of_small n) as [Hd Hv]; [lia|].
      exists [48 + n]. repeat split; [discriminate | now repeat constructor|].
      unfold decimalValue. simpl. lia.
    + apply N.ltb_ge in Hb.
      assert (Hdiv : n / 10 < 2 ^ N.of_nat (S f)).
      { replace (N.of_nat (S (S f))) with (N.succ (N.of_nat (S f))) in Hn by lia.
        rewrite N.pow_succ_r' in Hn.
        apply N.Div0.div_lt_upper_bound. lia. }
      destruct (IH (n / 10) ((48 + n mod 10) :: acc) Hdiv)
        as (ds & Hrun & Hne & Hall & Hval).
      assert (Hmod : n mod 10 < 10) by (apply N.mod_upper_bound; lia).
      destruct (digit_of_small (n mod 10) Hmod) as [Hd Hv].
      exists (ds ++ [48 + n mod 10]). repeat split.
      * cbn [digitsOf] in Hrun. rewrite Hrun. now rewrite <- app_assoc.
      * intros Happ. apply app_eq_nil in Happ. tauto.
      * apply Forall_app. split; [exact Hall | now repeat constructor].
      * rewrite decimalValue_app, Hval, Hv.
        pose proof (N.div_mod n 10). lia.
Qed.

Lemma log2_fuel n : n < 2 ^ N.of_nat (S (N.to_nat (N.log2 n))).
Proof.
  destruct n as [|p]; [reflexivity|].
  replace (N.of_nat (S (N.to_nat (N.log2 (N.pos p)))))
    with (N.succ (N.log2 (N.pos p))) by lia.
  apply N.log2_spec. lia.
Qed.

(** The decimal digits of a natural number. *)
Lemma numberToString_nonneg z :
  (0 <= z)%Z ->
  numberToString z <> []
  /\ Forall (fun c => isDigit c = true) (numberToString z)
  /\ decimalValue (numberToString z) = z.
Proof.
  intros Hz. unfold numberToString.
  destruct (z <? 0)%Z eqn:Hneg; [apply Z.ltb_lt in Hneg; lia|].
  destruct (digitsOf_spec (N.to_nat (N.log2 (Z.to_N (Z.abs z))))
              (Z.to_N (Z.abs z)) [] (log2_fuel _)) as (ds & -> & Hne & Hall & Hval).
  rewrite app_nil_r. repeat split; [exact Hne | exact Hall|].
  rewrite Hval. lia.
Qed.

Lemma numberToString_neg z :
  (z < 0)%Z -> numberToString z = 45 :: numberToString (- z).
Proof.
  intros Hz. unfold numberToString.
  apply Z.ltb_lt in Hz as Hb. rewrite Hb.
  destruct (- z <? 0)%Z eqn:Hneg; [apply Z.ltb_lt in Hneg; lia|].
  now rewrite Z.abs_opp.
Qed.

Lemma readNumber_numberToString z : readNumber (numberToString z) = z.
Proof.
  destruct (Z.lt_ge_cases z 0) as [Hneg|Hpos].
  - rewrite numberToString_neg by exact Hneg. cbn [readNumber]. rewrite N.eqb_refl.
    destruct (numberToString_nonneg (- z)) as (_ & _ & Hv); [lia|].
    rewrite Hv. lia.
  - destruct (numberToString_nonneg z Hpos) as (Hne & Hall & Hv).
    unfold readNumber. destruct (numberToString z) as [|c ds]; [congruence|].
    apply Forall_inv in Hall.
    assert ((c =? 45) = false) as -> by (apply N.eqb_neq; class_arith; lia).
    exact Hv.
Qed.

Lemma numberToString_inj a b : numberToString a = numberToString b -> a = b.
Proof.
  intros H. rewrite <- (readNumber_numberToString a), H.
  apply readNumber_numberToString.
Qed.

(** ** The player's display of times *)

Section Player.
Import SpotifyPlayer.

(** Seconds below sixty are shown with two digits. *)
Lemma padStart2_seconds s :
  (0 <= s < 60)%Z ->
  padStart2 (numberToString s) = [Z.to_N (48 + s / 10); Z.to_N (48 + s mod 10)].
Proof.
  intros Hs.
  assert (Hall : forallb
                   (fun n => bool_decide
                               (padStart2 (numberToString (Z.of_nat n))
                                = [Z.to_N (48 + Z.of_nat n / 10);
                                   Z.to_N (48 + Z.of_nat n mod 10)]))
                   (seq 0 60) = true) by (vm_compute; reflexivity).
  rewrite forallb_forall in Hall.
  specialize (Hall (Z.to_nat s)).
  rewrite Z2Nat.id in Hall by lia.
  apply bool_decide_eq_true in Hall; [exact Hall|].
  apply in_seq. lia.
Qed.

(** X1.  For a time of [ms] milliseconds, a whole number from 0 up to the
    largest that a JavaScript number holds exactly, [formatTime] gives
    M:SS: the minutes in decimal, a colon and the seconds on exactly two
    digits, below sixty; read back, minutes * 60 + seconds is the whole
    number of seconds in [ms]. *)
Theorem formatTime_minutes_seconds (ms : Z) :
  (0 <= ms < 2 ^ 53)%Z ->
  exists m s,
    formatTime ms = m ++ [58] ++ s
    /\ m <> [] /\ Forall (fun c => isDigit c = true) m
    /\ length s = 2%nat /\ Forall (fun c => isDigit c = true) s
    /\ (decimalValue s < 60)%Z
    /\ (decimalValue m * 60 + decimalValue s = ms / 1000)%Z.
Proof.
  intros Hms. unfold formatTime.
  set (total := (ms / 1000)%Z).
  assert (Htotal : (0 <= total)%Z) by (apply Z.div_pos; lia).
  assert (Hmin : (0 <= total / 60)%Z) by (apply Z.div_pos; lia).
  assert (Hrem : Z.rem total 60 = (total mod 60)%Z) by (apply Z.rem_mod_nonneg; lia).
  assert (Hsec : (0 <= total mod 60 < 60)%Z) by (apply Z.mod_pos_bound; lia).
  destruct (numberToString_nonneg (total / 60)%Z Hmin) as (Hne & Hall & Hval).
  exists (numberToString (total / 60)),
    [Z.to_N (48 + (total mod 60) / 10); Z.to_N (48 + (total mod 60) mod 10)].
  rewrite Hrem, padStart2_seconds by exact Hsec.
  assert (Hq : (0 <= (total mod 60) / 10 < 6)%Z).
  { split; [apply Z.div_pos; lia | apply Z.div_lt_upper_bound; lia]. }
  assert (Hr : (0 <= (total mod 60) mod 10 < 10)%Z) by (apply Z.mod_pos_bound; lia).
  assert (Hdigits : forall d, (0 <= d < 10)%Z ->
             isDigit (Z.to_N (48 + d)) = true
             /\ digitValue (Z.to_N (48 + d)) = d).
  { intros d Hd. unfold isDigit, digitValue. split; [|lia].
    apply andb_true_iff. split; apply N.leb_le; lia. }
  destruct (Hdigits ((total mod 60) / 10)%Z) as [Hd1 Hv1]; [lia|].
  destruct (Hdigits ((total mod 60) mod 10)%Z) as [Hd2 Hv2]; [lia|].
  assert (Hsval : decimalValue
                    [Z.to_N (48 + (total mod 60) / 10);
                     Z.to_N (48 + (total mod 60) mod 10)] = (total mod 60)%Z).
  { unfold decimalValue. cbn [fold_left]. rewrite Hv1, Hv2.
    pose proof (Z.div_mod (total mod 60) 10). lia. }
  repeat split; try assumption.
  - now repeat constructor.
  - rewrite Hsval. lia.
  - rewrite Hval, Hsval. pose proof (Z.div_mod total 60). lia.
Qed.

(** Three minutes and five seconds and a half. *)
Lemma formatTime_minutes_seconds_witness :
  exists m s,
    formatTime 185500 = m ++ [58] ++ s
    /\ (decimalValue m * 60 + decimalValue s = 185)%Z.
Proof.
  destruct (formatTime_minutes_seconds 185500) as (m & s & Hf & _ & _ & _ & _ & _ & Hv);
    [lia|].
  exists m, s. split; [exact Hf | exact Hv].
Defined.

End Player.

(** ** The admin page: submitted references *)

Section Submitted.
Import AdminPage.

Lemma splitLines_nonempty s : splitLines s <> [].
Proof.
  destruct s as [|c s]; simpl; [discriminate|].
  destruct (c =? 10); [discriminate|]. destruct (splitLines s); discriminate.
Qed.

Lemma splitLines_noLineFeed s : Forall noLineFeed (splitLines s).
Proof.
  induction s as [|c s IH]; simpl; [repeat constructor|].
  destruct (c =? 10) eqn:Hc; [constructor; [constructor | exact IH]|].
  apply N.eqb_neq in Hc.
  destruct (splitLines s) as [|line lines]; [repeat constructor; assumption|].
  inversion IH; subst. constructor; [constructor; assumption | assumption].
Qed.

Lemma splitLines_join s : joinLines (splitLines s) = s.
Proof.
  induction s as [|c s IH]; simpl; [reflexivity|].
  destruct (c =? 10) eqn:Hc.
  - apply N.eqb_eq in Hc. subst c.
    destruct (splitLines s) as [|line lines] eqn:Hs;
      [now apply splitLines_nonempty in Hs|].
    rewrite <- IH. reflexivity.
  - destruct (splitLines s) as [|line lines] eqn:Hs;
      [now apply splitLines_nonempty in Hs|].
    rewrite <- IH. destruct lines; reflexivity.
Qed.

Lemma splitLines_line line :
  noLineFeed line -> forall rest, rest <> [] ->
  splitLines (line ++ 10 :: joinLines rest)
  = line :: splitLines (joinLines rest).
Proof.
  induction 1 as [|c line Hc _ IH]; intros rest Hrest; simpl.
  - reflexivity.
  - apply N.eqb_neq in Hc. rewrite Hc. now rewrite IH.
Qed.

Lemma splitLines_single line : noLineFeed line -> splitLines line = [line].
Proof.
  induction 1 as [|c line Hc _ IH]; simpl; [reflexivity|].
  apply N.eqb_neq in Hc. now rewrite Hc, IH.
Qed.

Lemma join_splitLines lines :
  lines <> [] -> Forall noLineFeed lines -> splitLines (joinLines lines) = lines.
Proof.
  intros Hne Hall. induction Hall as [|line rest Hline Hrest IH]; [congruence|].
  destruct rest as [|line' rest'].
  - cbn [joinLines]. now apply splitLines_single.
  - change (joinLines (line :: line' :: rest'))
      with (line ++ 10 :: joinLines (line' :: rest')).
    rewrite splitLines_line by (assumption || discriminate).
    f_equal. apply IH. discriminate.
Qed.

Lemma trimStart_nil s : trimStart s = [] <-> blank s.
Proof.
  induction s as [|c s IH]; simpl; [split; [constructor | reflexivity]|].
  destruct (isSpace c) eqn:Hc.
  - rewrite IH. split; [now constructor | intros H; now inversion H].
  - split; [discriminate | intros H; inversion H; congruence].
Qed.

Lemma trimStart_cases s :
  trimStart s = [] \/ exists c t, trimStart s = c :: t /\ isSpace c = false.
Proof.
  induction s as [|c s IH]; simpl; [now left|].
  destruct (isSpace c) eqn:Hc; [exact IH | right; eauto].
Qed.

Lemma trimStart_suffix s : exists pre, s = pre ++ trimStart s /\ blank pre.
Proof.
  induction s as [|c s (pre & Hs & Hpre)]; simpl.
  - exists []. split; [reflexivity | constructor].
  - destruct (isSpace c) eqn:Hc.
    + exists (c :: pre). split; [simpl; now f_equal | now constructor].
    + exists []. split; [reflexivity | constructor].
Qed.

Lemma blank_rev s : blank (rev s) <-> blank s.
Proof.
  unfold blank. split; intros H.
  - rewrite <- (rev_involutive s). now apply List.Forall_rev.
  - now apply List.Forall_rev.
Qed.

Lemma trim_nil s : trim s = [] <-> blank s.
Proof.
  unfold trim, trimEnd. split.
  - intros H.
    assert (Hr : trimStart (rev (trimStart s)) = []).
    { destruct (trimStart (rev (trimStart s))); [reflexivity|].
      simpl in H. now destruct (rev l). }
    apply trimStart_nil in Hr. apply (proj1 (blank_rev _)) in Hr.
    destruct (trimStart_suffix s) as (pre & Hs & Hpre).
    rewrite Hs. unfold blank in *. apply Forall_app. split; [exact Hpre | exact Hr].
  - intros H. apply trimStart_nil in H. rewrite H. reflexivity.
Qed.

Lemma trimEnd_last s d : isSpace d = false -> trimEnd (s ++ [d]) = s ++ [d].
Proof.
  intros Hd. unfold trimEnd. rewrite rev_app_distr.
  change (rev [d] ++ rev s) with (d :: rev s).
  rewrite trimStart_head by exact Hd.
  change (rev (d :: rev s)) with (rev (rev s) ++ [d]).
  now rewrite rev_involutive.
Qed.

(** [trim] leaves a string whose first and last units are no white space
    as it is. *)
Lemma trim_ends c s d :
  isSpace c = false -> isSpace d = false ->
  trim (c :: s ++ [d]) = c :: s ++ [d]
  /\ trim [c] = [c].
Proof.
  intros Hc Hd. unfold trim. split.
  - rewrite trimStart_head by exact Hc.
    apply (trimEnd_last (c :: s) d Hd).
  - rewrite trimStart_head by exact Hc. apply (trimEnd_last [] c Hc).
Qed.

Lemma isBlank_spec line : isBlank line = true <-> blank line.
Proof.
  unfold isBlank. rewrite <- trim_nil.
  destruct (trim line); split; congruence.
Qed.

Lemma blank_lines s : blank s <-> Forall blank (splitLines s).
Proof.
  induction s as [|c s IH]; simpl.
  - split; intros _; repeat constructor.
  - destruct (c =? 10) eqn:Hc.
    + apply N.eqb_eq in Hc. subst c. split.
      * intros H. inversion H; subst. constructor; [constructor | now apply IH].
      * intros H. inversion H; subst. constructor; [reflexivity | now apply IH].
    + destruct (splitLines s) as [|line lines] eqn:Hs;
        [now apply splitLines_nonempty in Hs|].
      split.
      * intros H. inversion H as [|? ? Hc' Hs']; subst.
        apply IH in Hs'. inversion Hs'; subst.
        constructor; [now constructor | assumption].
      * intros H. inversion H as [|? ? Hl Hls]; subst.
        inversion Hl; subst. constructor; [assumption|].
        apply IH. now constructor.
Qed.

Lemma trim_blank_iff s : blank (trim s) <-> blank s.
Proof.
  split.
  - intros H. apply trim_nil.
    unfold trim, trimEnd in *.
    destruct (trimStart_cases (rev (trimStart s))) as [Hn | (c & t & Ht & Hc)].
    + now rewrite Hn.
    + exfalso. rewrite Ht in H. apply (proj1 (blank_rev _)) in H.
      inversion H; congruence.
  - intros H. apply trim_nil in H. rewrite H. constructor.
Qed.

End Submitted.

Section SubmittedClaim.
Import AdminPage.

Lemma filter_nil_iff {A} (p : A -> bool) (l : list A) :
  List.filter p l = [] <-> Forall (fun x => p x = false) l.
Proof.
  split; [|apply filter_none].
  induction l as [|x l IH]; simpl; [constructor|].
  destruct (p x) eqn:Hx; [discriminate|]. intros H. constructor; auto.
Qed.

Lemma filter_all {A} (p : A -> bool) (l : list A) :
  Forall (fun x => p x = true) l -> List.filter p l = l.
Proof.
  induction 1 as [|x l Hx _ IH]; simpl; [reflexivity|]. now rewrite Hx, IH.
Qed.

Lemma submittedUris_nil input : submittedUris input = [] <-> blank input.
Proof.
  unfold submittedUris. rewrite filter_nil_iff, <- trim_blank_iff, blank_lines.
  split; apply List.Forall_impl; intros line H.
  - apply isBlank_spec. now apply negb_false_iff.
  - apply negb_false_iff. now apply isBlank_spec.
Qed.

(** X2.  The references that the admin page submits are the lines of the
    trimmed input that are not blank: each has no line feed and some unit
    that is no white space.  There is none exactly when the input is white
    space only, and then the page sets its error instead of calling the
    server.  Lines that are not blank, joined by line feeds into an input
    without white space at its ends, are submitted as they are, in
    order. *)
Theorem submitted_references :
  forall input : jsstring,
    Forall (fun uri => noLineFeed uri /\ ~ blank uri) (submittedUris input)
    /\ (submittedUris input = [] <-> blank input)
    /\ (blank input ->
        handleSubmit input
        = Refused (lit "Please enter at least one Spotify track URI or URL"))
    /\ (~ blank input -> handleSubmit input = Requested (submittedUris input))
    /\ (forall lines,
          input = joinLines lines ->
          lines <> [] ->
          Forall (fun line => noLineFeed line /\ ~ blank line) lines ->
          trim input = input ->
          submittedUris input = lines).
Proof.
  intros input. split; [|split; [apply submittedUris_nil|split; [|split]]].
  - unfold submittedUris. apply List.Forall_forall. intros uri Hin.
    apply List.filter_In in Hin. destruct Hin as [Hin Hnb]. split.
    + pose proof (splitLines_noLineFeed (trim input)) as Hall.
      rewrite List.Forall_forall in Hall. now apply Hall.
    + intros Hb. apply isBlank_spec in Hb. rewrite Hb in Hnb. discriminate.
  - intros Hb. unfold handleSubmit.
    now rewrite (proj2 (submittedUris_nil input) Hb).
  - intros Hnb. unfold handleSubmit.
    destruct (submittedUris input) eqn:Hs; [|reflexivity].
    exfalso. apply Hnb. now apply submittedUris_nil.
  - intros lines -> Hne Hall Htrim. unfold submittedUris. rewrite Htrim.
    rewrite join_splitLines.
    + apply filter_all. revert Hall. apply List.Forall_impl.
      intros line [_ Hnb]. apply negb_true_iff.
      destruct (isBlank line) eqn:Hb; [|reflexivity].
      exfalso. now apply Hnb, isBlank_spec.
    + exact Hne.
    + revert Hall. apply List.Forall_impl. tauto.
Qed.

End SubmittedClaim.

(** ** The admin page: album groups *)

Section Groups.
Import AdminPage.
Context {Track : Type} (albumOf : Track -> AlbumHeader).

Local Abbreviation albumKey := (albumKey albumOf).
Local Abbreviation sameAlbum := (sameAlbum albumOf).
Local Abbreviation groupOf := (groupOf albumOf).
Local Abbreviation grouped := (grouped albumOf).

Lemma firstOccurrences_snoc l k :
  firstOccurrences (l ++ [k])
  = if bool_decide (k ∈ firstOccurrences l) then firstOccurrences l
    else firstOccurrences l ++ [k].
Proof. unfold firstOccurrences. now rewrite fold_left_app. Qed.

Lemma firstOccurrences_spec l :
  NoDup (firstOccurrences l) /\ (forall k, k ∈ firstOccurrences l <-> k ∈ l).
Proof.
  induction l as [|x l IH] using rev_ind.
  - split; [constructor | intros k; reflexivity].
  - destruct IH as [Hnd Hin]. rewrite firstOccurrences_snoc.
    destruct (bool_decide (x ∈ firstOccurrences l)) eqn:Hx.
    + apply bool_decide_eq_true in Hx. split; [exact Hnd|].
      intros k. rewrite Hin, elem_of_app, list_elem_of_singleton.
      split; [tauto|]. intros [H| ->]; [exact H | now apply Hin].
    + apply bool_decide_eq_false in Hx. split.
      * apply NoDup_app. split; [exact Hnd|]. split.
        -- intros k Hk Hk'. apply list_elem_of_singleton in Hk'. now subst.
        -- apply NoDup_singleton.
      * intros k. rewrite !elem_of_app, Hin. reflexivity.
Qed.

Lemma own_None (acc : @Acc Track) k : own acc k = None <-> k ∉ List.map fst acc.
Proof.
  induction acc as [|[k' g] acc IH]; simpl.
  - split; [intros _ H; inversion H | reflexivity].
  - destruct (bool_decide (k' = k)) eqn:Hk.
    + apply bool_decide_eq_true in Hk. subst. split; [discriminate|].
      intros H. exfalso. apply H. constructor.
    + apply bool_decide_eq_false in Hk. rewrite IH. split.
      * intros H Hin. inversion Hin; subst; [congruence | contradiction].
      * intros H Hin. apply H. now constructor.
Qed.

Lemma map_fst_push k t (acc : @Acc Track) : List.map fst (push k t acc) = List.map fst acc.
Proof.
  induction acc as [|[k' g] acc IH]; simpl; [reflexivity|].
  destruct (bool_decide (k' = k)); simpl; [reflexivity | now rewrite IH].
Qed.

Lemma filter_snoc {A} (p : A -> bool) l x :
  List.filter p (l ++ [x]) = List.filter p l ++ (if p x then [x] else []).
Proof. rewrite List.filter_app. simpl. now destruct (p x). Qed.

Lemma sameAlbum_self t : sameAlbum (albumKey t) t = true.
Proof. unfold sameAlbum. now apply bool_decide_eq_true_2. Qed.

Lemma sameAlbum_other k t : albumKey t <> k -> sameAlbum k t = false.
Proof. intros H. unfold sameAlbum. now apply bool_decide_eq_false_2. Qed.

Lemma groupOf_other seen t k g :
  albumKey t <> k -> groupOf seen k g -> groupOf (seen ++ [t]) k g.
Proof.
  intros Hk (Hid & Htr & Hfirst). split; [exact Hid|]. split; [|exact Hfirst].
  rewrite filter_snoc, sameAlbum_other by exact Hk. now rewrite app_nil_r.
Qed.

Lemma others_grouped seen t (acc : @Acc Track) :
  albumKey t ∉ List.map fst acc ->
  Forall (fun kg => groupOf seen (fst kg) (snd kg)) acc ->
  Forall (fun kg => groupOf (seen ++ [t]) (fst kg) (snd kg)) acc.
Proof.
  intros Hnotin Hall. apply List.Forall_forall. intros [k g] Hkg.
  rewrite List.Forall_forall in Hall. specialize (Hall _ Hkg). simpl in *.
  apply groupOf_other; [|exact Hall].
  intros Heq. apply Hnotin. rewrite Heq.
  apply list_elem_of_In. now apply (List.in_map fst _ (k, g)).
Qed.

Lemma push_grouped seen t (acc : @Acc Track) :
  NoDup (List.map fst acc) ->
  albumKey t ∈ List.map fst acc ->
  Forall (fun kg => groupOf seen (fst kg) (snd kg)) acc ->
  Forall (fun kg => groupOf (seen ++ [t]) (fst kg) (snd kg))
    (push (albumKey t) t acc).
Proof.
  induction acc as [|[k g] acc IH]; intros Hnd Hin Hall; simpl; [constructor|].
  inversion Hnd as [|? ? Hnotin Hnd']; subst.
  inversion Hall as [|? ? Hg Hall']; subst. simpl in Hg.
  destruct (bool_decide (k = albumKey t)) eqn:Hk.
  - apply bool_decide_eq_true in Hk. subst k. constructor.
    + destruct Hg as (Hid & Htr & (t0 & rest & Ht0 & Halb)). simpl.
      split; [exact Hid|]. split.
      * now rewrite filter_snoc, Htr, sameAlbum_self.
      * exists t0, (rest ++ [t]). split; [now rewrite Ht0 | exact Halb].
    + now apply others_grouped.
  - apply bool_decide_eq_false in Hk. constructor.
    + simpl. apply groupOf_other; [congruence | exact Hg].
    + apply IH; [exact Hnd' | | exact Hall'].
      simpl in Hin. inversion Hin; subst; [congruence | assumption].
Qed.

(** A step of the reduction keeps the groups in agreement with the tracks
    seen. *)
Lemma addTrack_grouped seen (acc : @Acc Track) t :
  grouped seen acc -> albumKey t ∉ inheritedKeys ->
  exists acc', addTrack albumOf acc t = Some acc' /\ grouped (seen ++ [t]) acc'.
Proof.
  intros [Hkeys Hall] Hinh. unfold addTrack. fold (albumKey t).
  destruct (firstOccurrences_spec (List.map albumKey seen)) as [Hnd Hmem].
  destruct (own acc (albumKey t)) as [g|] eqn:Hown.
  - assert (Hin : albumKey t ∈ List.map fst acc).
    { destruct (decide (albumKey t ∈ List.map fst acc)) as [H|H]; [exact H|].
      apply own_None in H. congruence. }
    eexists. split; [reflexivity|]. split.
    + rewrite map_fst_push, Hkeys, List.map_app. simpl.
      rewrite firstOccurrences_snoc, <- Hkeys.
      now rewrite bool_decide_eq_true_2 by exact Hin.
    + apply push_grouped; [now rewrite Hkeys | exact Hin | exact Hall].
  - apply own_None in Hown.
    rewrite bool_decide_eq_false_2 by exact Hinh.
    eexists. split; [reflexivity|]. split.
    + rewrite !List.map_app. simpl. rewrite firstOccurrences_snoc, <- Hkeys.
      now rewrite bool_decide_eq_false_2 by exact Hown.
    + apply Forall_app. split.
      * now apply others_grouped.
      * constructor; [|constructor]. simpl. split; [reflexivity|]. split.
        -- rewrite filter_snoc, sameAlbum_self.
           rewrite filter_none; [reflexivity|].
           apply List.Forall_forall. intros t' Ht'.
           apply sameAlbum_other. intros Heq. apply Hown.
           rewrite Hkeys. apply Hmem. rewrite <- Heq.
           apply list_elem_of_In. now apply List.in_map.
        -- exists t, []. split; reflexivity.
Qed.

Lemma reduce_grouped rest : forall seen (acc : @Acc Track),
  grouped seen acc ->
  Forall (fun t => albumKey t ∉ inheritedKeys) rest ->
  exists acc', reduce albumOf rest acc = Some acc' /\ grouped (seen ++ rest) acc'.
Proof.
  induction rest as [|t rest IH]; intros seen acc Hg Hall; simpl.
  - exists acc. now rewrite app_nil_r.
  - inversion Hall; subst.
    destruct (addTrack_grouped seen acc t Hg) as (acc1 & -> & Hg1); [assumption|].
    destruct (IH (seen ++ [t]) acc1 Hg1) as (acc' & Hr & Hg'); [assumption|].
    exists acc'. split; [exact Hr|]. now rewrite <- app_assoc in Hg'.
Qed.

(** An album whose identifier names an inherited property stops the
    reduction. *)
Lemma reduce_inherited rest : forall acc : @Acc Track,
  Forall (fun k => k ∉ inheritedKeys) (List.map fst acc) ->
  Exists (fun t => albumKey t ∈ inheritedKeys) rest ->
  reduce albumOf rest acc = None.
Proof.
  induction rest as [|t rest IH]; intros acc Hkeys Hex; [inversion Hex|].
  simpl. unfold addTrack. fold (albumKey t).
  destruct (own acc (albumKey t)) as [g|] eqn:Hown.
  - assert (Hnot : albumKey t ∉ inheritedKeys).
    { destruct (decide (albumKey t ∈ List.map fst acc)) as [H|H].
      - rewrite List.Forall_forall in Hkeys. apply Hkeys.
        now apply list_elem_of_In.
      - apply own_None in H. congruence. }
    inversion Hex; subst; [contradiction|].
    apply IH; [now rewrite map_fst_push | assumption].
  - destruct (bool_decide (albumKey t ∈ inheritedKeys)) eqn:Hinh; [reflexivity|].
    apply bool_decide_eq_false in Hinh.
    inversion Hex; subst; [contradiction|].
    apply IH; [|assumption]. rewrite List.map_app. apply Forall_app.
    split; [exact Hkeys | now repeat constructor].
Qed.

Lemma insertIndexed_perm (x : N * @AlbumGroup Track) l :
  Permutation (insertIndexed x l) (x :: l).
Proof.
  induction l as [|y l IH]; simpl; [reflexivity|].
  destruct (fst x <=? fst y); [reflexivity|].
  rewrite IH. apply perm_swap.
Qed.

(** [Object.values] lists every own property once. *)
Lemma objectValues_perm (acc : @Acc Track) :
  Permutation (objectValues acc) (List.map snd acc).
Proof.
  unfold objectValues. induction acc as [|[k g] acc IH]; [reflexivity|].
  cbn [omap list_omap List.filter List.map fst snd fmap option_fmap option_map].
  destruct (arrayIndex k) as [i|] eqn:Hk.
  - rewrite bool_decide_eq_true_2 by (now exists i).
    cbn. rewrite (Permutation_map snd (insertIndexed_perm _ _)). cbn.
    now apply perm_skip.
  - rewrite bool_decide_eq_false_2 by (intros [? ?]; discriminate).
    cbn. rewrite <- Permutation_middle. now apply perm_skip.
Qed.

(** Without array-index keys, [Object.values] follows the creation order. *)
Lemma objectValues_creation_order (acc : @Acc Track) :
  Forall (fun kg => arrayIndex (fst kg) = None) acc ->
  objectValues acc = List.map snd acc.
Proof.
  intros Hall. unfold objectValues.
  assert (Hnil : omap (fun kg : jsstring * @AlbumGroup Track =>
                         (fun i => (i, snd kg)) <$> arrayIndex (fst kg)) acc = []).
  { induction Hall as [|[k g] acc Hk _ IH]; [reflexivity|].
    simpl in Hk. cbn. now rewrite Hk. }
  assert (Hall' : List.filter
            (fun kg : jsstring * @AlbumGroup Track =>
               negb (bool_decide (is_Some (arrayIndex (fst kg))))) acc = acc).
  { induction Hall as [|[k g] acc Hk _ IH]; [reflexivity|].
    simpl in Hk. cbn [List.filter fst]. rewrite Hk.
    rewrite bool_decide_eq_false_2 by (intros [? ?]; discriminate).
    cbn. f_equal. apply IH.
    clear -Hnil Hk. cbn in Hnil. now rewrite Hk in Hnil. }
  now rewrite Hnil, Hall'.
Qed.

Lemma grouped_nil : grouped [] [].
Proof. split; [reflexivity | constructor]. Qed.

Lemma grouped_keys seen (acc : @Acc Track) :
  grouped seen acc ->
  List.map (fun g => id (album g)) (List.map snd acc) = List.map fst acc.
Proof.
  intros [_ Hall]. induction Hall as [|[k g] acc Hg _ IH]; [reflexivity|].
  simpl. f_equal; [apply Hg | exact IH].
Qed.

(** X3. The album groups of the admin page.  When no album identifier of
    the loaded tracks names a property inherited from [Object.prototype],
    the grouping gives one group per album: the identifiers of the groups
    are distinct; each group holds exactly the tracks of its album, in the
    order in which they were loaded, under the header of the first of them;
    every loaded track is in the group of its album; and when no identifier
    is an array index, the groups come in the order in which their albums
    first occur.  When some album identifier names an inherited property,
    the grouping throws. *)
Theorem album_groups (trackData : list Track) :
  (Forall (fun t => albumKey t ∉ inheritedKeys) trackData ->
   exists groups,
     groupByAlbum albumOf trackData = Some groups
     /\ NoDup (List.map (fun g => id (album g)) groups)
     /\ (forall g, In g groups ->
           tracks g = List.filter (sameAlbum (id (album g))) trackData
           /\ exists t rest, tracks g = t :: rest /\ album g = albumOf t)
     /\ (forall t, In t trackData ->
           exists g, In g groups /\ id (album g) = albumKey t /\ In t (tracks g))
     /\ (Forall (fun t => arrayIndex (albumKey t) = None) trackData ->
         List.map (fun g => id (album g)) groups
         = firstOccurrences (List.map albumKey trackData)))
  /\ (Exists (fun t => albumKey t ∈ inheritedKeys) trackData ->
      groupByAlbum albumOf trackData = None).
Proof.
  split.
  - intros Hok.
    destruct (reduce_grouped trackData [] [] grouped_nil Hok) as (acc & Hr & Hg).
    rewrite app_nil_l in Hg.
    pose proof (grouped_keys _ _ Hg) as Hkeys.
    destruct Hg as [Hfst Hall].
    destruct (firstOccurrences_spec (List.map albumKey trackData)) as [Hnd Hmem].
    pose proof (objectValues_perm acc) as Hperm.
    assert (Hgroup : forall g, In g (objectValues acc) ->
              groupOf trackData (id (album g)) g).
    { intros g Hin. apply (Permutation_in _ Hperm) in Hin.
      apply List.in_map_iff in Hin. destruct Hin as ([k g'] & <- & Hin).
      rewrite List.Forall_forall in Hall. specialize (Hall _ Hin).
      simpl in *. destruct Hall as (Hid & Hrest). now rewrite Hid. }
    exists (objectValues acc). split; [unfold groupByAlbum; now rewrite Hr|].
    split; [|split; [|split]].
    + rewrite (Permutation_map (fun g => id (album g)) Hperm), Hkeys, Hfst.
      exact Hnd.
    + intros g Hin. destruct (Hgroup g Hin) as (_ & Htr & Hfirst). now split.
    + intros t Ht.
      assert (Hk : albumKey t ∈ List.map fst acc).
      { rewrite Hfst. apply Hmem. apply list_elem_of_In. now apply List.in_map. }
      rewrite <- Hkeys in Hk. apply list_elem_of_In in Hk.
      apply List.in_map_iff in Hk. destruct Hk as (g & Hid & Hin).
      apply (Permutation_in _ (Permutation_sym Hperm)) in Hin.
      exists g. split; [exact Hin|]. split; [exact Hid|].
      destruct (Hgroup g Hin) as (_ & -> & _).
      apply List.filter_In. split; [exact Ht|].
      rewrite Hid. apply sameAlbum_self.
    + intros Hidx. rewrite objectValues_creation_order, Hkeys; [exact Hfst|].
      apply List.Forall_forall. intros [k g] Hin. simpl.
      assert (Hk : k ∈ List.map albumKey trackData).
      { apply Hmem. rewrite <- Hfst. apply list_elem_of_In.
        now apply (List.in_map fst _ (k, g)). }
      apply list_elem_of_In, List.in_map_iff in Hk. destruct Hk as (t & <- & Ht).
      rewrite List.Forall_forall in Hidx. now apply Hidx.
  - intros Hbad. unfold groupByAlbum.
    rewrite (reduce_inherited trackData []); [reflexivity | constructor | exact Hbad].
Qed.

End Groups.

(** ** AlbumTracksTable: the analysis of the unlinked tracks *)

Section Analyze.
Import AlbumTracksTable TableState.

Lemma findIndex_first {A} (p : A -> bool) (l : list A) j u :
  l !! j = Some u -> p u = true ->
  Forall (fun y => p y = false) (take j l) ->
  findIndex p l = Z.of_nat j.
Proof.
  intros Hj Hu Hbefore.
  destruct (findIndex_spec p l) as [[_ Hall] | (k & x & -> & Hk & Hx & Hall)].
  - rewrite List.Forall_forall in Hall.
    assert (Hin : In u l) by (apply list_elem_of_In, list_elem_of_lookup; eauto).
    specialize (Hall _ Hin). simpl in Hall. congruence.
  - f_equal. destruct (Nat.lt_trichotomy k j) as [Hlt | [Heq | Hgt]];
      [exfalso | exact Heq | exfalso].
    + rewrite List.Forall_forall in Hbefore.
      assert (Hin : In x (take j l)).
      { apply list_elem_of_In, list_elem_of_lookup. exists k.
        now rewrite lookup_take_lt. }
      specialize (Hbefore _ Hin). simpl in Hbefore. congruence.
    + rewrite List.Forall_forall in Hall.
      assert (Hin : In u (take k l)).
      { apply list_elem_of_In, list_elem_of_lookup. exists j.
        now rewrite lookup_take_lt. }
      specialize (Hall _ Hin). simpl in Hall. congruence.
Qed.

Lemma findIndex_absent {A} (p : A -> bool) (l : list A) :
  Forall (fun y => p y = false) l -> findIndex p l = (-1)%Z.
Proof.
  induction 1 as [|x l Hx _ IH]; simpl; [reflexivity|].
  now rewrite Hx, IH.
Qed.

Lemma hasMetadata_withParsed row p : hasMetadata (withParsed row p) = hasMetadata row.
Proof. reflexivity. Qed.

(** Among rows with distinct identifiers, the identifier determines the
    row. *)
Lemma row_of_id (l : list Row) a b :
  NoDup (List.map (fun r => id (track r)) l) -> In a l -> In b l ->
  id (track a) = id (track b) -> a = b.
Proof.
  intros Hnd Ha Hb Hid.
  apply list_elem_of_In, list_elem_of_lookup in Ha, Hb.
  destruct Ha as [i Hi]. destruct Hb as [j Hj].
  change (List.map (fun r => id (track r)) l)
    with ((fun r => id (track r)) <$> l) in Hnd.
  assert (i = j) as ->; [|congruence].
  apply (NoDup_lookup _ i j (id (track a)) Hnd).
  - now rewrite list_lookup_fmap, Hi.
  - rewrite list_lookup_fmap, Hj. simpl. now rewrite Hid.
Qed.

Lemma unknownTracks_In tracks u :
  In u (unknownTracks tracks) <-> In u tracks /\ hasMetadata u = false.
Proof.
  unfold unknownTracks. rewrite List.filter_In.
  now rewrite negb_true_iff.
Qed.

Lemma filter_map_commute {A} (f : A -> A) (p : A -> bool) (l : list A) :
  (forall x, p (f x) = p x) ->
  List.filter p (List.map f l) = List.map f (List.filter p l).
Proof.
  intros Hp. induction l as [|x l IH]; simpl; [reflexivity|].
  rewrite Hp. destruct (p x); simpl; now rewrite IH.
Qed.

Lemma map_id_on {A} (f : A -> A) (l : list A) :
  (forall x, In x l -> f x = x) -> List.map f l = l.
Proof.
  intros H. induction l as [|x l IH]; simpl; [reflexivity|].
  rewrite H by now left. f_equal. apply IH. intros y Hy. apply H. now right.
Qed.

Lemma NoDup_map_filter_rows (f : Row -> jsstring) (p : Row -> bool) l :
  NoDup (List.map f l) -> NoDup (List.map f (List.filter p l)).
Proof.
  induction l as [|x l IH]; simpl; intros Hnd; [constructor|].
  inversion Hnd as [|? ? Hnotin Hnd']; subst.
  destruct (p x); simpl; [|now apply IH].
  constructor; [|now apply IH].
  intros Hin. apply Hnotin. apply list_elem_of_In in Hin.
  apply list_elem_of_In. apply List.in_map_iff in Hin.
  destruct Hin as (y & Hy & Hin). apply List.in_map_iff. exists y.
  split; [exact Hy|]. now apply List.filter_In in Hin.
Qed.

(** X4. The analysis of the unlinked tracks.  When some track is unlinked
    and the parser answers, the handler replaces the state by a list of the
    same length in which a track whose identifier is not that of an
    unlinked track is unchanged, and a track with the identifier of an
    unlinked track takes, as its parsed data, the parser's result at the
    first position of that identifier among the unlinked tracks (nothing
    when the parser returned fewer results).  When the state is the list
    that was analysed and its identifiers are distinct, the unlinked tracks
    take the results in order and the linked tracks are unchanged. *)
Theorem analysis_assigns_results
  (parse : list (jsstring * list jsstring) -> Result (list (option ClassicalMetadata)))
  (tracks prev : list Row) (results : list (option ClassicalMetadata)) :
  unknownTracks tracks <> [] ->
  parse (parseInput (unknownTracks tracks)) = Ok results ->
  exists tracks',
    handleAnalyze parse tracks prev = Analyzed tracks'
    /\ length tracks' = length prev
    /\ (forall i row, prev !! i = Some row ->
          Forall (fun u => id (track u) <> id (track row)) (unknownTracks tracks) ->
          tracks' !! i = Some row)
    /\ (forall i row j u, prev !! i = Some row ->
          unknownTracks tracks !! j = Some u ->
          id (track u) = id (track row) ->
          Forall (fun u' => id (track u') <> id (track row))
            (take j (unknownTracks tracks)) ->
          tracks' !! i = Some (withParsed row (resultAt results (Z.of_nat j))))
    /\ (prev = tracks ->
        NoDup (List.map (fun r => id (track r)) tracks) ->
        unknownTracks tracks'
        = imap (fun j u => withParsed u (resultAt results (Z.of_nat j)))
            (unknownTracks tracks)
        /\ List.filter hasMetadata tracks' = List.filter hasMetadata tracks).
Proof.
  intros Hne Hparse.
  exists (mergeParsed (unknownTracks tracks) results prev).
  split.
  { unfold handleAnalyze. destruct (unknownTracks tracks) eqn:Hu; [congruence|].
    now rewrite Hparse. }
  assert (Hother : forall row,
    Forall (fun u => id (track u) <> id (track row)) (unknownTracks tracks) ->
    findIndex (fun ut => bool_decide (id (track ut) = id (track row)))
      (unknownTracks tracks) = (-1)%Z).
  { intros row Hall. apply findIndex_absent. revert Hall.
    apply List.Forall_impl. intros u Hu. now apply bool_decide_eq_false_2. }
  assert (Hfirst : forall row j u,
    unknownTracks tracks !! j = Some u -> id (track u) = id (track row) ->
    Forall (fun u' => id (track u') <> id (track row))
      (take j (unknownTracks tracks)) ->
    findIndex (fun ut => bool_decide (id (track ut) = id (track row)))
      (unknownTracks tracks) = Z.of_nat j).
  { intros row j u Hj Hid Hall. apply (findIndex_first _ _ j u Hj).
    - now apply bool_decide_eq_true_2.
    - revert Hall. apply List.Forall_impl. intros u' Hu'.
      now apply bool_decide_eq_false_2. }
  split; [unfold mergeParsed; now rewrite List.length_map|].
  split; [|split].
  - intros i row Hi Hall. unfold mergeParsed.
    change (List.map ?f prev) with (f <$> prev).
    rewrite list_lookup_fmap, Hi. simpl. now rewrite (Hother row Hall).
  - intros i row j u Hi Hj Hid Hall. unfold mergeParsed.
    change (List.map ?f prev) with (f <$> prev).
    rewrite list_lookup_fmap, Hi. simpl. rewrite (Hfirst row j u Hj Hid Hall).
    destruct (Z.of_nat j =? -1)%Z eqn:Hneg; [apply Z.eqb_eq in Hneg; lia|].
    reflexivity.
  - intros -> Hnd. unfold mergeParsed. split.
    + unfold unknownTracks at 1. rewrite filter_map_commute.
      2:{ intros x. cbv beta zeta.
          destruct (negb (_ =? _)%Z); reflexivity. }
      fold (unknownTracks tracks).
      apply list_eq. intros j.
      change (List.map ?f ?l) with (f <$> l).
      rewrite list_lookup_fmap, list_lookup_imap.
      destruct (unknownTracks tracks !! j) as [u|] eqn:Hj; [|reflexivity].
      simpl. rewrite (Hfirst u j u Hj eq_refl).
      * destruct (Z.of_nat j =? -1)%Z eqn:Hneg; [apply Z.eqb_eq in Hneg; lia|].
        reflexivity.
      * apply List.Forall_forall. intros u' Hu' Heq.
        apply list_elem_of_In, list_elem_of_lookup in Hu'.
        destruct Hu' as [k Hk].
        pose proof (lookup_lt_Some _ _ _ Hk) as Hlen.
        rewrite length_take in Hlen.
        rewrite lookup_take_lt in Hk by lia.
        assert (HndU : NoDup ((fun r => id (track r)) <$> unknownTracks tracks)).
        { apply (NoDup_map_filter_rows _ _ _ Hnd). }
        assert (k = j); [|lia].
        apply (NoDup_lookup _ k j (id (track u)) HndU).
        -- rewrite list_lookup_fmap, Hk. simpl. now rewrite Heq.
        -- now rewrite list_lookup_fmap, Hj.
    + rewrite filter_map_commute.
      2:{ intros x. cbv beta zeta.
          destruct (negb (_ =? _)%Z); reflexivity. }
      apply map_id_on. intros x Hx. apply List.filter_In in Hx.
      destruct Hx as [Hx Hmeta]. rewrite Hother; [reflexivity|].
      apply List.Forall_forall. intros u Hu Heq.
      apply unknownTracks_In in Hu. destruct Hu as [Hu Hno].
      rewrite (row_of_id tracks u x Hnd Hu Hx Heq) in Hno. congruence.
Qed.

(** A witness: the album of two tracks, of which the second is unlinked. *)
Lemma analysis_assigns_results_witness :
  exists tracks',
    handleAnalyze exampleParser exampleRows exampleRows = Analyzed tracks'
    /\ length tracks' = 2%nat
    /\ List.filter hasMetadata tracks' = List.filter hasMetadata exampleRows.
Proof.
  destruct (analysis_assigns_results exampleParser exampleRows exampleRows
              [Some parsedOp2])
    as (tracks' & Hrun & Hlen & _ & _ & Hsame).
  - discriminate.
  - reflexivity.
  - exists tracks'. split; [exact Hrun|]. split; [exact Hlen|].
    apply Hsame; [reflexivity|].
    apply NoDup_ListNoDup. repeat constructor; simpl; intuition discriminate.
Defined.

End Analyze.

(** ** The server actions: albums, artists and tracks *)

Section AlbumAction.
Import Prim Actions.
Context {U : UnicodeLower} {Sch : Store.Schema}.

Lemma getSpotifyAccessToken_run userId env w :
  getSpotifyAccessToken userId env w
  = (match tokenOf env userId with
     | Some tok => Ok tok
     | None => Throw (lit "No Spotify access token")
     end,
     {| store := store w; trace := TokenRequest userId :: trace w |}).
Proof.
  unfold getSpotifyAccessToken, tokenOf. run_monad.
  destruct (accessToken env userId) as [[|c r]|]; reflexivity.
Qed.

(** Fetching and reading the answer as JSON, then a property of it. *)
Lemma fetch_prop_run {A} (f : Json -> A) url tok env w :
  (r <- fetch url tok ;; j <- json r ;; prop j f) env w
  = (match answer env url tok with
     | Some j => Ok (f j)
     | None =>
         Throw (match provider env url tok with
                | NetworkError => lit "fetch failed"
                | Fetched r =>
                    match body r with
                    | NotJson => lit "SyntaxError"
                    | _ => lit "TypeError"
                    end
                end)
     end,
     {| store := store w; trace := ProviderFetch url tok :: trace w |}).
Proof.
  unfold answer. run_monad.
  destruct (provider env url tok) as [|r]; [reflexivity|].
  destruct (body r); reflexivity.
Qed.

Lemma upsertSpotifyAlbum_run row env w :
  upsertSpotifyAlbum row env w
  = commit Store.TSpotifyAlbum (albumWritten (store w) row) env w.
Proof. reflexivity. Qed.

(** X5.  Adding an album is all or nothing.  For the operator,
    [addAlbumToDatabase] either resolves -- a token was obtained, the
    provider answered with a JSON value (whatever the status of the
    answer), and the store differs from the former one by the album's row
    alone, which carries the popularity of the answer -- or throws "Failed
    to add album to database", whatever the cause, and leaves the store as
    it was; without a token it has not called the provider. *)
Theorem album_action_all_or_nothing (env : Env) (w w' : World)
  (albumData : AlbumData) (ses : Session) (r : Result ActionResult) :
  session env = Some ses ->
  user_name (user ses) = operator ->
  addAlbumToDatabase albumData env w = (r, w') ->
  (exists tok j,
      tokenOf env (user_id (user ses)) = Some tok
      /\ answer env (albumUrl albumData) tok = Some j
      /\ r = Ok (albumAdded albumData)
      /\ store w' = albumWritten (store w) (albumRowOf albumData (popularity j))
      /\ Store.admissible (store w') = true)
  \/ (r = Throw (lit "Failed to add album to database")
      /\ store w' = store w
      /\ (tokenOf env (user_id (user ses)) = None ->
          trace w' = TokenRequest (user_id (user ses)) :: trace w)).
Proof.
  intros Hses Hname Hrun.
  unfold addAlbumToDatabase in Hrun.
  destruct (checkAuth_cases env w)
    as [[Hn _] | [(ses' & Hs & Hne & _) | (ses' & Hs & _ & Hc)]];
    [congruence | congruence |].
  assert (ses' = ses) as -> by congruence.
  unfold bind at 1 in Hrun. rewrite Hc in Hrun.
  unfold tryCatch, throw in Hrun. unfold bind at 1 in Hrun.
  rewrite getSpotifyAccessToken_run in Hrun.
  destruct (tokenOf env (user_id (user ses))) as [tok|] eqn:Htok.
  2:{ injection Hrun as <- <-. right. repeat split. }
  pose proof (fetch_prop_run popularity (albumUrl albumData) tok env
                {| store := store w;
                   trace := TokenRequest (user_id (user ses)) :: trace w |})
    as Hfetch.
  unfold bind in Hfetch. unfold bind in Hrun. unfold albumUrl in Hfetch.
  destruct (fetch _ tok env _) as [[resp|e] w1] eqn:Hf.
  - destruct (json resp env w1) as [[j0|e] w2] eqn:Hj.
    + destruct (prop j0 popularity env w2) as [[pop|e] w3] eqn:Hp.
      * destruct (answer env _ tok) as [j|] eqn:Hans; [|discriminate].
        injection Hfetch as -> ->.
        rewrite upsertSpotifyAlbum_run in Hrun.
        fold (albumRowOf albumData (popularity j)) in Hrun.
        match type of Hrun with
        | context [commit ?tb ?s' ?e ?w0] =>
            destruct (commit_cases tb s' e w0) as [[Hadm Hc'] | [Hadm Hc']];
            rewrite Hc' in Hrun
        end.
        -- unfold ret in Hrun. injection Hrun as <- <-. left.
           exists tok, j. repeat split; assumption.
        -- injection Hrun as <- <-. right. repeat split. discriminate.
      * injection Hrun as <- <-. destruct (answer env _ tok); [discriminate|].
        injection Hfetch as _ ->. right. repeat split. discriminate.
    + injection Hrun as <- <-. destruct (answer env _ tok); [discriminate|].
      injection Hfetch as _ ->. right. repeat split. discriminate.
  - injection Hrun as <- <-. destruct (answer env _ tok); [discriminate|].
    injection Hfetch as _ ->. right. repeat split. discriminate.
Qed.

End AlbumAction.

Section AlbumActionWitness.
Import Prim Actions.

(** A witness: the operator adds an album to the empty store. *)
Lemma album_action_all_or_nothing_witness :
  fst (addAlbumToDatabase beethovenAlbum operatorEnv emptyWorld)
  = Ok (albumAdded beethovenAlbum)
  /\ store (snd (addAlbumToDatabase beethovenAlbum operatorEnv emptyWorld))
     = albumWritten Store.empty (albumRowOf beethovenAlbum None).
Proof.
  destruct (album_action_all_or_nothing operatorEnv emptyWorld
              _ beethovenAlbum operatorSession _ eq_refl eq_refl
              (surjective_pairing _))
    as [(tok & j & _ & Hj & Hr & Hs & _) | (Hr & _)].
  - injection Hj as <-. split; [exact Hr | exact Hs].
  - exfalso. vm_compute in Hr. discriminate.
Defined.

End AlbumActionWitness.

Section ArtistsAction.
Import Prim Actions.
Context {U : UnicodeLower} {Sch : Store.Schema}.

Lemma forEach_app {A} (f : A -> M unit) l1 l2 env w :
  forEach f (l1 ++ l2) env w
  = match forEach f l1 env w with
    | (Ok _, w1) => forEach f l2 env w1
    | (Throw e, w1) => (Throw e, w1)
    end.
Proof.
  revert w. induction l1 as [|x l1 IH]; intros w; [reflexivity|].
  cbn [forEach app]. unfold bind.
  destruct (f x env w) as [[[]|e] w1]; [apply IH | reflexivity].
Qed.

(** One artist: the provider is asked, then the row is written. *)
Lemma artistStatement_cases tok artist env w :
  exists w1,
    match answer env (artistUrl artist) tok with
    | Some j =>
        if Store.admissible (artistWritten (store w) (artistRowOf artist j))
        then artistStatement tok artist env w = (Ok tt, w1)
             /\ store w1 = artistWritten (store w) (artistRowOf artist j)
        else (exists e, artistStatement tok artist env w = (Throw e, w1))
             /\ store w1 = store w
    | None =>
        (exists e, artistStatement tok artist env w = (Throw e, w1))
        /\ store w1 = store w
    end.
Proof.
  unfold artistStatement, answer, upsertSpotifyArtist. run_monad.
  destruct (provider env (artistUrl artist) tok) as [|r]; [eauto|].
  destruct (body r) as [| |j]; cbn; [eauto | eauto |].
  fold (artistRowOf artist j).
  change (Store.withSpotifyArtist (store w) _)
    with (artistWritten (store w) (artistRowOf artist j)).
  destruct (Store.admissible (artistWritten (store w) (artistRowOf artist j)));
    eauto.
Qed.

(** As long as the provider answers and the schema admits the rows, the
    loop writes them one after the other. *)
Lemma artists_loop tok env : forall artists answers w,
  artistAnswers env tok artists answers ->
  admitsArtists (store w) (artistRows artists answers) ->
  exists w1,
    forEach (artistStatement tok) artists env w = (Ok tt, w1)
    /\ store w1 = artistsWritten (store w) (artistRows artists answers).
Proof.
  intros artists answers w Hans. revert w.
  induction Hans as [|a j artists answers Ha _ IH]; intros w Hadm.
  - exists w. split; reflexivity.
  - cbn in Hadm. destruct Hadm as [Hadm1 Hadm].
    destruct (artistStatement_cases tok a env w) as [w1 Hstep].
    rewrite Ha, Hadm1 in Hstep. destruct Hstep as [Hrun Hs1].
    rewrite <- Hs1 in Hadm. destruct (IH w1 Hadm) as (w2 & Hrest & Hs2).
    exists w2. cbn [forEach]. unfold bind. rewrite Hrun.
    split; [exact Hrest|]. rewrite Hs2, Hs1. reflexivity.
Qed.

Lemma addArtistsToDatabase_run artists env w ses tok :
  session env = Some ses ->
  user_name (user ses) = operator ->
  tokenOf env (user_id (user ses)) = Some tok ->
  addArtistsToDatabase artists env w
  = match forEach (artistStatement tok) artists env
            {| store := store w;
               trace := TokenRequest (user_id (user ses)) :: trace w |} with
    | (Ok _, w1) => (Ok (artistsAdded artists), w1)
    | (Throw _, w1) => (Throw (lit "Failed to add artists to database"), w1)
    end.
Proof.
  intros Hses Hname Htok. unfold addArtistsToDatabase.
  destruct (checkAuth_cases env w)
    as [[Hn _] | [(ses' & Hs & Hne & _) | (ses' & Hs & _ & Hc)]];
    [congruence | congruence |].
  assert (ses' = ses) as -> by congruence.
  unfold bind at 1. rewrite Hc. unfold tryCatch, throw. unfold bind at 1.
  rewrite getSpotifyAccessToken_run, Htok.
  change (fun artist : ArtistRef => _) with (artistStatement tok).
  unfold bind, ret.
  destruct (forEach (artistStatement tok) artists env _) as [[[]|e] w1];
    reflexivity.
Qed.

(** X6.  Adding artists writes them one after the other and is not
    undone.  For the operator holding a token, when the provider answers
    with a JSON value for each artist of a list and the schema admits the
    rows, [addArtistsToDatabase] resolves with the number of artists and
    the store holds their rows, each with the popularity and images of its
    answer.  When the list continues with an artist for which the provider
    gives no JSON value, or whose row the schema refuses, the action throws
    "Failed to add artists to database", the rows of the artists before it
    stay written and nothing is written for the artists after it. *)
Theorem artists_written_in_order (env : Env) (w : World) (ses : Session)
  (tok : jsstring) (artists : list ArtistRef) (answers : list Json) :
  session env = Some ses ->
  user_name (user ses) = operator ->
  tokenOf env (user_id (user ses)) = Some tok ->
  artistAnswers env tok artists answers ->
  admitsArtists (store w) (artistRows artists answers) ->
  let written := artistsWritten (store w) (artistRows artists answers) in
  (exists w',
      addArtistsToDatabase artists env w = (Ok (artistsAdded artists), w')
      /\ store w' = written)
  /\ (forall artist rest,
        answer env (artistUrl artist) tok = None
        \/ (exists j, answer env (artistUrl artist) tok = Some j
              /\ Store.admissible (artistWritten written (artistRowOf artist j))
                 = false) ->
        exists w',
          addArtistsToDatabase (artists ++ artist :: rest) env w
          = (Throw (lit "Failed to add artists to database"), w')
          /\ store w' = written).
Proof.
  intros Hses Hname Htok Hans Hadm written.
  destruct (artists_loop tok env artists answers
              {| store := store w;
                 trace := TokenRequest (user_id (user ses)) :: trace w |}
              Hans Hadm) as (w1 & Hloop & Hs1).
  cbn [store] in Hs1. fold written in Hs1. split.
  - exists w1. rewrite (addArtistsToDatabase_run _ _ _ ses tok Hses Hname Htok).
    now rewrite Hloop.
  - intros artist rest Hfail.
    rewrite (addArtistsToDatabase_run _ _ _ ses tok Hses Hname Htok).
    rewrite forEach_app, Hloop. cbn [forEach]. unfold bind.
    destruct (artistStatement_cases tok artist env w1) as [w2 Hstep].
    destruct Hfail as [Hnone | (j & Hj & Hbad)].
    + rewrite Hnone in Hstep. destruct Hstep as [[e Hrun] Hs2].
      rewrite Hrun. exists w2. split; [reflexivity | congruence].
    + rewrite Hj, Hs1, Hbad in Hstep. destruct Hstep as [[e Hrun] Hs2].
      rewrite Hrun. exists w2. split; [reflexivity | congruence].
Qed.

End ArtistsAction.

Section ArtistsActionWitness.
Import Prim Actions.

(** A witness: the operator adds one artist to the empty store. *)
Lemma artists_written_in_order_witness :
  exists w',
    addArtistsToDatabase [karajan] operatorEnv emptyWorld
    = (Ok (artistsAdded [karajan]), w')
    /\ store w' = artistWritten Store.empty (artistRowOf karajan emptyJson).
Proof.
  apply (artists_written_in_order operatorEnv emptyWorld operatorSession
           (lit "token") [karajan] [emptyJson]).
  - reflexivity.
  - reflexivity.
  - reflexivity.
  - repeat constructor.
  - cbn. split; [reflexivity | exact I].
Defined.

End ArtistsActionWitness.


Section TrackAction.
Import Prim Actions.
Context {U : UnicodeLower} {Sch : Store.Schema}.

Lemma withTrackArtists_same s : Store.withTrackArtists s (Store.trackArtists s) = s.
Proof. now destruct s. Qed.

Lemma withSpotifyTrack_same s : Store.withSpotifyTrack s (Store.spotifyTrack s) = s.
Proof. now destruct s. Qed.

Lemma pairsWritten_nil s t : pairsWritten s t [] = s.
Proof.
  unfold pairsWritten. cbn.
  rewrite (left_id_L ∅ (∪)). apply withTrackArtists_same.
Qed.

Lemma pairsWritten_cons s t a rest :
  pairsWritten
    (Store.withTrackArtists s ({[ (t, artist_id a) ]} ∪ Store.trackArtists s))
    t rest
  = pairsWritten s t (a :: rest).
Proof.
  unfold pairsWritten. destruct s. cbn. f_equal.
  rewrite (assoc_L (∪)). f_equal. apply (comm_L (∪)).
Qed.

Lemma pairsWritten_present s t a :
  (t, artist_id a) ∈ Store.trackArtists s ->
  Store.withTrackArtists s ({[ (t, artist_id a) ]} ∪ Store.trackArtists s) = s.
Proof.
  intros Hin.
  rewrite (subseteq_union_1_L {[ (t, artist_id a) ]} (Store.trackArtists s))
    by (now apply singleton_subseteq_l).
  apply withTrackArtists_same.
Qed.

(** Pairing a track with an artist: a statement on the store, which adds
    the pair unless it is there, or is refused. *)
Lemma insertTrackArtist_cases t a env w :
  exists r w1,
    insertTrackArtist t (artist_id a) env w = (r, w1)
    /\ trace w1 = StoreWrite Store.TTrackArtists :: trace w
    /\ ((r = Ok tt
         /\ store w1
            = Store.withTrackArtists (store w)
                ({[ (t, artist_id a) ]} ∪ Store.trackArtists (store w))
         /\ (Store.admissible (store w) = true ->
             Store.admissible (store w1) = true))
        \/ ((exists e, r = Throw e) /\ store w1 = store w
            /\ (t, artist_id a) ∉ Store.trackArtists (store w))).
Proof.
  unfold insertTrackArtist, bind, getStore, emit.
  destruct (bool_decide ((t, artist_id a) ∈ Store.trackArtists (store w))) eqn:Hin.
  - apply bool_decide_eq_true in Hin. eexists _, _. split; [reflexivity|].
    split; [reflexivity|]. left. cbn.
    rewrite (pairsWritten_present _ _ _ Hin). tauto.
  - apply bool_decide_eq_false in Hin.
    match goal with
    | |- context [commit ?tb ?s' ?e ?w0] =>
        destruct (commit_cases tb s' e w0) as [[Hadm Hc] | [Hadm Hc]]; rewrite Hc
    end.
    + eexists _, _. split; [reflexivity|]. split; [reflexivity|]. left. cbn. tauto.
    + eexists _, _. split; [reflexivity|]. split; [reflexivity|]. right. cbn.
      split; [eauto|]. tauto.
Qed.

(** The loop over the artists of a track. *)
Lemma pairs_loop t env : forall l w r w1,
  forEach (fun artist => insertTrackArtist t (artist_id artist)) l env w
  = (r, w1) ->
  (exists es, trace w1 = es ++ trace w
              /\ Forall (fun e => isStoreWrite e = true) es)
  /\ ((r = Ok tt /\ store w1 = pairsWritten (store w) t l
       /\ (Store.admissible (store w) = true -> Store.admissible (store w1) = true))
      \/ ((exists e, r = Throw e)
          /\ exists k, (k < length l)%nat
               /\ store w1 = pairsWritten (store w) t (take k l))).
Proof.
  induction l as [|a rest IH]; intros w r w1 Hrun.
  - cbn in Hrun. unfold ret in Hrun. injection Hrun as <- <-. split.
    + exists []. split; [reflexivity | constructor].
    + left. rewrite pairsWritten_nil. tauto.
  - cbn [forEach] in Hrun. unfold bind in Hrun.
    destruct (insertTrackArtist_cases t a env w)
      as (r0 & w0 & Hstep & Htr & [(-> & Hs0 & Hadm0) | ([e ->] & Hs0 & _)]);
      rewrite Hstep in Hrun.
    + destruct (IH _ _ _ Hrun) as ((es & Hes & Hall) & Hcases). split.
      * exists (es ++ [StoreWrite Store.TTrackArtists]).
        rewrite Hes, Htr, <- app_assoc. split; [reflexivity|].
        apply Forall_app. split; [exact Hall | now repeat constructor].
      * destruct Hcases as [(-> & Hs1 & Hadm1) | (He & k & Hk & Hs1)].
        -- left. split; [reflexivity|].
           split; [rewrite Hs1, Hs0; apply pairsWritten_cons | tauto].
        -- right. split; [exact He|]. exists (S k). cbn [length take].
           split; [lia|]. rewrite Hs1, Hs0. apply pairsWritten_cons.
    + injection Hrun as <- <-. split.
      * exists [StoreWrite Store.TTrackArtists]. split; [exact Htr|].
        now repeat constructor.
      * right. split; [eauto|]. exists 0%nat. cbn [length take].
        split; [lia|]. now rewrite pairsWritten_nil.
Qed.

Lemma addTrackToDatabase_run trackData env w ses :
  session env = Some ses ->
  user_name (user ses) = operator ->
  addTrackToDatabase trackData env w
  = match trackStatements trackData env w with
    | (Ok r, w1) => (Ok r, w1)
    | (Throw _, w1) => (Throw (lit "Failed to add track to database"), w1)
    end.
Proof.
  intros Hses Hname. unfold addTrackToDatabase.
  destruct (checkAuth_cases env w)
    as [[Hn _] | [(ses' & Hs & Hne & _) | (ses' & Hs & _ & Hc)]];
    [congruence | congruence |].
  unfold bind at 1. rewrite Hc. unfold tryCatch, throw.
  change (_ ;; _ ;; ret _) with (trackStatements trackData).
  destruct (trackStatements trackData env w) as [[r|e] w1]; reflexivity.
Qed.

Lemma trackStatements_result trackData env w r w' :
  trackStatements trackData env w = (r, w') ->
  let t := track_id trackData in
  let written := trackWritten (store w) (trackRowOf trackData) in
  (exists es, trace w' = es ++ trace w
              /\ Forall (fun e => isStoreWrite e = true) es)
  /\ ((r = Ok (trackAdded trackData)
       /\ store w' = pairsWritten written t (artists trackData)
       /\ Store.admissible (store w') = true)
      \/ ((exists e, r = Throw e)
          /\ (store w' = store w
              \/ exists k, (k < length (artists trackData))%nat
                   /\ store w' = pairsWritten written t (take k (artists trackData))))).
Proof.
  intros Hrun t written. unfold trackStatements in Hrun.
  unfold bind at 1 in Hrun.
  change (upsertSpotifyTrack (trackRowOf trackData) env w)
    with (commit Store.TSpotifyTrack written env w) in Hrun.
  destruct (commit_cases Store.TSpotifyTrack written env w)
    as [[Hadm Hc] | [Hadm Hc]]; rewrite Hc in Hrun.
  - unfold bind in Hrun.
    destruct (forEach _ (artists trackData) env _) as [r1 w1] eqn:Hloop.
    apply pairs_loop in Hloop. cbn [store trace] in Hloop.
    destruct Hloop as ((es & Hes & Hall) & Hcases). split.
    + exists (es ++ [StoreWrite Store.TSpotifyTrack]).
      assert (trace w' = trace w1) as ->.
      { destruct r1; unfold ret in Hrun; now injection Hrun as <- <-. }
      rewrite Hes, <- app_assoc. split; [reflexivity|].
      apply Forall_app. split; [exact Hall | now repeat constructor].
    + destruct Hcases as [(-> & Hs1 & Hadm1) | ([e ->] & k & Hk & Hs1)].
      * unfold ret in Hrun. injection Hrun as <- <-. left.
        split; [reflexivity|]. split; [exact Hs1 | now apply Hadm1].
      * injection Hrun as <- <-. right. split; [eauto|]. right. eauto.
  - injection Hrun as <- <-. split.
    + exists [StoreWrite Store.TSpotifyTrack]. split; [reflexivity|].
      now repeat constructor.
    + right. split; [eauto|]. now left.
Qed.

(** X7.  What adding a track does.  For the operator,
    [addTrackToDatabase] asks neither the token broker nor the provider:
    its only effects are statements on the store.  When it resolves, the
    store differs from the former one by the track's row, written under the
    track's identifier, and by the pairs of the track with each of its
    artists, added to the pairs that were there.  Otherwise it throws
    "Failed to add track to database" and the store is as it was or holds
    the track's row and the pairs of the first artists: what was written
    before the failure stays. *)
Theorem track_action_effects (env : Env) (w w' : World) (trackData : TrackData)
  (ses : Session) (r : Result ActionResult) :
  session env = Some ses ->
  user_name (user ses) = operator ->
  addTrackToDatabase trackData env w = (r, w') ->
  let t := track_id trackData in
  let written := trackWritten (store w) (trackRowOf trackData) in
  (exists es, trace w' = es ++ trace w
              /\ Forall (fun e => isStoreWrite e = true) es)
  /\ ((r = Ok (trackAdded trackData)
       /\ store w' = pairsWritten written t (artists trackData)
       /\ Store.spotifyTrack (store w') !! t = Some (trackRowOf trackData)
       /\ (forall a, In a (artists trackData) ->
             (t, artist_id a) ∈ Store.trackArtists (store w'))
       /\ Store.trackArtists (store w) ⊆ Store.trackArtists (store w'))
      \/ (r = Throw (lit "Failed to add track to database")
          /\ (store w' = store w
              \/ exists k, (k < length (artists trackData))%nat
                   /\ store w' = pairsWritten written t (take k (artists trackData))))).
Proof.
  intros Hses Hname Hrun t written.
  rewrite (addTrackToDatabase_run _ _ _ ses Hses Hname) in Hrun.
  destruct (trackStatements trackData env w) as [r1 w1] eqn:Hst.
  apply trackStatements_result in Hst. fold t written in Hst.
  destruct Hst as (Heff & Hcases).
  assert (w' = w1) as -> by (destruct r1; now injection Hrun).
  split; [exact Heff|].
  destruct Hcases as [(-> & Hs & _) | ([e ->] & Hs)]; injection Hrun as <-.
  - left. split; [reflexivity|]. split; [exact Hs|]. rewrite Hs.
    unfold pairsWritten, written, trackWritten. cbn.
    split; [apply lookup_insert_eq|]. split; [|apply union_subseteq_r].
    intros a Ha. apply elem_of_union_l, elem_of_list_to_set, list_elem_of_In.
    now apply (List.in_map (fun a => (t, artist_id a))).
  - right. split; [reflexivity | exact Hs].
Qed.

Lemma trackWritten_same s row :
  Store.spotifyTrack s !! Store.track_spotifyId row = Some row ->
  trackWritten s row = s.
Proof.
  intros H. unfold trackWritten. rewrite insert_id by exact H.
  apply withSpotifyTrack_same.
Qed.

Lemma pairs_loop_present t env : forall l w,
  Forall (fun a => (t, artist_id a) ∈ Store.trackArtists (store w)) l ->
  exists w1,
    forEach (fun artist => insertTrackArtist t (artist_id artist)) l env w
    = (Ok tt, w1)
    /\ store w1 = store w.
Proof.
  induction l as [|a rest IH]; intros w Hall.
  - exists w. split; reflexivity.
  - inversion Hall as [|? ? Ha Hrest]; subst.
    cbn [forEach]. unfold bind.
    unfold insertTrackArtist at 1. unfold bind, getStore, emit.
    rewrite bool_decide_eq_true_2 by exact Ha.
    destruct (IH {| store := store w;
                    trace := StoreWrite Store.TTrackArtists :: trace w |} Hrest)
      as (w1 & Hrun & Hs).
    exists w1. split; [exact Hrun | exact Hs].
Qed.

(** X8.  Adding a track twice is adding it once: after
    [addTrackToDatabase] has resolved for the operator, the same call
    resolves again and leaves the store as the first call left it. *)
Theorem track_action_idempotent (env : Env) (w w1 : World) (trackData : TrackData)
  (ses : Session) :
  session env = Some ses ->
  user_name (user ses) = operator ->
  addTrackToDatabase trackData env w = (Ok (trackAdded trackData), w1) ->
  exists w2,
    addTrackToDatabase trackData env w1 = (Ok (trackAdded trackData), w2)
    /\ store w2 = store w1.
Proof.
  intros Hses Hname Hrun.
  rewrite (addTrackToDatabase_run _ _ _ ses Hses Hname) in Hrun.
  destruct (trackStatements trackData env w) as [r0 w0] eqn:Hst.
  apply trackStatements_result in Hst. destruct Hst as (_ & Hcases).
  destruct Hcases as [(-> & Hs & Hadm) | ([e ->] & _)]; [|discriminate].
  injection Hrun as ->.
  assert (Hrow : Store.spotifyTrack (store w1) !! track_id trackData
                 = Some (trackRowOf trackData)).
  { rewrite Hs. cbn. apply lookup_insert_eq. }
  assert (Hpairs : Forall (fun a => (track_id trackData, artist_id a)
                                      ∈ Store.trackArtists (store w1))
                     (artists trackData)).
  { apply List.Forall_forall. intros a Ha. rewrite Hs. cbn.
    apply elem_of_union_l, elem_of_list_to_set, list_elem_of_In.
    now apply (List.in_map (fun a => (track_id trackData, artist_id a))). }
  rewrite (addTrackToDatabase_run _ _ _ ses Hses Hname).
  unfold trackStatements. unfold bind at 1.
  change (upsertSpotifyTrack (trackRowOf trackData) env w1)
    with (commit Store.TSpotifyTrack
            (trackWritten (store w1) (trackRowOf trackData)) env w1).
  rewrite (trackWritten_same (store w1) (trackRowOf trackData) Hrow).
  destruct (commit_cases Store.TSpotifyTrack (store w1) env w1)
    as [[_ Hc] | [Hbad _]]; [|congruence].
  rewrite Hc. unfold bind.
  destruct (pairs_loop_present (track_id trackData) env (artists trackData)
              {| store := store w1;
                 trace := StoreWrite Store.TSpotifyTrack :: trace w1 |} Hpairs)
    as (w2 & Hloop & Hs2).
  rewrite Hloop. exists w2. split; [reflexivity | exact Hs2].
Qed.

End TrackAction.

Section TrackActionWitness.
Import Prim Actions.

(** A witness: the operator adds a track with one artist to the empty
    store. *)
Lemma track_action_effects_witness :
  fst (addTrackToDatabase exampleTrackData operatorEnv emptyWorld)
  = Ok (trackAdded exampleTrackData)
  /\ Store.spotifyTrack
       (store (snd (addTrackToDatabase exampleTrackData operatorEnv emptyWorld)))
     !! lit "track1" = Some (trackRowOf exampleTrackData).
Proof.
  destruct (track_action_effects operatorEnv emptyWorld _ exampleTrackData
              operatorSession _ eq_refl eq_refl (surjective_pairing _))
    as (_ & [(Hr & _ & Hrow & _) | (Hr & _)]).
  - split; [exact Hr | exact Hrow].
  - exfalso. vm_compute in Hr. discriminate.
Defined.

(** A witness: and adds it again. *)
Lemma track_action_idempotent_witness :
  exists w2,
    addTrackToDatabase exampleTrackData operatorEnv
      (snd (addTrackToDatabase exampleTrackData operatorEnv emptyWorld))
    = (Ok (trackAdded exampleTrackData), w2)
    /\ store w2
       = store (snd (addTrackToDatabase exampleTrackData operatorEnv emptyWorld)).
Proof.
  apply (track_action_idempotent operatorEnv emptyWorld _ exampleTrackData
           operatorSession eq_refl eq_refl).
  reflexivity.
Defined.

End TrackActionWitness.


(** ** The server actions: works and movements *)

Section CheckAction.
Import Prim Actions.
Context {U : UnicodeLower} {Sch : Store.Schema}.

Lemma selectWhere_In {K V} `{Countable K} (m : gmap K V) (cond : V -> bool) v :
  In v (selectWhere m cond) <-> stored m v /\ cond v = true.
Proof.
  unfold selectWhere, stored. rewrite List.filter_In.
  rewrite <- list_elem_of_In, list_elem_of_fmap. split.
  - intros [([k v'] & -> & Hin) Hc]. apply elem_of_map_to_list in Hin. eauto.
  - intros [[k Hk] Hc]. split; [|exact Hc].
    exists (k, v). split; [reflexivity | now apply elem_of_map_to_list].
Qed.

Lemma checkWorkAndMovement_run c s n k env w ses :
  session env = Some ses ->
  user_name (user ses) = operator ->
  checkWorkAndMovement c s n k env w
  = (Ok (match selectWhere (Store.work (store w)) (workMatches c s n) with
         | [] =>
             {| workExists := false; movementExists := false;
                foundWork := None; foundMovement := None |}
         | existingWork :: _ =>
             let existingMovement :=
               head (selectWhere (Store.movement (store w))
                       (movementMatches (Store.work_id existingWork) k)) in
             {| workExists := true;
                movementExists := bool_decide (is_Some existingMovement);
                foundWork := Some existingWork;
                foundMovement := existingMovement |}
         end), w).
Proof.
  intros Hses Hname. unfold checkWorkAndMovement.
  destruct (checkAuth_cases env w)
    as [[Hn _] | [(ses' & Hs & Hne & _) | (ses' & Hs & _ & Hc)]];
    [congruence | congruence |].
  unfold bind at 1. rewrite Hc. unfold tryCatch, bind, getStore, ret.
  change (fun w0 : Store.WorkRow => _) with (workMatches c s n).
  destruct (selectWhere (Store.work (store w)) (workMatches c s n)); reflexivity.
Qed.

(** X9.  Checking a work and a movement reads the store and nothing else.
    For the operator, [checkWorkAndMovement] resolves and leaves the world
    as it was: no statement on the store, no request.  It reports a work
    exactly when some stored work has the given composer, catalog system
    and catalog number -- compared as they are, the case included -- and
    the work it returns is such a row; it reports a movement exactly when
    some stored movement of the returned work has the given number, and the
    movement it returns is such a row.  Without a work it reports no
    movement. *)
Theorem check_reads_the_store (env : Env) (w : World) (ses : Session)
  (c s n : jsstring) (k : Z) :
  session env = Some ses ->
  user_name (user ses) = operator ->
  exists res,
    checkWorkAndMovement c s n k env w = (Ok res, w)
    /\ (workExists res = true
        <-> exists wr, stored (Store.work (store w)) wr
                       /\ workMatches c s n wr = true)
    /\ (forall wr, foundWork res = Some wr ->
          workExists res = true
          /\ stored (Store.work (store w)) wr /\ workMatches c s n wr = true
          /\ (movementExists res = true
              <-> exists mr, stored (Store.movement (store w)) mr
                             /\ movementMatches (Store.work_id wr) k mr = true))
    /\ (foundWork res = None -> workExists res = false /\ movementExists res = false)
    /\ (forall mr, foundMovement res = Some mr ->
          movementExists res = true
          /\ stored (Store.movement (store w)) mr
          /\ Store.movement_number mr = k
          /\ exists wr, foundWork res = Some wr
                        /\ Store.movement_workId mr = Store.work_id wr)
    /\ (foundMovement res = None -> movementExists res = false).
Proof.
  intros Hses Hname. eexists. split.
  { apply (checkWorkAndMovement_run c s n k env w ses Hses Hname). }
  destruct (selectWhere (Store.work (store w)) (workMatches c s n))
    as [|wr0 works] eqn:Hworks.
  - cbn. split; [|repeat split; try discriminate].
    split; [discriminate|]. intros (wr & Hwr).
    apply selectWhere_In in Hwr. rewrite Hworks in Hwr. destruct Hwr.
  - assert (Hwr0 : stored (Store.work (store w)) wr0 /\ workMatches c s n wr0 = true).
    { apply selectWhere_In. rewrite Hworks. now left. }
    set (ms := selectWhere (Store.movement (store w))
                 (movementMatches (Store.work_id wr0) k)).
    cbn. fold ms.
    assert (Hms : bool_decide (is_Some (head ms)) = true
                  <-> exists mr, stored (Store.movement (store w)) mr
                        /\ movementMatches (Store.work_id wr0) k mr = true).
    { rewrite bool_decide_eq_true. split.
      - intros [mr Hmr]. exists mr. apply selectWhere_In. fold ms.
        destruct ms; [discriminate|]. injection Hmr as ->. now left.
      - intros (mr & Hmr). apply selectWhere_In in Hmr. fold ms in Hmr.
        destruct ms; [destruct Hmr | eauto]. }
    split; [split; [eauto | reflexivity]|].
    split; [intros wr [= <-]; tauto|].
    split; [discriminate|]. split.
    + intros mr Hmr. split; [rewrite Hmr; now apply bool_decide_eq_true_2|].
      assert (Hin : In mr ms) by (destruct ms; [discriminate|]; injection Hmr as ->; now left).
      apply selectWhere_In in Hin. destruct Hin as [Hst Hmatch].
      unfold movementMatches in Hmatch. apply andb_true_iff in Hmatch.
      destruct Hmatch as [Hw Hk]. apply bool_decide_eq_true in Hw, Hk.
      split; [exact Hst|]. split; [exact Hk|]. exists wr0. now split.
    + intros ->. apply bool_decide_eq_false_2. intros [? ?]. discriminate.
Qed.

End CheckAction.

Section CheckActionWitness.
Import Prim Actions.

(** A witness: in the empty store there is no work. *)
Lemma check_reads_the_store_witness :
  exists res,
    checkWorkAndMovement (lit "beethoven") (lit "Op") (lit "67") 1
      operatorEnv emptyWorld = (Ok res, emptyWorld)
    /\ workExists res = false /\ movementExists res = false.
Proof.
  destruct (check_reads_the_store operatorEnv emptyWorld operatorSession
              (lit "beethoven") (lit "Op") (lit "67") 1 eq_refl eq_refl)
    as (res & Hrun & _ & _ & Hnone & _).
  exists res. split; [exact Hrun|]. apply Hnone.
  rewrite (checkWorkAndMovement_run _ _ _ _ operatorEnv emptyWorld
             operatorSession eq_refl eq_refl) in Hrun.
  injection Hrun as <-. reflexivity.
Defined.

End CheckActionWitness.


Section LinkAction.
Import Prim Actions.
Context {U : UnicodeLower} {Sch : Store.Schema}.

Lemma upsertWork_commit row env w :
  upsertWork row env w = commit Store.TWork (workWritten (store w) row) env w.
Proof.
  unfold upsertWork, workWritten, mergedWork, bind, getStore.
  destruct (Store.work (store w) !! Store.work_id row); reflexivity.
Qed.

Lemma upsertMovement_commit row env w :
  upsertMovement row env w
  = commit Store.TMovement (movementWritten (store w) row) env w.
Proof.
  unfold upsertMovement, movementWritten, mergedMovement, bind, getStore.
  destruct (Store.movement (store w) !! Store.movement_id row); reflexivity.
Qed.

Lemma insertTrackMovement_commit row env w :
  insertTrackMovement row env w
  = match Store.trackMovement (store w)
          !! (Store.tm_spotifyTrackId row, Store.tm_movementId row) with
    | Some _ => (Ok tt, logged Store.TTrackMovement w)
    | None => commit Store.TTrackMovement (linkWritten (store w) row) env w
    end.
Proof.
  unfold insertTrackMovement, linkWritten, bind, getStore, emit, logged.
  destruct (Store.trackMovement (store w) !! _); reflexivity.
Qed.

Lemma addWorkMovementAndTrack_run data env w ses :
  session env = Some ses ->
  user_name (user ses) = operator ->
  addWorkMovementAndTrack data env w
  = match linkStatements data env w with
    | (Ok r, w1) => (Ok r, w1)
    | (Throw _, w1) => (Throw (lit "Failed to add work, movement, and track"), w1)
    end.
Proof.
  intros Hses Hname. rewrite addWorkMovementAndTrack_unfold.
  destruct (checkAuth_cases env w)
    as [[Hn _] | [(ses' & Hs & Hne & _) | (ses' & Hs & _ & Hc)]];
    [congruence | congruence |].
  unfold bind at 1. rewrite Hc. unfold tryCatch, throw.
  destruct (linkStatements data env w) as [[r|e] w1]; reflexivity.
Qed.

(** When the three statements go through, the store is [linked]. *)
Lemma linkStatements_Ok data env w r w' :
  linkStatements data env w = (Ok r, w') ->
  r = linkResultOf data
  /\ store w' = linked (store w) data
  /\ Store.admissible (store w') = true.
Proof.
  unfold linkStatements. intros Hrun. unfold bind at 1 in Hrun.
  rewrite upsertWork_commit in Hrun.
  destruct (commit_cases Store.TWork (workWritten (store w) (workRowOf data)) env w)
    as [[Hadm1 Hc] | [_ Hc]]; rewrite Hc in Hrun; [|discriminate].
  unfold bind at 1 in Hrun. rewrite upsertMovement_commit in Hrun. cbn [store] in Hrun.
  match type of Hrun with
  | context [commit Store.TMovement ?s' ?e ?w0] =>
      destruct (commit_cases Store.TMovement s' e w0) as [[Hadm2 Hc2] | [_ Hc2]];
      rewrite Hc2 in Hrun; [|discriminate]
  end.
  unfold bind at 1 in Hrun. rewrite insertTrackMovement_commit in Hrun.
  cbn [store] in Hrun. unfold linked, linkWritten at 1.
  destruct (Store.trackMovement _ !! _) eqn:Hl.
  - unfold ret, logged in Hrun. injection Hrun as <- <-. cbn [store].
    repeat split. exact Hadm2.
  - match type of Hrun with
    | context [commit Store.TTrackMovement ?s' ?e ?w0] =>
        destruct (commit_cases Store.TTrackMovement s' e w0) as [[Hadm3 Hc3] | [_ Hc3]];
        rewrite Hc3 in Hrun; [|discriminate]
    end.
    unfold ret in Hrun. injection Hrun as <- <-. cbn [store].
    unfold linkWritten in Hadm3 |- *. rewrite Hl in Hadm3 |- *.
    repeat split. exact Hadm3.
Qed.

Lemma mergedWork_stable old row :
  mergedWork (Some (mergedWork old row)) row = mergedWork old row.
Proof. destruct old, row; reflexivity. Qed.

Lemma mergedMovement_stable old row :
  mergedMovement (Some (mergedMovement old row)) row = mergedMovement old row.
Proof. destruct old, row; reflexivity. Qed.

Lemma withWork_same s : Store.withWork s (Store.work s) = s.
Proof. now destruct s. Qed.

Lemma withMovement_same s : Store.withMovement s (Store.movement s) = s.
Proof. now destruct s. Qed.

Lemma workWritten_same s row old :
  Store.work s !! Store.work_id row = Some (mergedWork old row) ->
  workWritten s row = s.
Proof.
  intros H. unfold workWritten. rewrite H, mergedWork_stable.
  rewrite insert_id by exact H. apply withWork_same.
Qed.

Lemma movementWritten_same s row old :
  Store.movement s !! Store.movement_id row = Some (mergedMovement old row) ->
  movementWritten s row = s.
Proof.
  intros H. unfold movementWritten. rewrite H, mergedMovement_stable.
  rewrite insert_id by exact H. apply withMovement_same.
Qed.

Lemma linkWritten_tables s row :
  Store.work (linkWritten s row) = Store.work s
  /\ Store.movement (linkWritten s row) = Store.movement s
  /\ is_Some (Store.trackMovement (linkWritten s row)
                !! (Store.tm_spotifyTrackId row, Store.tm_movementId row)).
Proof.
  unfold linkWritten.
  destruct (Store.trackMovement s !! _) eqn:Hl; cbn.
  - rewrite Hl. eauto.
  - rewrite lookup_insert_eq. eauto.
Qed.

(** The rows of the work and of the movement in the [linked] store. *)
Lemma linked_rows s data :
  let W := workIdOf (composerId data) (catalogSystem data) (catalogNumber data) in
  let Mv := movementIdOf W (movementNumber data) in
  Store.work (linked s data) !! W
  = Some (mergedWork (Store.work s !! W) (workRowOf data))
  /\ Store.movement (linked s data) !! Mv
     = Some (mergedMovement (Store.movement s !! Mv) (movementRowOf data))
  /\ is_Some (Store.trackMovement (linked s data) !! (spotifyTrackId data, Mv))
  /\ (forall k, k <> W -> Store.work (linked s data) !! k = Store.work s !! k)
  /\ (forall k, k <> Mv ->
        Store.movement (linked s data) !! k = Store.movement s !! k).
Proof.
  intros W Mv. unfold linked.
  destruct (linkWritten_tables
              (movementWritten (workWritten s (workRowOf data)) (movementRowOf data))
              (linkRowOf data)) as (Hw & Hm & Hl).
  rewrite Hw, Hm. cbn.
  split; [apply lookup_insert_eq|]. split; [apply lookup_insert_eq|].
  split; [exact Hl|].
  split; intros k Hk; now apply lookup_insert_ne.
Qed.

(** X11.  Linking a track twice is linking it once: after
    [addWorkMovementAndTrack] has resolved for the operator, the same call
    resolves again with the same identifiers and leaves the store as the
    first call left it. *)
Theorem link_action_idempotent (env : Env) (w w1 : World) (data : WorkData)
  (ses : Session) (r : LinkResult) :
  session env = Some ses ->
  user_name (user ses) = operator ->
  addWorkMovementAndTrack data env w = (Ok r, w1) ->
  exists w2,
    addWorkMovementAndTrack data env w1 = (Ok r, w2)
    /\ store w2 = store w1.
Proof.
  intros Hses Hname Hrun.
  rewrite (addWorkMovementAndTrack_run _ _ _ ses Hses Hname) in Hrun.
  destruct (linkStatements data env w) as [[r0|e] w0] eqn:Hst; [|discriminate].
  injection Hrun as -> ->.
  apply linkStatements_Ok in Hst. destruct Hst as (-> & Hs & Hadm).
  destruct (linked_rows (store w) data) as (Hwr & Hmr & Hlk & _).
  rewrite <- Hs in Hwr, Hmr, Hlk.
  rewrite (addWorkMovementAndTrack_run _ _ _ ses Hses Hname).
  unfold linkStatements. unfold bind at 1.
  rewrite upsertWork_commit.
  rewrite (workWritten_same (store w1) (workRowOf data) _ Hwr).
  destruct (commit_cases Store.TWork (store w1) env w1) as [[_ Hc] | [Hbad _]];
    [|congruence].
  rewrite Hc. unfold bind at 1. rewrite upsertMovement_commit. cbn [store].
  rewrite (movementWritten_same (store w1) (movementRowOf data) _ Hmr).
  match goal with
  | |- context [commit Store.TMovement ?s' ?e ?w0] =>
      destruct (commit_cases Store.TMovement s' e w0) as [[_ Hc2] | [Hbad _]];
      [|congruence]
  end.
  rewrite Hc2. unfold bind at 1. rewrite insertTrackMovement_commit. cbn [store].
  destruct Hlk as [old Hold]. cbn in Hold |- *. rewrite Hold.
  unfold bind, ret, logged. eexists. split; reflexivity.
Qed.

(** X10.  What is added is found.  After [addWorkMovementAndTrack] has
    resolved for the operator, [checkWorkAndMovement] with the same
    composer, catalog system, catalog number and movement number reports
    the work and the movement, and returns a work with the derived
    identifier and a movement of that work with that number -- provided
    that, before, a work stored under the derived identifier had the same
    composer (the update leaves the composer of a work as it is), the
    stored works with the same composer, catalog system and catalog number
    had the derived identifier, and a movement stored under the derived
    identifier belonged to that work (the update leaves the work of a
    movement as it is). *)
Theorem added_work_is_found (env : Env) (w w1 : World) (data : WorkData)
  (ses : Session) (r : LinkResult) :
  session env = Some ses ->
  user_name (user ses) = operator ->
  addWorkMovementAndTrack data env w = (Ok r, w1) ->
  let W := workIdOf (composerId data) (catalogSystem data) (catalogNumber data) in
  let Mv := movementIdOf W (movementNumber data) in
  (forall wr, Store.work (store w) !! W = Some wr ->
     Store.work_composerId wr = composerId data) ->
  (forall wr, stored (Store.work (store w)) wr ->
     workMatches (composerId data) (catalogSystem data) (catalogNumber data) wr = true ->
     Store.work_id wr = W) ->
  (forall mr, Store.movement (store w) !! Mv = Some mr ->
     Store.movement_workId mr = W) ->
  exists res wr mr,
    checkWorkAndMovement (composerId data) (catalogSystem data) (catalogNumber data)
      (movementNumber data) env w1 = (Ok res, w1)
    /\ workExists res = true /\ movementExists res = true
    /\ foundWork res = Some wr /\ Store.work_id wr = W
    /\ foundMovement res = Some mr /\ Store.movement_workId mr = W
    /\ Store.movement_number mr = movementNumber data.
Proof.
  intros Hses Hname Hrun W Mv Hcomposer Hunique Hmovement.
  rewrite (addWorkMovementAndTrack_run _ _ _ ses Hses Hname) in Hrun.
  destruct (linkStatements data env w) as [[r0|e] w0] eqn:Hst; [|discriminate].
  injection Hrun as -> ->.
  apply linkStatements_Ok in Hst. destruct Hst as (-> & Hs & _).
  destruct (linked_rows (store w) data) as (Hwr & Hmr & _ & Hwout & _).
  fold W Mv in Hwr, Hmr, Hwout. rewrite <- Hs in Hwr, Hmr, Hwout.
  set (wr1 := mergedWork (Store.work (store w) !! W) (workRowOf data)) in *.
  set (mr1 := mergedMovement (Store.movement (store w) !! Mv) (movementRowOf data)) in *.
  assert (Hwr1 : workMatches (composerId data) (catalogSystem data)
                   (catalogNumber data) wr1 = true /\ Store.work_id wr1 = W).
  { unfold wr1, workMatches.
    destruct (Store.work (store w) !! W) as [old|] eqn:Hold; cbn.
    - rewrite (Hcomposer old eq_refl).
      rewrite !bool_decide_eq_true_2 by reflexivity. now split.
    - rewrite !bool_decide_eq_true_2 by reflexivity. now split. }
  assert (Hmr1 : movementMatches W (movementNumber data) mr1 = true).
  { unfold mr1, movementMatches.
    destruct (Store.movement (store w) !! Mv) as [old|] eqn:Hold; cbn.
    - rewrite (Hmovement old eq_refl).
      now rewrite !bool_decide_eq_true_2 by reflexivity.
    - now rewrite !bool_decide_eq_true_2 by reflexivity. }
  rewrite (checkWorkAndMovement_run _ _ _ _ env w1 ses Hses Hname).
  destruct (selectWhere (Store.work (store w1)) _) as [|wr0 works] eqn:Hworks.
  { exfalso.
    assert (Hin : In wr1 (selectWhere (Store.work (store w1))
                            (workMatches (composerId data) (catalogSystem data)
                               (catalogNumber data)))).
    { apply selectWhere_In. split; [exists W; exact Hwr | apply Hwr1]. }
    rewrite Hworks in Hin. destruct Hin. }
  assert (Hwr0 : Store.work_id wr0 = W).
  { assert (Hin : In wr0 (selectWhere (Store.work (store w1))
                            (workMatches (composerId data) (catalogSystem data)
                               (catalogNumber data))))
      by (rewrite Hworks; now left).
    apply selectWhere_In in Hin. destruct Hin as [[k0 Hk0] Hmatch].
    destruct (decide (k0 = W)) as [->|Hne].
    - rewrite Hwr in Hk0. injection Hk0 as <-. apply Hwr1.
    - rewrite (Hwout k0 Hne) in Hk0. apply Hunique; [exists k0; exact Hk0 | exact Hmatch]. }
  rewrite Hwr0.
  destruct (selectWhere (Store.movement (store w1)) _) as [|mr0 ms] eqn:Hms.
  { exfalso.
    assert (Hin : In mr1 (selectWhere (Store.movement (store w1))
                            (movementMatches W (movementNumber data)))).
    { apply selectWhere_In. split; [exists Mv; exact Hmr | exact Hmr1]. }
    rewrite Hms in Hin. destruct Hin. }
  assert (Hmr0 : movementMatches W (movementNumber data) mr0 = true).
  { assert (Hin : In mr0 (selectWhere (Store.movement (store w1))
                            (movementMatches W (movementNumber data))))
      by (rewrite Hms; now left).
    now apply selectWhere_In in Hin. }
  unfold movementMatches in Hmr0. apply andb_true_iff in Hmr0.
  destruct Hmr0 as [Hw0 Hk0]. apply bool_decide_eq_true in Hw0, Hk0.
  eexists _, wr0, mr0. split; [reflexivity|]. cbn.
  repeat split; try assumption.
Qed.

End LinkAction.

Section LinkActionWitness.
Import Prim Actions.

(** A witness: Beethoven's Op. 67, first movement, linked in the empty
    store, and linked again. *)
Lemma link_action_idempotent_witness :
  exists w2,
    addWorkMovementAndTrack fifthSymphony operatorEnv
      (snd (addWorkMovementAndTrack fifthSymphony operatorEnv emptyWorld))
    = (Ok (linkResultOf fifthSymphony), w2)
    /\ store w2
       = store (snd (addWorkMovementAndTrack fifthSymphony operatorEnv emptyWorld)).
Proof.
  apply (link_action_idempotent operatorEnv emptyWorld _ fifthSymphony
           operatorSession _ eq_refl eq_refl).
  reflexivity.
Defined.

(** A witness: and found. *)
Lemma added_work_is_found_witness :
  exists res wr mr,
    checkWorkAndMovement (lit "beethoven") (lit "Op") (lit "67") 1 operatorEnv
      (snd (addWorkMovementAndTrack fifthSymphony operatorEnv emptyWorld))
    = (Ok res,
       snd (addWorkMovementAndTrack fifthSymphony operatorEnv emptyWorld))
    /\ workExists res = true /\ movementExists res = true
    /\ foundWork res = Some wr /\ Store.work_id wr = lit "beethoven/op-67"
    /\ foundMovement res = Some mr
    /\ Store.movement_workId mr = lit "beethoven/op-67"
    /\ Store.movement_number mr = 1%Z.
Proof.
  apply (added_work_is_found operatorEnv emptyWorld _ fifthSymphony
           operatorSession (linkResultOf fifthSymphony) eq_refl eq_refl).
  - reflexivity.
  - intros wr H. cbn in H. rewrite lookup_empty in H. discriminate.
  - intros wr [k H] _. cbn in H. rewrite lookup_empty in H. discriminate.
  - intros mr H. cbn in H. rewrite lookup_empty in H. discriminate.
Defined.

End LinkActionWitness.


(** ** The track-metadata endpoint: failures and annotations *)

Section TrackEndpointMore.
Import Prim Actions Http TrackRoute.

Ltac run_route :=
  unfold TrackRoute.POST, Prim.getSession, Prim.getAccessToken, Prim.fetch,
    Prim.json, Prim.prop, Http.fail, Http.respond, Http.requestJson, tryCatch,
    bind, ret, throw, ask, getStore, emit.

Lemma tokenOf_Some env userId tok :
  tokenOf env userId = Some tok <-> accessToken env userId = Some tok /\ tok <> [].
Proof.
  unfold tokenOf. destruct (accessToken env userId) as [[|c r]|]; split;
    try discriminate; try (intros [[=] ?]; congruence).
  intros [= <-]. split; [reflexivity | discriminate].
Qed.

Lemma tokenOf_None env userId :
  tokenOf env userId = None
  <-> accessToken env userId = None \/ accessToken env userId = Some [].
Proof.
  unfold tokenOf. destruct (accessToken env userId) as [[|c r]|]; split;
    try tauto; try discriminate; intros [H|H]; discriminate.
Qed.

Lemma POST_no_token env w ses trackUri trackId :
  session env = Some ses -> user_name (user ses) = operator ->
  extractTrackId trackUri = Some trackId ->
  tokenOf env (user_id (user ses)) = None ->
  TrackRoute.POST (Some (Str trackUri)) env w
  = (Ok {| code := 401; payload := Error (lit "No Spotify access token") |},
     {| store := store w;
        trace := TokenRequest (user_id (user ses)) :: trace w |}).
Proof.
  intros Hses Hname Hex Htok. run_route.
  rewrite Hses. rewrite bool_decide_eq_true_2 by exact Hname. cbn.
  destruct trackUri as [|c r]; [discriminate|].
  rewrite Hex.
  apply extractTrackId_nonempty in Hex. destruct trackId as [|i d]; [congruence|].
  cbn. apply tokenOf_None in Htok. destruct Htok as [-> | ->]; reflexivity.
Qed.

Lemma POST_network_error env w ses trackUri trackId tok :
  session env = Some ses -> user_name (user ses) = operator ->
  extractTrackId trackUri = Some trackId ->
  tokenOf env (user_id (user ses)) = Some tok ->
  provider env (trackUrl trackId) tok = NetworkError ->
  TrackRoute.POST (Some (Str trackUri)) env w
  = (Ok {| code := 500; payload := Error (lit "Failed to fetch track metadata") |},
     {| store := store w;
        trace := ProviderFetch (trackUrl trackId) tok
                 :: TokenRequest (user_id (user ses)) :: trace w |}).
Proof.
  intros Hses Hname Hex Htok Hprov. run_route.
  rewrite Hses. rewrite bool_decide_eq_true_2 by exact Hname. cbn.
  destruct trackUri as [|c r]; [discriminate|].
  rewrite Hex.
  apply extractTrackId_nonempty in Hex. destruct trackId as [|i d]; [congruence|].
  cbn. apply tokenOf_Some in Htok. destruct Htok as [-> Hne].
  destruct tok as [|t tok]; [congruence|]. cbn.
  now rewrite Hprov.
Qed.

(** X12.  The failures of the track-metadata endpoint, for a reference of
    the operator from which an identifier is extracted.  Without a token
    the endpoint answers 401 "No Spotify access token" and has not called
    the provider.  With a token it answers 500 "Failed to fetch track
    metadata" when the call to the provider fails, when the body of the
    answer is not JSON or is null, when a success answer lacks the fields
    of a track, and when the status of a failure answer is one that a reply
    with a body cannot carry.  In each case the store is as it was. *)
Theorem track_endpoint_failures (env : Env) (w : World) (ses : Session)
  (trackUri trackId : jsstring) :
  session env = Some ses ->
  user_name (user ses) = operator ->
  extractTrackId trackUri = Some trackId ->
  let userId := user_id (user ses) in
  (tokenOf env userId = None ->
   TrackRoute.POST (Some (Str trackUri)) env w
   = (Ok {| code := 401; payload := Error (lit "No Spotify access token") |},
      {| store := store w; trace := TokenRequest userId :: trace w |}))
  /\ (forall tok,
        tokenOf env userId = Some tok ->
        provider env (trackUrl trackId) tok = NetworkError
        \/ (exists resp,
              provider env (trackUrl trackId) tok = Fetched resp
              /\ (body resp = NotJson \/ body resp = JsonNull
                  \/ (ok resp = true
                      /\ exists j, body resp = JsonValue j /\ track j = None)
                  \/ (ok resp = false /\ replyStatus (status resp) = false))) ->
        TrackRoute.POST (Some (Str trackUri)) env w
        = (Ok {| code := 500;
                 payload := Error (lit "Failed to fetch track metadata") |},
           {| store := store w;
              trace := ProviderFetch (trackUrl trackId) tok
                       :: TokenRequest userId :: trace w |})).
Proof.
  intros Hses Hname Hex userId. split.
  - intros Htok. now apply (POST_no_token env w ses trackUri trackId).
  - intros tok Htok [Hnet | (resp & Hprov & Hbad)].
    + now apply (POST_network_error env w ses trackUri trackId tok).
    + pose proof Htok as Htok'. apply tokenOf_Some in Htok'.
      destruct Htok' as [Hacc Hne].
      rewrite (POST_fetched env w ses trackUri trackId tok resp
                 Hses Hname Hex Hacc Hne Hprov).
      f_equal. f_equal.
      destruct Hbad as [Hb | [Hb | [(Hok & j & Hb & Htr) | (Hok & Hst)]]];
        rewrite Hb || rewrite Hok.
      * now destruct (negb (ok resp)).
      * now destruct (negb (ok resp)).
      * rewrite Hok. cbn. destruct j. cbn in Htr. now rewrite Htr.
      * cbn. destruct (body resp); try reflexivity. now rewrite Hst.
Qed.

(** The reply to the operator when the provider answers with a track. *)
Lemma POST_annotated env w ses trackUri trackId tok resp j trackData :
  session env = Some ses -> user_name (user ses) = operator ->
  extractTrackId trackUri = Some trackId ->
  tokenOf env (user_id (user ses)) = Some tok ->
  provider env (trackUrl trackId) tok = Fetched resp ->
  ok resp = true -> body resp = JsonValue j -> track j = Some trackData ->
  TrackRoute.POST (Some (Str trackUri)) env w
  = (Ok {| code := 200; payload := Success (annotate (store w) trackData) |},
     {| store := store w;
        trace := ProviderFetch (trackUrl trackId) tok
                 :: TokenRequest (user_id (user ses)) :: trace w |}).
Proof.
  intros Hses Hname Hex Htok Hprov Hok Hbody Htrack.
  apply tokenOf_Some in Htok. destruct Htok as [Hacc Hne].
  rewrite (POST_fetched env w ses trackUri trackId tok resp
             Hses Hname Hex Hacc Hne Hprov).
  rewrite Hok, Hbody. cbn. destruct j. cbn in Htrack. now rewrite Htrack.
Qed.

Lemma mapGet_Some {V} (key : V -> jsstring) rows k r :
  mapGet key rows k = Some r -> In r rows /\ key r = k.
Proof.
  unfold mapGet. intros H.
  assert (Hin : In r (List.filter (fun r => bool_decide (key r = k)) (rev rows))).
  { destruct (List.filter _ _); [discriminate|]. injection H as ->. now left. }
  apply List.filter_In in Hin. destruct Hin as [Hin Hk].
  apply bool_decide_eq_true in Hk. split; [|exact Hk].
  now apply List.in_rev.
Qed.

Lemma mapGet_is_Some {V} (key : V -> jsstring) rows k :
  is_Some (mapGet key rows k) <-> exists r, In r rows /\ key r = k.
Proof.
  split.
  - intros [r Hr]. exists r. now apply mapGet_Some.
  - intros (r & Hin & Hk). unfold mapGet.
    assert (Hin' : In r (List.filter (fun r => bool_decide (key r = k)) (rev rows))).
    { apply List.filter_In. split; [|now apply bool_decide_eq_true_2].
      now apply (proj1 (List.in_rev rows r)). }
    destruct (List.filter _ _); [destruct Hin' | eauto].
Qed.

Lemma inArray_true x values : inArray x values = true <-> In x values.
Proof. unfold inArray. now rewrite bool_decide_eq_true, list_elem_of_In. Qed.

Lemma nonempty_exists {A} (l : list A) :
  negb (bool_decide (l = [])) = true <-> exists x, In x l.
Proof.
  destruct l as [|x l]; cbn.
  - split; [discriminate | intros [? []]].
  - split; [eauto | reflexivity].
Qed.

(** X13.  The annotations reflect the store.  When the provider answers
    the operator's request with a track, the endpoint replies 200 with the
    track's identifier and its artists in the provider's order; the track
    (the album, an artist) is flagged as stored exactly when the table of
    tracks (albums, artists) holds a row with its identifier; an artist is
    flagged as a composer exactly when some composer row refers to it, and
    then -- and only then -- the reply carries a composer identifier, which
    is that of such a row. *)
Theorem annotation_reflects_store (env : Env) (w : World) (ses : Session)
  (trackUri trackId tok : jsstring) (resp : Response) (j : Json)
  (trackData : TrackJson) :
  session env = Some ses ->
  user_name (user ses) = operator ->
  extractTrackId trackUri = Some trackId ->
  tokenOf env (user_id (user ses)) = Some tok ->
  provider env (trackUrl trackId) tok = Fetched resp ->
  ok resp = true -> body resp = JsonValue j -> track j = Some trackData ->
  exists tm w',
    TrackRoute.POST (Some (Str trackUri)) env w
    = (Ok {| code := 200; payload := Success tm |}, w')
    /\ tm_id tm = tj_id trackData
    /\ (inSpotifyTracksTable tm = true
        <-> exists row, stored (Store.spotifyTrack (store w)) row
                        /\ Store.track_spotifyId row = tj_id trackData)
    /\ (inSpotifyAlbumsTable (tm_album tm) = true
        <-> exists row, stored (Store.spotifyAlbum (store w)) row
                        /\ Store.album_spotifyId row = bj_id (tj_album trackData))
    /\ List.map (fun a => (av_id a, av_name a, av_uri a)) (tm_artists tm)
       = List.map (fun a => (aj_id a, aj_name a, aj_uri a)) (tj_artists trackData)
    /\ Forall
         (fun a =>
            (inSpotifyArtistsTable a = true
             <-> exists row, stored (Store.spotifyArtist (store w)) row
                             /\ Store.artist_spotifyId row = av_id a)
            /\ (inComposersTable a = true
                <-> exists row, stored (Store.composer (store w)) row
                                /\ Store.composer_spotifyArtistId row = av_id a)
            /\ (inComposersTable a = true <-> is_Some (av_composerId a))
            /\ (forall composerId, av_composerId a = Some composerId ->
                  exists row, stored (Store.composer (store w)) row
                              /\ Store.composer_spotifyArtistId row = av_id a
                              /\ Store.composer_id row = composerId))
         (tm_artists tm).
Proof.
  intros Hses Hname Hex Htok Hprov Hok Hbody Htrack.
  eexists _, _. split.
  { apply (POST_annotated env w ses trackUri trackId tok resp j trackData);
      assumption. }
  set (s := store w).
  split; [unfold annotate; now destruct (linkedData _ _ _) as [[[? ?] ?] ?]|].
  split.
  { unfold annotate. destruct (linkedData _ _ _) as [[[? ?] ?] ?]. cbn.
    rewrite nonempty_exists. split.
    - intros [row Hrow]. apply selectWhere_In in Hrow. destruct Hrow as [Hst Hid].
      apply bool_decide_eq_true in Hid. eauto.
    - intros (row & Hst & Hid). exists row. apply selectWhere_In.
      split; [exact Hst | now apply bool_decide_eq_true_2]. }
  split.
  { unfold annotate. destruct (linkedData _ _ _) as [[[? ?] ?] ?]. cbn.
    rewrite nonempty_exists. split.
    - intros [row Hrow]. apply selectWhere_In in Hrow. destruct Hrow as [Hst Hid].
      apply bool_decide_eq_true in Hid. eauto.
    - intros (row & Hst & Hid). exists row. apply selectWhere_In.
      split; [exact Hst | now apply bool_decide_eq_true_2]. }
  split.
  { unfold annotate. destruct (linkedData _ _ _) as [[[? ?] ?] ?]. cbn.
    rewrite List.map_map. reflexivity. }
  unfold annotate. destruct (linkedData _ _ _) as [[[? ?] ?] ?]. cbn.
  apply List.Forall_forall. intros a Ha. apply List.in_map_iff in Ha.
  destruct Ha as (artist & <- & Hartist). cbn.
  assert (Hid : In (aj_id artist) (List.map aj_id (tj_artists trackData)))
    by now apply List.in_map.
  split; [|split; [|split]].
  - rewrite bool_decide_eq_true, mapGet_is_Some. split.
    + intros (row & Hrow & Hk). apply selectWhere_In in Hrow. exists row. tauto.
    + intros (row & Hst & Hk). exists row. split; [|exact Hk].
      apply selectWhere_In. split; [exact Hst|]. apply inArray_true. now rewrite Hk.
  - rewrite bool_decide_eq_true, mapGet_is_Some. split.
    + intros (row & Hrow & Hk). apply selectWhere_In in Hrow. exists row. tauto.
    + intros (row & Hst & Hk). exists row. split; [|exact Hk].
      apply selectWhere_In. split; [exact Hst|]. apply inArray_true. now rewrite Hk.
  - rewrite bool_decide_eq_true. rewrite fmap_is_Some. reflexivity.
  - intros composerId Hc.
    destruct (mapGet Store.composer_spotifyArtistId _ (aj_id artist)) as [row|] eqn:Hget;
      [|discriminate].
    injection Hc as <-. apply mapGet_Some in Hget. destruct Hget as [Hrow Hk].
    apply selectWhere_In in Hrow. exists row. tauto.
Qed.

Lemma inArray_map {V} (f : V -> jsstring) x rows :
  inArray x (List.map f rows) = true <-> exists r, In r rows /\ f r = x.
Proof.
  rewrite inArray_true, List.in_map_iff.
  split; intros (r & H1 & H2); exists r; tauto.
Qed.

Lemma nil_members {A} (P : A -> Prop) :
  (forall x, ~ P x) -> forall x, In x [] <-> P x.
Proof. intros H x. split; [intros [] | apply H]. Qed.

(** The chain of a stored track: its links, the movements of the links,
    the works of the movements, the composers of the works. *)
Lemma linkedData_spec s trackId existingTrack :
  let '(tms, ms, ws, cs) := linkedData s trackId existingTrack in
  (forall l, In l tms
     <-> existingTrack <> [] /\ stored (Store.trackMovement s) l
         /\ Store.tm_spotifyTrackId l = trackId)
  /\ (forall m, In m ms
        <-> stored (Store.movement s) m
            /\ exists l, In l tms /\ Store.tm_movementId l = Store.movement_id m)
  /\ (forall wk, In wk ws
        <-> stored (Store.work s) wk
            /\ exists m, In m ms /\ Store.movement_workId m = Store.work_id wk)
  /\ (forall c, In c cs
        <-> stored (Store.composer s) c
            /\ exists wk, In wk ws /\ Store.work_composerId wk = Store.composer_id c).
Proof.
  unfold linkedData.
  destruct existingTrack as [|t0 ts].
  { split; [apply nil_members; intros x (Hne & _); congruence|].
    split; [apply nil_members; intros x (_ & ? & [] & _)|]. split; apply nil_members; intros x (_ & ? & [] & _). }
  set (tms := selectWhere (Store.trackMovement s) _).
  assert (Htms : forall l, In l tms
            <-> t0 :: ts <> [] /\ stored (Store.trackMovement s) l
                /\ Store.tm_spotifyTrackId l = trackId).
  { intros l. unfold tms. rewrite selectWhere_In, bool_decide_eq_true.
    split; [intros [? ?]; repeat split; [discriminate | assumption..] | tauto]. }
  destruct tms as [|l0 tms'] eqn:Etms.
  { split; [exact Htms|]. split; [apply nil_members; intros x (_ & ? & [] & _)|]. split; apply nil_members; intros x (_ & ? & [] & _). }
  rewrite <- Etms in *. clear Etms.
  set (ms := selectWhere (Store.movement s) _).
  assert (Hms : forall m, In m ms
            <-> stored (Store.movement s) m
                /\ exists l, In l tms /\ Store.tm_movementId l = Store.movement_id m).
  { intros m. unfold ms. now rewrite selectWhere_In, inArray_map. }
  destruct (List.map Store.movement_workId ms) as [|i0 ids] eqn:Eids.
  { apply List.map_eq_nil in Eids. split; [exact Htms|]. split; [exact Hms|].
    rewrite Eids. split; apply nil_members; intros x (_ & ? & [] & _). }
  rewrite <- Eids. clear Eids.
  set (ws := selectWhere (Store.work s) _).
  assert (Hws : forall wk, In wk ws
            <-> stored (Store.work s) wk
                /\ exists m, In m ms /\ Store.movement_workId m = Store.work_id wk).
  { intros wk. unfold ws. now rewrite selectWhere_In, inArray_map. }
  destruct (List.map Store.work_composerId ws) as [|c0 cids] eqn:Ecids.
  { apply List.map_eq_nil in Ecids. split; [exact Htms|]. split; [exact Hms|].
    split; [exact Hws|]. rewrite Ecids.
    apply nil_members. intros x (_ & ? & [] & _). }
  rewrite <- Ecids. clear Ecids.
  split; [exact Htms|]. split; [exact Hms|]. split; [exact Hws|].
  intros c. now rewrite selectWhere_In, inArray_map.
Qed.

(** X14.  The linked data of the reply is the chain that starts at the
    track.  It holds: the links of the track, when the track is stored (a
    link of a track that is not in the table of tracks is not reported);
    the stored movements that some reported link refers to; the stored
    works that some reported movement belongs to; the stored composers of
    the reported works -- these rows and no others. *)
Theorem linked_data_is_the_chain (env : Env) (w : World) (ses : Session)
  (trackUri trackId tok : jsstring) (resp : Response) (j : Json)
  (trackData : TrackJson) :
  session env = Some ses ->
  user_name (user ses) = operator ->
  extractTrackId trackUri = Some trackId ->
  tokenOf env (user_id (user ses)) = Some tok ->
  provider env (trackUrl trackId) tok = Fetched resp ->
  ok resp = true -> body resp = JsonValue j -> track j = Some trackData ->
  exists tm w',
    TrackRoute.POST (Some (Str trackUri)) env w
    = (Ok {| code := 200; payload := Success tm |}, w')
    /\ (forall l, In l (db_trackMovements (dbData tm))
          <-> inSpotifyTracksTable tm = true
              /\ stored (Store.trackMovement (store w)) l
              /\ Store.tm_spotifyTrackId l = tj_id trackData)
    /\ (forall m, In m (db_movements (dbData tm))
          <-> stored (Store.movement (store w)) m
              /\ exists l, In l (db_trackMovements (dbData tm))
                           /\ Store.tm_movementId l = Store.movement_id m)
    /\ (forall wk, In wk (db_works (dbData tm))
          <-> stored (Store.work (store w)) wk
              /\ exists m, In m (db_movements (dbData tm))
                           /\ Store.movement_workId m = Store.work_id wk)
    /\ (forall c, In c (db_composers (dbData tm))
          <-> stored (Store.composer (store w)) c
              /\ exists wk, In wk (db_works (dbData tm))
                            /\ Store.work_composerId wk = Store.composer_id c).
Proof.
  intros Hses Hname Hex Htok Hprov Hok Hbody Htrack.
  eexists _, _. split.
  { apply (POST_annotated env w ses trackUri trackId tok resp j trackData);
      assumption. }
  unfold annotate.
  set (existingTrack := selectWhere (Store.spotifyTrack (store w)) _).
  pose proof (linkedData_spec (store w) (tj_id trackData) existingTrack) as Hspec.
  destruct (linkedData (store w) (tj_id trackData) existingTrack)
    as [[[tms ms] ws] cs].
  cbn. destruct Hspec as (Htms & Hms & Hws & Hcs).
  split; [|split; [exact Hms | split; [exact Hws | exact Hcs]]].
  intros l. rewrite Htms.
  assert (Hne : existingTrack <> [] <-> negb (bool_decide (existingTrack = [])) = true).
  { destruct existingTrack; cbn; split; congruence. }
  now rewrite Hne.
Qed.

(** A witness: no token. *)
Lemma track_endpoint_failures_witness :
  TrackRoute.POST (Some (Str (lit "spotify:track:track1"))) noTokenEnv emptyWorld
  = (Ok {| code := 401; payload := Error (lit "No Spotify access token") |},
     {| store := Store.empty; trace := [TokenRequest (lit "u1")] |}).
Proof.
  apply (proj1 (track_endpoint_failures noTokenEnv emptyWorld operatorSession
                  (lit "spotify:track:track1") (lit "track1")
                  eq_refl eq_refl eq_refl)).
  reflexivity.
Defined.

(** A witness: a track that the empty store does not know. *)
Lemma annotation_reflects_store_witness :
  exists tm w',
    TrackRoute.POST (Some (Str (lit "spotify:track:track1"))) trackEnv emptyWorld
    = (Ok {| code := 200; payload := Success tm |}, w')
    /\ tm_id tm = lit "track1"
    /\ List.map av_id (tm_artists tm) = [lit "ar1"].
Proof.
  destruct (annotation_reflects_store trackEnv emptyWorld operatorSession
              (lit "spotify:track:track1") (lit "track1") (lit "token")
              {| status := 200; body := JsonValue exampleTrackAnswer |}
              exampleTrackAnswer exampleTrackJson
              eq_refl eq_refl eq_refl eq_refl eq_refl eq_refl eq_refl eq_refl)
    as (tm & w' & Hrun & Hid & _ & _ & Hartists & _).
  exists tm, w'. split; [exact Hrun|]. split; [exact Hid|].
  apply (f_equal (List.map (fun x => fst (fst x)))) in Hartists.
  rewrite !List.map_map in Hartists. exact Hartists.
Defined.

(** A witness: its reply reports no link. *)
Lemma linked_data_is_the_chain_witness :
  exists tm w',
    TrackRoute.POST (Some (Str (lit "spotify:track:track1"))) trackEnv emptyWorld
    = (Ok {| code := 200; payload := Success tm |}, w')
    /\ forall l, ~ In l (db_trackMovements (dbData tm)).
Proof.
  destruct (linked_data_is_the_chain trackEnv emptyWorld operatorSession
              (lit "spotify:track:track1") (lit "track1") (lit "token")
              {| status := 200; body := JsonValue exampleTrackAnswer |}
              exampleTrackAnswer exampleTrackJson
              eq_refl eq_refl eq_refl eq_refl eq_refl eq_refl eq_refl eq_refl)
    as (tm & w' & Hrun & Hlinks & _).
  exists tm, w'. split; [exact Hrun|].
  intros l Hl. apply Hlinks in Hl. destruct Hl as (_ & [k Hk] & _).
  cbn in Hk. rewrite lookup_empty in Hk. discriminate.
Defined.

End TrackEndpointMore.

(** ** The track-metadata endpoint: the identifier of a reference *)

Section ReferenceIdentifier.
Import TrackRoute.

Lemma takeAlnum_maximal s :
  exists post, s = takeAlnum s ++ post /\ endsIdentifier post.
Proof.
  induction s as [|c s (post & Hs & Hend)]; simpl.
  - exists []. split; [reflexivity | now left].
  - destruct (isAlnum c) eqn:Hc.
    + exists post. split; [simpl; now rewrite <- Hs | exact Hend].
    + exists (c :: s). split; [reflexivity|]. right. eauto.
Qed.

Lemma captureHere_maximal p s id :
  captureHere p s = Some id ->
  exists post, s = p ++ id ++ post /\ endsIdentifier post.
Proof.
  unfold captureHere. intros H.
  destruct (stripPrefix p s) as [rest|] eqn:Hp; [|discriminate].
  apply stripPrefix_Some in Hp. subst s.
  destruct (takeAlnum_maximal rest) as (post & Hrest & Hend).
  destruct (takeAlnum rest) as [|c r] eqn:Ht; [discriminate|].
  injection H as <-. exists post. now rewrite <- Hrest.
Qed.

(** What a successful search captured: the longest run of letters and
    digits that follows an occurrence of the pattern. *)
Lemma searchCapture_maximal p s id :
  searchCapture p s = Some id ->
  exists pre post, s = pre ++ p ++ id ++ post /\ endsIdentifier post.
Proof.
  induction s as [|c s IH]; simpl.
  - destruct (captureHere p []) as [id'|] eqn:Hc; [|discriminate].
    intros [= <-]. apply captureHere_maximal in Hc.
    destruct Hc as (post & Hs & Hend). exists [], post. now split.
  - destruct (captureHere p (c :: s)) as [id'|] eqn:Hc.
    + intros [= <-]. apply captureHere_maximal in Hc.
      destruct Hc as (post & Hs & Hend). exists [], post. now split.
    + intros H. destruct (IH H) as (pre & post & -> & Hend).
      exists (c :: pre), post. now split.
Qed.

(** X15.  The identifier that the endpoint extracts from a reference is
    not empty, consists of ASCII letters and digits, and is the whole run
    of letters and digits that follows an occurrence of "spotify:track:" in
    the reference -- or, when the reference has no such occurrence followed
    by a letter or digit, an occurrence of "open.spotify.com/track/": the
    text after the identifier stops or goes on with another unit, as the
    query of a share link does. *)
Theorem extracted_identifier (trackUri id : jsstring) :
  extractTrackId trackUri = Some id ->
  id <> []
  /\ Forall (fun c => isAlnum c = true) id
  /\ exists pre post,
       endsIdentifier post
       /\ (trackUri = pre ++ lit "spotify:track:" ++ id ++ post
           \/ (trackUri = pre ++ lit "open.spotify.com/track/" ++ id ++ post
               /\ ~ occursWithId (lit "spotify:track:") trackUri)).
Proof.
  unfold extractTrackId. intros H.
  destruct (searchCapture uriPattern trackUri) as [id'|] eqn:Huri.
  - injection H as <-.
    destruct (searchCapture_Some _ _ _ Huri) as (_ & Hne & Hall).
    destruct (searchCapture_maximal _ _ _ Huri) as (pre & post & Hs & Hend).
    split; [exact Hne|]. split; [exact Hall|].
    exists pre, post. split; [exact Hend | now left].
  - destruct (searchCapture_Some _ _ _ H) as (_ & Hne & Hall).
    destruct (searchCapture_maximal _ _ _ H) as (pre & post & Hs & Hend).
    split; [exact Hne|]. split; [exact Hall|].
    exists pre, post. split; [exact Hend|]. right. split; [exact Hs|].
    now apply searchCapture_None.
Qed.

(** A witness: a share link, with its query. *)
Lemma extracted_identifier_witness :
  exists pre post,
    endsIdentifier post
    /\ (lit "https://open.spotify.com/track/6rqhFgbbKwnb9MLmUQDhG6?si=abc"
        = pre ++ lit "spotify:track:" ++ lit "6rqhFgbbKwnb9MLmUQDhG6" ++ post
        \/ (lit "https://open.spotify.com/track/6rqhFgbbKwnb9MLmUQDhG6?si=abc"
            = pre ++ lit "open.spotify.com/track/"
                ++ lit "6rqhFgbbKwnb9MLmUQDhG6" ++ post
            /\ ~ occursWithId (lit "spotify:track:")
                  (lit "https://open.spotify.com/track/6rqhFgbbKwnb9MLmUQDhG6?si=abc"))).
Proof.
  exact (proj2 (proj2 (extracted_identifier
                         (lit "https://open.spotify.com/track/6rqhFgbbKwnb9MLmUQDhG6?si=abc")
                         (lit "6rqhFgbbKwnb9MLmUQDhG6") eq_refl))).
Defined.

End ReferenceIdentifier.

(** ** The composer endpoint and the composer action *)

Section ComposerEndpoint.
Import Prim Actions Http.
Context {U : UnicodeLower} {Sch : Store.Schema}.

Lemma composerPOST_missing request env w ses :
  session env = Some ses -> user_name (user ses) = operator ->
  ComposerRoute.req_spotifyArtistId request = None
  \/ ComposerRoute.req_spotifyArtistId request = Some []
  \/ ComposerRoute.req_name request = Absent
  \/ ComposerRoute.req_name request = Str [] ->
  ComposerRoute.POST (Some request) env w
  = (Ok {| code := 400; payload := Error (lit "Missing required fields") |}, w).
Proof.
  intros Hses Hname Hmiss. unfold ComposerRoute.POST.
  unfold Prim.getSession, Http.fail, Http.requestJson, tryCatch, bind, ret,
    throw, ask.
  rewrite Hses. rewrite bool_decide_eq_true_2 by exact Hname. cbn.
  destruct request as [a name]. cbn in Hmiss.
  destruct Hmiss as [-> | [-> | [-> | ->]]]; try reflexivity;
    destruct a as [[|c r]|]; reflexivity.
Qed.

Lemma composerPOST_not_a_string a env w ses :
  session env = Some ses -> user_name (user ses) = operator ->
  a <> [] ->
  ComposerRoute.POST
    (Some {| ComposerRoute.req_spotifyArtistId := Some a;
             ComposerRoute.req_name := NotAString |}) env w
  = (Ok {| code := 500; payload := Error (lit "Failed to add composer") |}, w).
Proof.
  intros Hses Hname Ha. unfold ComposerRoute.POST.
  unfold Prim.getSession, Http.fail, Http.requestJson, tryCatch, bind, ret,
    throw, ask.
  rewrite Hses. rewrite bool_decide_eq_true_2 by exact Hname. cbn.
  destruct a as [|c r]; [congruence | reflexivity].
Qed.

(** X16. *)
Theorem composer_endpoint_mirrors_action (env : Env) (w : World) (ses : Session) :
  session env = Some ses ->
  user_name (user ses) = operator ->
  (forall a name,
      a <> [] -> name <> [] ->
      ComposerRoute.POST
        (Some {| ComposerRoute.req_spotifyArtistId := Some a;
                 ComposerRoute.req_name := Str name |}) env w
      = match addComposer a name env w with
        | (Ok r, w') => (Ok {| code := 200; payload := Success (composer r) |}, w')
        | (Throw _, w') =>
            (Ok {| code := 500; payload := Error (lit "Failed to add composer") |}, w')
        end)
  /\ (forall request,
        ComposerRoute.req_spotifyArtistId request = None
        \/ ComposerRoute.req_spotifyArtistId request = Some []
        \/ ComposerRoute.req_name request = Absent
        \/ ComposerRoute.req_name request = Str [] ->
        ComposerRoute.POST (Some request) env w
        = (Ok {| code := 400; payload := Error (lit "Missing required fields") |}, w))
  /\ (forall a,
        a <> [] ->
        ComposerRoute.POST
          (Some {| ComposerRoute.req_spotifyArtistId := Some a;
                   ComposerRoute.req_name := NotAString |}) env w
        = (Ok {| code := 500; payload := Error (lit "Failed to add composer") |}, w))
  /\ (forall a name,
        a = [] \/ name = [] ->
        Store.composer (store w) !! composerSlug name = None ->
        Store.admissible
          (Store.withComposer (store w)
             (<[composerSlug name := composerRowOf a name]>
                (Store.composer (store w)))) = true ->
        exists w',
          addComposer a name env w
          = (Ok {| composer_success := true; composer := composerRowOf a name |}, w')
          /\ Store.composer (store w') !! composerSlug name
             = Some (composerRowOf a name)).
Proof.
  intros Hses Hname. split; [|split; [|split]].
  - intros a name Ha Hn.
    rewrite (composerPOST_authorized a name env w ses Hses Hname Ha Hn).
    rewrite (addComposer_authorized a name env w ses Hses Hname).
    destruct (insertComposer (composerRowOf a name) env w) as [[[]|e] w'];
      reflexivity.
  - intros request Hmiss. now apply (composerPOST_missing request env w ses).
  - intros a Ha. now apply (composerPOST_not_a_string a env w ses).
  - intros a name _ Hfree Hadm.
    rewrite (addComposer_authorized a name env w ses Hses Hname).
    rewrite insertComposer_fresh by exact Hfree.
    destruct (commit_cases Store.TComposer
                (Store.withComposer (store w)
                   (<[Store.composer_id (composerRowOf a name) := composerRowOf a name]>
                      (Store.composer (store w)))) env w)
      as [[_ Hc] | [Hc _]]; [|cbn in Hc; congruence].
    rewrite Hc. eexists. split; [reflexivity|]. cbn. apply lookup_insert_eq.
Qed.

End ComposerEndpoint.

Section ComposerEndpointWitness.
Import Prim Actions Http.

(** A witness: the endpoint refuses a request without a name; the action,
    given the empty name, writes a composer whose identifier is empty. *)
Lemma composer_endpoint_mirrors_action_witness :
  ComposerRoute.POST
    (Some {| ComposerRoute.req_spotifyArtistId := Some (lit "ar1");
             ComposerRoute.req_name := Str [] |}) operatorEnv emptyWorld
  = (Ok {| code := 400; payload := Error (lit "Missing required fields") |},
     emptyWorld)
  /\ exists w',
       addComposer (lit "ar1") [] operatorEnv emptyWorld
       = (Ok {| composer_success := true;
                composer := composerRowOf (lit "ar1") [] |}, w')
       /\ Store.composer (store w') !! [] = Some (composerRowOf (lit "ar1") []).
Proof.
  destruct (composer_endpoint_mirrors_action operatorEnv emptyWorld operatorSession
              eq_refl eq_refl) as (_ & Hmissing & _ & Haction).
  split.
  - apply Hmissing. cbn. tauto.
  - apply (Haction (lit "ar1") []); [now right | reflexivity | reflexivity].
Defined.

End ComposerEndpointWitness.

(** ** AlbumTracksTable: the range of the movement number *)

Section MovementNumberRange.
Import AlbumTracksTable.

Lemma findIndex_range {A} (p : A -> bool) (l : list A) :
  (findIndex p l = (-1)%Z /\ Forall (fun x => p x = false) l)
  \/ (0 <= findIndex p l < Z.of_nat (length l))%Z.
Proof.
  destruct (findIndex_spec p l) as [[Hi Hall] | (k & x & Hi & Hk & _)].
  - left. now split.
  - right. apply lookup_lt_Some in Hk. lia.
Qed.

Lemma positionIn_range (group : list TrackData) (track : TrackData) :
  (positionIn group track = (-1)%Z
   /\ (2 <= length group)%nat
   /\ Forall (fun t => id t <> id track) group)
  \/ (1 <= positionIn group track <= Z.max 1 (Z.of_nat (length group)))%Z.
Proof.
  unfold positionIn.
  destruct (1 <? Z.of_nat (length group))%Z eqn:Hlen; [|right; lia].
  apply Z.ltb_lt in Hlen.
  destruct (findIndex_range (fun t => bool_decide (id t = id track)) group)
    as [[Hi Hall] | Hi].
  - left. rewrite Hi. cbn. split; [reflexivity|]. split; [lia|].
    revert Hall. apply List.Forall_impl. intros t Ht.
    now apply bool_decide_eq_false in Ht.
  - right. destruct (0 <=? _)%Z eqn:Hpos; [lia|]. apply Z.leb_gt in Hpos. lia.
Qed.

Lemma sameWorkTracks_length tracks albumId system number composer :
  (length (sameWorkTracks tracks albumId system number composer)
   <= length tracks)%nat.
Proof.
  unfold sameWorkTracks.
  rewrite (Permutation_length (sortByTrackNumber_perm _)).
  apply List.filter_length_le.
Qed.

Lemma sameWorkTracks_In tracks albumId system number composer t :
  In t (sameWorkTracks tracks albumId system number composer)
  <-> In t tracks /\ sameWork albumId system number composer t = true.
Proof.
  unfold sameWorkTracks. rewrite <- List.filter_In. split; intros H.
  - eapply Permutation_in; [apply sortByTrackNumber_perm | exact H].
  - eapply Permutation_in; [symmetry; apply sortByTrackNumber_perm | exact H].
Qed.

Lemma filter_filter_and {A} (p q : A -> bool) (l : list A) :
  List.filter q (List.filter p l) = List.filter (fun x => p x && q x) l.
Proof.
  induction l as [|x l IH]; simpl; [reflexivity|].
  destruct (p x); simpl; [|exact IH]. destruct (q x); now rewrite IH.
Qed.

(** Where an element that passes a filter lands in the filtered list. *)
Lemma filter_lookup {A} (p : A -> bool) (l : list A) : forall k x,
  l !! k = Some x -> p x = true ->
  List.filter p l !! length (List.filter p (take k l)) = Some x.
Proof.
  induction l as [|a l IH]; intros k x Hk Hp; [discriminate|].
  destruct k as [|k]; simpl in *.
  - injection Hk as ->. now rewrite Hp.
  - destruct (p a); simpl; now apply IH.
Qed.

(** In a sorted list, the index of an element is the number of elements at
    a smaller position plus the number of elements before it at the same
    position. *)
Lemma sorted_index_split (l : list TrackData) : forall k x,
  StronglySorted byTrackNumber l ->
  l !! k = Some x ->
  k = (length (List.filter (fun t => track_number t <? track_number x)%Z l)
       + length (List.filter (fun t => track_number t =? track_number x)%Z
                   (take k l)))%nat.
Proof.
  induction l as [|a l IH]; intros k x Hs Hk; [discriminate|].
  inversion Hs as [|? ? Hs' Hall]; subst.
  destruct k as [|k]; simpl in Hk.
  - injection Hk as ->. simpl. rewrite Z.ltb_irrefl.
    rewrite filter_none; [reflexivity|].
    revert Hall. apply List.Forall_impl. unfold byTrackNumber.
    intros t Ht. now apply Z.ltb_ge.
  - assert (Hin : In x l).
    { apply list_elem_of_In, list_elem_of_lookup. eauto. }
    assert (Hle : (track_number a <= track_number x)%Z).
    { rewrite List.Forall_forall in Hall. exact (Hall x Hin). }
    specialize (IH k x Hs' Hk). simpl.
    destruct (track_number a <? track_number x)%Z eqn:Hlt.
    + assert ((track_number a =? track_number x)%Z = false) as ->
        by (apply Z.ltb_lt in Hlt; apply Z.eqb_neq; lia).
      simpl. lia.
    + assert ((track_number a =? track_number x)%Z = true) as ->
        by (apply Z.ltb_ge in Hlt; apply Z.eqb_eq; lia).
      simpl. lia.
Qed.

(** The index of a member in the sorted group, from the loaded tracks in
    their order: the members at a smaller position, and the members at the
    same position that were loaded before it. *)
Lemma sorted_group_index (member : TrackData -> bool)
  (tracks : list TrackData) (track : TrackData) (i k : nat) :
  NoDup (List.map id tracks) ->
  tracks !! i = Some track ->
  member track = true ->
  sortByTrackNumber (List.filter member tracks) !! k = Some track ->
  k = (length (List.filter
                 (fun t => member t && (track_number t <? track_number track)%Z)
                 tracks)
       + length (List.filter
                   (fun t => member t && (track_number t =? track_number track)%Z)
                   (take i tracks)))%nat.
Proof.
  intros Hnd Hi Hmem Hk.
  set (group := List.filter member tracks) in *.
  set (atSame := fun t => (track_number t =? track_number track)%Z).
  rewrite (sorted_index_split _ k track (sortByTrackNumber_sorted group) Hk).
  f_equal.
  - rewrite (filter_length_perm _ _ _ (sortByTrackNumber_perm group)).
    unfold group. now rewrite filter_filter_and.
  - assert (Hsame : atSame track = true) by (unfold atSame; apply Z.eqb_refl).
    pose proof (filter_lookup atSame _ k track Hk Hsame) as Hsorted.
    assert (Hstable : List.filter atSame (sortByTrackNumber group)
                      = List.filter (fun t => member t && atSame t) tracks).
    { unfold atSame. rewrite sortByTrackNumber_stable. unfold group.
      apply filter_filter_and. }
    rewrite Hstable in Hsorted.
    assert (Hboth : (fun t => member t && atSame t) track = true)
      by (cbv beta; now rewrite Hmem, Hsame).
    pose proof (filter_lookup (fun t => member t && atSame t) tracks i track
                  Hi Hboth) as Hloaded.
    pose proof (NoDup_map_filter id (fun t => member t && atSame t) tracks Hnd)
      as Hnd'.
    change (List.map id ?l) with (id <$> l) in Hnd'.
    apply (NoDup_lookup _ _ _ (id track) Hnd').
    + rewrite list_lookup_fmap. exact (f_equal (fmap id) Hsorted).
    + rewrite list_lookup_fmap. exact (f_equal (fmap id) Hloaded).
Qed.

(** X17.  The number that [getInferredMovement] gives.  It gives none for a
    track without parsed data or whose parser output carries a movement
    number other than 0, and one number otherwise.  With the group being the loaded tracks that pass
    the filter: a group of at most one member gives 1; a larger group gives
    -1 when none of its members has the track's identifier, and else a
    number from 1 to the size of the group, which is at most the number of
    loaded tracks.  For a track among the loaded tracks the number lies
    between 1 and the size of the group; when the identifiers of the loaded
    tracks are distinct it is one more than the number of members at a
    smaller position plus the number of members at the same position that
    were loaded before the track. *)
Theorem inferred_movement_number (tracks : list TrackData) (track : TrackData) :
  (getInferredMovement tracks track = None
   <-> parsed track = None
       \/ exists p, parsed track = Some p /\ truthyNumber (movement p) = true)
  /\ (forall p,
        parsed track = Some p -> truthyNumber (movement p) = false ->
        let member :=
          sameWork (album_id (album track)) (catalogSystem p)
            (catalogNumber p) (composerName p) in
        let group := List.filter member tracks in
        exists n,
          getInferredMovement tracks track = Some n
          /\ (length group <= length tracks)%nat
          /\ ((length group <= 1)%nat -> n = 1%Z)
          /\ ((2 <= length group)%nat ->
              Forall (fun t => id t <> id track) group -> n = (-1)%Z)
          /\ ((2 <= length group)%nat ->
              Exists (fun t => id t = id track) group ->
              (1 <= n <= Z.of_nat (length group))%Z)
          /\ (In track tracks -> (1 <= n <= Z.of_nat (length group))%Z)
          /\ (forall i,
                tracks !! i = Some track -> NoDup (List.map id tracks) ->
                n = (1
                     + Z.of_nat
                         (length
                            (List.filter
                               (fun t =>
                                  member t
                                  && (track_number t <? track_number track)%Z)
                               tracks))
                     + Z.of_nat
                         (length
                            (List.filter
                               (fun t =>
                                  member t
                                  && (track_number t =? track_number track)%Z)
                               (take i tracks))))%Z)).
Proof.
  split.
  - unfold getInferredMovement. destruct (parsed track) as [p|].
    + destruct (truthyNumber (movement p)) eqn:Hm.
      * split; [intros _; right; now exists p | reflexivity].
      * split; [discriminate|].
        intros [[=] | (q & [= <-] & Hq)]. congruence.
    + split; [now left | reflexivity].
  - intros p Hp Hmov member group.
    exists (positionIn (sortByTrackNumber group) track).
    assert (Hlen : length (sortByTrackNumber group) = length group)
      by apply (Permutation_length (sortByTrackNumber_perm group)).
    split; [unfold getInferredMovement; now rewrite Hp, Hmov|].
    split; [apply List.filter_length_le|].
    assert (Hself : In track tracks -> In track group).
    { intros Hin. apply List.filter_In. split; [exact Hin|].
      now apply sameWork_self. }
    assert (Hfound : Exists (fun t => id t = id track) group ->
                     (1 <= positionIn (sortByTrackNumber group) track
                      <= Z.of_nat (length group))%Z).
    { intros Hex.
      destruct (positionIn_range (sortByTrackNumber group) track)
        as [(_ & _ & Hall) | Hpos].
      - exfalso. apply List.Exists_exists in Hex. destruct Hex as (t & Ht & Hid).
        rewrite List.Forall_forall in Hall. apply (Hall t); [|exact Hid].
        eapply Permutation_in; [symmetry; apply sortByTrackNumber_perm | exact Ht].
      - rewrite Hlen in Hpos.
        assert (1 <= length group)%nat.
        { apply List.Exists_exists in Hex. destruct Hex as (t & Ht & _).
          destruct group; [destruct Ht | simpl; lia]. }
        lia. }
    split; [|split; [|split; [|split]]].
    + intros Hone. unfold positionIn. rewrite Hlen.
      destruct (1 <? Z.of_nat (length group))%Z eqn:H; [|reflexivity].
      apply Z.ltb_lt in H. lia.
    + intros Htwo Hall. unfold positionIn. rewrite Hlen.
      destruct (1 <? Z.of_nat (length group))%Z eqn:H;
        [|apply Z.ltb_ge in H; lia].
      destruct (findIndex_range (fun t => bool_decide (id t = id track))
                  (sortByTrackNumber group)) as [[-> _] | Hi]; [reflexivity|].
      exfalso.
      destruct (findIndex_spec (fun t => bool_decide (id t = id track))
                  (sortByTrackNumber group))
        as [[Hneg _] | (k & x & _ & Hk & Hpx & _)]; [lia|].
      apply bool_decide_eq_true in Hpx.
      rewrite List.Forall_forall in Hall. apply (Hall x); [|exact Hpx].
      eapply Permutation_in; [apply sortByTrackNumber_perm|].
      apply list_elem_of_In, list_elem_of_lookup. eauto.
    + intros _. exact Hfound.
    + intros Hin. apply Hfound. apply List.Exists_exists.
      exists track. split; [now apply Hself | reflexivity].
    + intros i Hi Hnd.
      assert (Hin : In track tracks).
      { apply list_elem_of_In, list_elem_of_lookup. eauto. }
      destruct (positionIn_member group track (Hself Hin)
                  (NoDup_map_filter id member tracks Hnd)) as (k & Hk & Hlk).
      rewrite Hk.
      rewrite (sorted_group_index member tracks track i k Hnd Hi
                 (sameWork_self track p Hp) Hlk) at 1.
      lia.
Qed.

(** Of the tracks at positions 5, 3, 7, the first is loaded first; one
    member of its group lies at a smaller position. *)
Lemma inferred_movement_number_witness :
  getInferredMovement exampleTracks (exampleTrack "a" 5) = Some 2%Z.
Proof.
  destruct (proj2 (inferred_movement_number exampleTracks (exampleTrack "a" 5))
              {| composerName := Some (lit "Ludwig van Beethoven");
                 catalogSystem := Some (lit "Op");
                 catalogNumber := Some (lit "67");
                 nickname := None;
                 formalName := lit "Symphony No. 5";
                 movement := None; movementName := None;
                 key := None; form := None; yearComposed := None |}
              eq_refl eq_refl)
    as (n & Hn & _ & _ & _ & _ & _ & Hrank).
  rewrite Hn. f_equal. apply (Hrank 0%nat eq_refl).
  apply NoDup_ListNoDup. repeat constructor; simpl; intuition discriminate.
Defined.

End MovementNumberRange.

(** ** AlbumTracksTable: badges and buttons *)

Section Badges.
Import AlbumTracksTable TableState.

Lemma getWorkInfo_is_Some t :
  is_Some (getWorkInfo t)
  <-> is_Some (parsed t)
      \/ exists d w rest, dbData t = Some d /\ works d = w :: rest.
Proof.
  unfold getWorkInfo. destruct (parsed t) as [p|].
  - split; [intros _; left; eauto | eauto].
  - destruct (dbData t) as [d|].
    + destruct (works d) as [|w rest] eqn:Hw.
      * split; [intros [? [=]] | intros [[? [=]] | (d' & w & rest & [= <-] & Hd)]].
        congruence.
      * split; [intros _; right; eauto | eauto].
    + split; [intros [? [=]] | intros [[? [=]] | (d' & w & rest & [=] & _)]].
Qed.

(** X18.  The badge of a track and its button go together, although the
    table computes them with different tests: a track shown as Linked has
    the Unlink button, one shown as Ready has the Save button, one shown as
    Unknown has no button, and conversely.  A track that has the Save
    button has work information: [getWorkInfo] is not null for it. *)
Theorem badge_matches_button (row : Row) :
  (status row = Linked <-> action row = Unlink)
  /\ (status row = Ready <-> action row = Save)
  /\ (status row = Unknown <-> action row = NoAction)
  /\ (action row = Save -> is_Some (getWorkInfo (track row))).
Proof.
  assert (Hsame : bool_decide (is_Some (parsed (track row)))
                  || match dbData (track row) with
                     | Some d => negb (bool_decide (works d = []))
                     | None => false
                     end
                  = bool_decide (is_Some (parsed (track row)))
                    || bool_decide (is_Some (getWorkInfo (track row)))).
  { unfold getWorkInfo. destruct (parsed (track row)) as [p|]; [reflexivity|].
    cbn. destruct (dbData (track row)) as [d|]; [|reflexivity].
    destruct (works d); reflexivity. }
  unfold status, action. rewrite Hsame.
  destruct (hasMetadata row); cbn; rewrite ?andb_false_r, ?andb_true_r.
  - split; [tauto|]. split; [split; discriminate|]. split; [split; discriminate|].
    discriminate.
  - destruct (bool_decide (is_Some (parsed (track row)))
              || bool_decide (is_Some (getWorkInfo (track row)))) eqn:Hready.
    + split; [split; discriminate|]. split; [tauto|].
      split; [split; discriminate|]. intros _.
      apply orb_true_iff in Hready. destruct Hready as [H|H];
        apply bool_decide_eq_true in H; [|exact H].
      apply getWorkInfo_is_Some. now left.
    + split; [split; discriminate|]. split; [split; discriminate|].
      split; [tauto | discriminate].
Qed.

(** X19.  A track shown from the store alone is not marked new.  For a
    track without parsed data, no movement number is inferred; when it has
    linked works, the work shown is the first of them and it is marked as
    existing; without linked works no work is shown.  The movement shown is
    the first linked one, marked as existing unless its number is 0, which
    the table takes for no number. *)
Theorem stored_track_is_not_new (t : TrackData) (d : DbData) :
  parsed t = None -> dbData t = Some d ->
  (forall tracks, getInferredMovement tracks t = None)
  /\ (works d <> [] -> workExistsInDb t = true)
  /\ (works d = [] -> getWorkInfo t = None /\ workExistsInDb t = false)
  /\ (forall m rest, movements d = m :: rest ->
        movementExistsInDb t = negb (dm_number m =? 0)%Z)
  /\ (movements d = [] -> getMovementInfo t = None /\ movementExistsInDb t = false).
Proof.
  intros Hp Hd. split; [|split; [|split; [|split]]].
  - intros tracks. unfold getInferredMovement. now rewrite Hp.
  - intros Hne. unfold workExistsInDb, getWorkInfo. rewrite Hp, Hd.
    destruct (works d) as [|w rest]; [congruence|]. cbn.
    destruct (truthyString (dw_catalogSystem w) && truthyString (dw_catalogNumber w)).
    + unfold strictEq. now rewrite !bool_decide_eq_true_2 by reflexivity.
    + now rewrite bool_decide_eq_true_2 by reflexivity.
  - intros Hnil. unfold workExistsInDb, getWorkInfo. rewrite Hp, Hd, Hnil. now split.
  - intros m rest Hm. unfold movementExistsInDb, getMovementInfo.
    rewrite Hp, Hd, Hm. cbn.
    destruct (dm_number m =? 0)%Z; [reflexivity|]. cbn.
    now rewrite bool_decide_eq_true_2 by reflexivity.
  - intros Hnil. unfold movementExistsInDb, getMovementInfo.
    rewrite Hp, Hd, Hnil. now split.
Qed.

(** A witness: the track linked to Brahms's Op. 2. *)
Lemma stored_track_is_not_new_witness :
  workExistsInDb linkedTrack = true /\ movementExistsInDb linkedTrack = true.
Proof.
  destruct (stored_track_is_not_new linkedTrack
              {| works :=
                   [{| dw_id := lit "johannes-brahms/op-2";
                       dw_composerId := lit "johannes-brahms";
                       dw_title := lit "Piano Sonata No. 2";
                       dw_nickname := None;
                       dw_catalogSystem := Some (lit "Op");
                       dw_catalogNumber := Some (lit "2") |}];
                 movements := [{| dm_number := 1; dm_title := None |}];
                 composers :=
                   [{| dc_id := lit "johannes-brahms";
                       dc_name := lit "Johannes Brahms" |}] |}
              eq_refl eq_refl) as (_ & Hwork & _ & Hmovement & _).
  split; [apply Hwork; discriminate|].
  now rewrite (Hmovement _ _ eq_refl).
Defined.

End Badges.

(** ** Identifiers: what they determine *)

Section Identifiers.
Context {U : UnicodeLower}.

Lemma numberToString_no_slash z :
  Forall (fun c => c <> 47) (numberToString z).
Proof.
  assert (Hdigits : forall n, (0 <= n)%Z ->
            Forall (fun c => c <> 47) (numberToString n)).
  { intros n Hn. destruct (numberToString_nonneg n Hn) as (_ & Hall & _).
    revert Hall. apply List.Forall_impl. intros c Hc Heq. subst c.
    vm_compute in Hc. discriminate. }
  destruct (Z.lt_ge_cases z 0) as [Hneg|Hpos]; [|now apply Hdigits].
  rewrite numberToString_neg by exact Hneg.
  constructor; [discriminate | apply Hdigits; lia].
Qed.

(** A text is cut in one way at its last slash. *)
Lemma last_slash_unique (a b x y : jsstring) :
  Forall (fun c => c <> 47) x -> Forall (fun c => c <> 47) y ->
  a ++ [47] ++ x = b ++ [47] ++ y -> a = b /\ x = y.
Proof.
  intros Hx Hy Heq.
  apply (f_equal (@rev N)) in Heq. rewrite !rev_app_distr in Heq. cbn in Heq.
  rewrite <- !app_assoc in Heq. cbn in Heq.
  apply List.Forall_rev in Hx, Hy.
  assert (Hrev : rev x = rev y /\ rev a = rev b).
  { revert Hx Hy Heq. generalize (rev x) (rev y). clear x y.
    induction l as [|c l IH]; intros l' Hx Hy Heq.
    - destruct l' as [|c' l']; cbn in Heq.
      + injection Heq as ->. now split.
      + injection Heq as <- _. now inversion Hy.
    - destruct l' as [|c' l']; cbn in Heq.
      + injection Heq as -> _. now inversion Hx.
      + injection Heq as <- Heq. inversion Hx; inversion Hy; subst.
        destruct (IH l') as [-> ->]; try assumption. now split. }
  destruct Hrev as [Hxy Hab].
  apply (f_equal (@rev N)) in Hxy, Hab. rewrite !rev_involutive in Hxy, Hab.
  now split.
Qed.

(** A text is cut in one way at its first slash. *)
Lemma first_slash_unique (a b x y : jsstring) :
  Forall (fun c => c <> 47) a -> Forall (fun c => c <> 47) b ->
  a ++ [47] ++ x = b ++ [47] ++ y -> a = b /\ x = y.
Proof.
  intros Ha Hb. revert b Hb. induction Ha as [|c a Hc _ IH]; intros b Hb Heq.
  - destruct b as [|c' b]; cbn in Heq.
    + injection Heq as ->. now split.
    + injection Heq as <- _. now inversion Hb.
  - destruct b as [|c' b]; cbn in Heq.
    + injection Heq as -> _. congruence.
    + injection Heq as <- Heq. inversion Hb; subst.
      destruct (IH b) as [-> ->]; try assumption. now split.
Qed.

Lemma composerSlug_no_slash name :
  Forall (fun c => c <> 47) (composerSlug name).
Proof.
  pose proof (composerSlug_chars name) as Hall. revert Hall.
  apply List.Forall_impl. intros c Hc Heq. subst c. vm_compute in Hc. discriminate.
Qed.

(** X20.  What the identifiers determine.  A movement identifier
    determines its work and its number: two movements (numbered by whole
    numbers below 10^21, which are written in full) have the same
    identifier only when they have the same work identifier and the same
    number.  The works of two composers whose identifiers are slugs never
    share an identifier: a work identifier determines the composer's slug,
    and the lower-cased catalog system, hyphen and catalog number as one
    text. *)
Theorem identifiers_determine_their_parts :
  (forall workId workId' n n',
      (Z.abs n < 10 ^ 21)%Z -> (Z.abs n' < 10 ^ 21)%Z ->
      movementIdOf workId n = movementIdOf workId' n' ->
      workId = workId' /\ n = n')
  /\ (forall name name' system system' number number',
        workIdOf (composerSlug name) system number
        = workIdOf (composerSlug name') system' number' ->
        composerSlug name = composerSlug name'
        /\ toLowerCase system ++ [45] ++ number
           = toLowerCase system' ++ [45] ++ number').
Proof.
  split.
  - intros workId workId' n n' _ _ Heq. unfold movementIdOf in Heq.
    destruct (last_slash_unique _ _ _ _ (numberToString_no_slash n)
                (numberToString_no_slash n') Heq) as [Hw Hn].
    split; [exact Hw | now apply numberToString_inj].
  - intros name name' system system' number number' Heq. unfold workIdOf in Heq.
    now apply (first_slash_unique _ _ _ _ (composerSlug_no_slash name)
                 (composerSlug_no_slash name')).
Qed.

End Identifiers.

(** ** The composer slug: its form *)

Section SlugForm.
Context {U : UnicodeLower}.

Lemma adjacentHyphens_cons c s :
  adjacentHyphens (c :: s)
  = (isHyphen c && startsWithHyphen s) || adjacentHyphens s.
Proof. reflexivity. Qed.

(** After the runs of hyphens have been replaced, no two hyphens are
    adjacent. *)
Lemma replaceRuns_hyphens s : forall b,
  adjacentHyphens (replaceRuns isHyphen [45] b s) = false
  /\ (b = true -> startsWithHyphen (replaceRuns isHyphen [45] b s) = false).
Proof.
  induction s as [|c s IH]; intros b; [now split|].
  cbn [replaceRuns]. destruct (isHyphen c) eqn:Hc.
  - destruct (IH true) as [Hadj Hstart]. destruct b.
    + split; [exact Hadj | intros _; now apply Hstart].
    + split; [|discriminate]. cbn [app]. rewrite adjacentHyphens_cons.
      now rewrite Hadj, Hstart, andb_false_r.
  - destruct (IH false) as [Hadj _]. rewrite adjacentHyphens_cons.
    rewrite Hc, Hadj. split; [reflexivity|]. intros _. cbn. exact Hc.
Qed.

(** Where no two hyphens are adjacent, replacing the runs of hyphens
    changes nothing. *)
Lemma replaceRuns_single_hyphens s : forall b,
  adjacentHyphens s = false ->
  (b = true -> startsWithHyphen s = false) ->
  replaceRuns isHyphen [45] b s = s.
Proof.
  induction s as [|c s IH]; intros b Hadj Hstart; [reflexivity|].
  rewrite adjacentHyphens_cons in Hadj. apply orb_false_iff in Hadj.
  destruct Hadj as [Hhere Hadj]. cbn [replaceRuns].
  destruct (isHyphen c) eqn:Hc.
  - destruct b; [cbn in Hstart; rewrite Hc in Hstart; now specialize (Hstart eq_refl)|].
    cbn in Hhere. cbn [app]. apply N.eqb_eq in Hc. subst c. f_equal.
    apply IH; [exact Hadj | intros _; exact Hhere].
  - f_equal. apply IH; [exact Hadj | discriminate].
Qed.

(** X21.  The form of a composer slug.  Every slug consists of lower-case
    ASCII letters, digits and hyphens, with no two hyphens in a row; and
    every text of that form is a slug, namely its own: the slugs are
    exactly the texts of that form. *)
Theorem composer_slug_form :
  (forall name, slugForm (composerSlug name))
  /\ (forall s, slugForm s -> composerSlug s = s).
Proof.
  split.
  - intros name. split; [apply composerSlug_chars|].
    rewrite composerSlug_body. unfold slugBody. apply replaceRuns_hyphens.
  - intros s [Hchars Hadj]. rewrite composerSlug_body. unfold slugBody.
    rewrite toLowerCase_slugChars by assumption.
    rewrite removeOutside_all
      by (revert Hchars; apply List.Forall_impl; intros c; apply slugChar_kept).
    rewrite (replaceRuns_none isSpace) by (now apply slugChars_no_space).
    apply replaceRuns_single_hyphens; [exact Hadj | discriminate].
Qed.

End SlugForm.

(** ** Composer rows are never overwritten *)

Section ComposersKept.
Import Prim Actions Http.
Context {U : UnicodeLower} {Sch : Store.Schema}.

Lemma withComposer_same s : Store.withComposer s (Store.composer s) = s.
Proof. now destruct s. Qed.

Lemma composersKept_refl s : composersKept s s.
Proof. split; [tauto | apply withComposer_same]. Qed.

Lemma insertComposer_kept row env w :
  composersKept (store w) (store (snd (insertComposer row env w))).
Proof.
  destruct (Store.composer (store w) !! Store.composer_id row) as [old|] eqn:Hl.
  - rewrite insertComposer_duplicate by (rewrite Hl; eauto).
    apply composersKept_refl.
  - rewrite insertComposer_fresh by exact Hl.
    match goal with
    | |- context [commit ?tb ?s' ?e ?w0] =>
        destruct (commit_cases tb s' e w0) as [[_ Hc] | [_ Hc]]; rewrite Hc
    end; [|apply composersKept_refl].
    cbn. split.
    + intros k r Hk. cbn [Store.composer Store.withComposer].
      rewrite lookup_insert_ne; [exact Hk | congruence].
    + now destruct (store w).
Qed.

(** X22.  Composer rows are never overwritten.  Whatever the context, the
    arguments and the request, and whether they succeed or fail,
    [addComposer] and the composer endpoint leave every composer row of the
    store in place, unchanged, and touch no other table: all they can do is
    add a row under a key that was free. *)
Theorem composer_rows_are_kept (env : Env) (w : World) :
  (forall spotifyArtistId name,
      composersKept (store w)
        (store (snd (addComposer spotifyArtistId name env w))))
  /\ (forall request,
        composersKept (store w) (store (snd (ComposerRoute.POST request env w)))).
Proof.
  split.
  - intros a name.
    destruct (checkAuth_cases env w)
      as [[Hses _] | [(ses & Hses & Hname & _) | (ses & Hses & Hname & _)]].
    + unfold addComposer, Prim.getSession, bind, ret, throw, ask.
      rewrite Hses. apply composersKept_refl.
    + unfold addComposer, Prim.getSession, bind, ret, throw, ask.
      rewrite Hses. rewrite bool_decide_eq_false_2 by exact Hname.
      apply composersKept_refl.
    + rewrite (addComposer_authorized a name env w ses Hses Hname).
      pose proof (insertComposer_kept (composerRowOf a name) env w) as Hkept.
      destruct (insertComposer (composerRowOf a name) env w) as [[[]|e] w'];
        exact Hkept.
  - intros request.
    destruct (checkAuth_cases env w)
      as [[Hses _] | [(ses & Hses & Hname & _) | (ses & Hses & Hname & _)]].
    + unfold ComposerRoute.POST, Prim.getSession, Http.fail, bind, ret, ask.
      rewrite Hses. apply composersKept_refl.
    + unfold ComposerRoute.POST, Prim.getSession, Http.fail, bind, ret, ask.
      rewrite Hses. rewrite bool_decide_eq_false_2 by exact Hname.
      apply composersKept_refl.
    + destruct request as [[[a|] name]|].
      * destruct (decide (a = [])) as [->|Ha].
        { rewrite (composerPOST_missing _ env w ses Hses Hname) by (cbn; tauto).
          apply composersKept_refl. }
        destruct name as [| |name].
        -- rewrite (composerPOST_missing _ env w ses Hses Hname) by (cbn; tauto).
           apply composersKept_refl.
        -- rewrite (composerPOST_not_a_string a env w ses Hses Hname Ha).
           apply composersKept_refl.
        -- destruct (decide (name = [])) as [->|Hn].
           { rewrite (composerPOST_missing _ env w ses Hses Hname) by (cbn; tauto).
             apply composersKept_refl. }
           rewrite (composerPOST_authorized a name env w ses Hses Hname Ha Hn).
           pose proof (insertComposer_kept (composerRowOf a name) env w) as Hkept.
           destruct (insertComposer (composerRowOf a name) env w) as [[[]|e] w'];
             exact Hkept.
      * rewrite (composerPOST_missing _ env w ses Hses Hname) by (cbn; tauto).
        apply composersKept_refl.
      * unfold ComposerRoute.POST, Prim.getSession, Http.requestJson, bind, ret,
          throw, ask.
        rewrite Hses. rewrite bool_decide_eq_true_2 by exact Hname. cbn.
        apply composersKept_refl.
Qed.

End ComposersKept.

(** ** Linking a track: every outcome *)

Section LinkOutcomes.
Import Prim Actions.
Context {U : UnicodeLower} {Sch : Store.Schema}.

Lemma linkWritten_keeps s row k l :
  Store.trackMovement s !! k = Some l ->
  Store.trackMovement (linkWritten s row) !! k = Some l.
Proof.
  intros Hk. unfold linkWritten.
  destruct (Store.trackMovement s !! (Store.tm_spotifyTrackId row, Store.tm_movementId row))
    eqn:Hl; [exact Hk|].
  cbn. rewrite lookup_insert_ne; [exact Hk | congruence].
Qed.

(** The three statements: how far they got. *)
Lemma linkStatements_cases data env w r w' :
  linkStatements data env w = (r, w') ->
  let s1 := workWritten (store w) (workRowOf data) in
  let s2 := movementWritten s1 (movementRowOf data) in
  (r = Ok (linkResultOf data) /\ store w' = linked (store w) data)
  \/ ((exists e, r = Throw e)
      /\ (store w' = store w \/ store w' = s1 \/ store w' = s2)).
Proof.
  intros Hrun s1 s2. unfold linkStatements in Hrun. unfold bind at 1 in Hrun.
  rewrite upsertWork_commit in Hrun. fold s1 in Hrun.
  destruct (commit_cases Store.TWork s1 env w) as [[_ Hc] | [_ Hc]];
    rewrite Hc in Hrun.
  2:{ injection Hrun as <- <-. right. split; [eauto | now left]. }
  unfold bind at 1 in Hrun. rewrite upsertMovement_commit in Hrun.
  cbn [store] in Hrun. fold s2 in Hrun.
  match type of Hrun with
  | context [commit Store.TMovement s2 ?e ?w0] =>
      destruct (commit_cases Store.TMovement s2 e w0) as [[_ Hc2] | [_ Hc2]];
      rewrite Hc2 in Hrun
  end.
  2:{ injection Hrun as <- <-. right. split; [eauto | right; now left]. }
  unfold bind at 1 in Hrun. rewrite insertTrackMovement_commit in Hrun.
  cbn [store] in Hrun. unfold linked. fold s1 s2.
  unfold linkWritten at 1.
  destruct (Store.trackMovement s2 !! _) eqn:Hl.
  - unfold ret, logged in Hrun. injection Hrun as <- <-. left. now split.
  - match type of Hrun with
    | context [commit Store.TTrackMovement ?s' ?e ?w0] =>
        destruct (commit_cases Store.TTrackMovement s' e w0) as [[_ Hc3] | [_ Hc3]];
        rewrite Hc3 in Hrun
    end.
    + unfold ret in Hrun. injection Hrun as <- <-. left. cbn [store].
      unfold linkWritten. fold s1 s2. now rewrite Hl.
    + injection Hrun as <- <-. right. split; [eauto | right; now right].
Qed.

(** X23.  Every outcome of linking a track.  For the operator,
    [addWorkMovementAndTrack] either resolves with the derived identifiers,
    the three statements having taken effect, or throws "Failed to add
    work, movement, and track" -- and then the store is as it was, or holds
    the work, or the work and the movement: what was written before the
    failure stays.  In every case the links that were in the store are
    there unchanged.  When a work was stored under the derived identifier
    and the store changed, that work keeps its composer and takes the
    title, catalog system and catalog number of the call. *)
Theorem link_action_outcomes (env : Env) (w w' : World) (data : WorkData)
  (ses : Session) (r : Result LinkResult) :
  session env = Some ses ->
  user_name (user ses) = operator ->
  addWorkMovementAndTrack data env w = (r, w') ->
  let W := workIdOf (composerId data) (catalogSystem data) (catalogNumber data) in
  let s1 := workWritten (store w) (workRowOf data) in
  let s2 := movementWritten s1 (movementRowOf data) in
  ((r = Ok (linkResultOf data) /\ store w' = linked (store w) data)
   \/ (r = Throw (lit "Failed to add work, movement, and track")
       /\ (store w' = store w \/ store w' = s1 \/ store w' = s2)))
  /\ (forall k l, Store.trackMovement (store w) !! k = Some l ->
                  Store.trackMovement (store w') !! k = Some l)
  /\ (forall old, Store.work (store w) !! W = Some old ->
        store w' <> store w ->
        exists wr, Store.work (store w') !! W = Some wr
                   /\ Store.work_composerId wr = Store.work_composerId old
                   /\ Store.work_title wr = formalName data
                   /\ Store.work_catalogSystem wr = catalogSystem data
                   /\ Store.work_catalogNumber wr = catalogNumber data).
Proof.
  intros Hses Hname Hrun W s1 s2.
  rewrite (addWorkMovementAndTrack_run _ _ _ ses Hses Hname) in Hrun.
  destruct (linkStatements data env w) as [r0 w0] eqn:Hst.
  apply linkStatements_cases in Hst. fold s1 s2 in Hst.
  assert (Hw : w' = w0) by (destruct r0; now injection Hrun). subst w0.
  assert (Hlinked : linked (store w) data = linkWritten s2 (linkRowOf data))
    by reflexivity.
  assert (Hstores : store w' = store w \/ store w' = s1 \/ store w' = s2
                    \/ store w' = linkWritten s2 (linkRowOf data)).
  { destruct Hst as [[_ Hs] | [_ [Hs | [Hs | Hs]]]]; rewrite Hs; tauto. }
  split; [|split].
  - destruct Hst as [[-> Hs] | [[e ->] Hs]]; injection Hrun as <-;
      [left | right]; now split.
  - intros k l Hk.
    destruct Hstores as [-> | [-> | [-> | ->]]]; try exact Hk.
    now apply linkWritten_keeps.
  - intros old Hold Hchanged.
    assert (Hrow : Store.work s1 !! W = Some (mergedWork (Some old) (workRowOf data))).
    { unfold s1, workWritten. cbn [Store.work Store.withWork Store.work_id workRowOf].
      fold W. rewrite Hold. apply lookup_insert_eq. }
    exists (mergedWork (Some old) (workRowOf data)).
    split; [|cbn; tauto].
    destruct Hstores as [Hs | [-> | [-> | ->]]]; [congruence | exact Hrow | exact Hrow |].
    destruct (linkWritten_tables s2 (linkRowOf data)) as (-> & _). exact Hrow.
Qed.

End LinkOutcomes.

Section LinkOutcomesWitness.
Import Prim Actions.

(** A witness: Beethoven's Op. 67, first movement, linked in the empty
    store. *)
Lemma link_action_outcomes_witness :
  fst (addWorkMovementAndTrack fifthSymphony operatorEnv emptyWorld)
  = Ok (linkResultOf fifthSymphony)
  /\ store (snd (addWorkMovementAndTrack fifthSymphony operatorEnv emptyWorld))
     = linked Store.empty fifthSymphony.
Proof.
  destruct (link_action_outcomes operatorEnv emptyWorld _ fifthSymphony
              operatorSession _ eq_refl eq_refl (surjective_pairing _))
    as ([Hok | [Hr _]] & _).
  - exact Hok.
  - exfalso. vm_compute in Hr. discriminate.
Defined.

End LinkOutcomesWitness.

(** ** The replies of the endpoints *)

Section Replies.
Import Prim Actions Http.
Context {U : UnicodeLower} {Sch : Store.Schema}.

Lemma error_reply_wellFormed {A} (st : Z) (e : jsstring) :
  replyStatus st = true -> st <> 200%Z ->
  wellFormedReply (A := A) {| code := st; payload := Error e |}.
Proof.
  intros Hst Hne. split; [exact Hst|]. cbn. split; [discriminate | congruence].
Qed.

Lemma success_reply_wellFormed {A} (a : A) :
  wellFormedReply {| code := 200; payload := Success a |}.
Proof. split; [reflexivity|]. cbn. tauto. Qed.

Lemma not_ok_not_200 resp : TrackRoute.ok resp = false -> status resp <> 200%Z.
Proof. unfold TrackRoute.ok. intros H Heq. rewrite Heq in H. discriminate. Qed.

Ltac error_reply :=
  eexists _, _; split; [reflexivity|];
  apply error_reply_wellFormed; [reflexivity | discriminate].

Lemma trackPOST_replies request env w :
  exists reply w',
    TrackRoute.POST (Some request) env w = (Ok reply, w')
    /\ wellFormedReply reply.
Proof.
  unfold TrackRoute.POST, Prim.getSession, Prim.getAccessToken, Prim.fetch,
    Prim.json, Prim.prop, Http.fail, Http.respond, Http.requestJson, tryCatch,
    bind, ret, throw, ask, getStore, emit.
  destruct (session env) as [ses|]; [|error_reply].
  destruct (negb (bool_decide (user_name (user ses) = operator))); [error_reply|].
  cbn. destruct request as [| |[|c r]]; try error_reply.
  destruct (TrackRoute.extractTrackId (c :: r)) as [[|i d]|]; try error_reply.
  cbn. destruct (accessToken env (user_id (user ses))) as [[|t tok]|];
    try error_reply.
  cbn. destruct (provider env _ _) as [|resp]; cbn; [error_reply|].
  destruct (TrackRoute.ok resp) eqn:Hok; cbn.
  - destruct (body resp) as [| |[em pop img [td|]]]; cbn; try error_reply.
    eexists _, _. split; [reflexivity | apply success_reply_wellFormed].
  - destruct (body resp) as [| |j]; cbn; try error_reply.
    destruct (replyStatus (status resp)) eqn:Hst; cbn; [|error_reply].
    eexists _, _. split; [reflexivity|].
    apply error_reply_wellFormed; [exact Hst | now apply not_ok_not_200].
Qed.

Lemma composerPOST_replies request env w :
  exists reply w',
    ComposerRoute.POST (Some request) env w = (Ok reply, w')
    /\ wellFormedReply reply.
Proof.
  unfold ComposerRoute.POST, Prim.getSession, Http.fail, Http.requestJson,
    tryCatch, bind, ret, throw, ask.
  destruct (session env) as [ses|]; [|error_reply].
  destruct (negb (bool_decide (user_name (user ses) = operator))); [error_reply|].
  cbn. destruct request as [[[|c r]|] [| |[|c' r']]]; cbn; try error_reply.
  match goal with
  | |- context [insertComposer ?row ?e ?w0] =>
      destruct (insertComposer row e w0) as [[[]|err] w1]
  end; [|error_reply].
  eexists _, _. split; [reflexivity | apply success_reply_wellFormed].
Qed.

(** X24.  The replies of the endpoints are well formed.  Whenever the
    track-metadata endpoint or the composer endpoint resolves to a reply --
    whatever the request, the context, the store and the provider's
    behaviour -- the status of the reply is one that a reply with a body
    can carry, and it is 200 exactly when the body is not an error. *)
Theorem replies_are_well_formed (env : Env) (w : World) :
  (forall request reply w',
      TrackRoute.POST request env w = (Ok reply, w') -> wellFormedReply reply)
  /\ (forall request reply w',
        ComposerRoute.POST request env w = (Ok reply, w') ->
        wellFormedReply reply).
Proof.
  split.
  - intros [request|] reply w' Hrun.
    + destruct (trackPOST_replies request env w) as (reply0 & w0 & Hrun0 & Hwf).
      rewrite Hrun0 in Hrun. now injection Hrun as <- _.
    + revert Hrun.
      unfold TrackRoute.POST, Prim.getSession, Http.requestJson, Http.fail,
        bind, ret, throw, ask.
      destruct (session env) as [ses|].
      * destruct (negb (bool_decide (user_name (user ses) = operator)));
          cbn; [|discriminate].
        intros [= <- _]. apply error_reply_wellFormed; [reflexivity | discriminate].
      * intros [= <- _]. apply error_reply_wellFormed; [reflexivity | discriminate].
  - intros [request|] reply w' Hrun.
    + destruct (composerPOST_replies request env w) as (reply0 & w0 & Hrun0 & Hwf).
      rewrite Hrun0 in Hrun. now injection Hrun as <- _.
    + revert Hrun.
      unfold ComposerRoute.POST, Prim.getSession, Http.requestJson, Http.fail,
        bind, ret, throw, ask.
      destruct (session env) as [ses|].
      * destruct (negb (bool_decide (user_name (user ses) = operator)));
          cbn; [|discriminate].
        intros [= <- _]. apply error_reply_wellFormed; [reflexivity | discriminate].
      * intros [= <- _]. apply error_reply_wellFormed; [reflexivity | discriminate].
Qed.

End Replies.

Section RepliesExample.
Import Prim Actions Http.

(** The reply to the operator when the provider answers 404. *)
Lemma replies_are_well_formed_witness :
  wellFormedReply
    (A := TrackRoute.TrackMetadata)
    {| code := 404; payload := Error (lit "Non existing id") |}.
Proof.
  apply (proj1 (replies_are_well_formed notFoundEnv emptyWorld)
           (Some (Str (lit "spotify:track:0000"))) _
           {| store := Store.empty;
              trace := [ProviderFetch (TrackRoute.trackUrl (lit "0000")) (lit "token");
                        TokenRequest (lit "u1")] |}).
  reflexivity.
Defined.

End RepliesExample.
